(** * CatsTrie: a trie with a cached best completion at every node

    Shallow embedding of [CatsTrie.py].  Python objects live in a store
    (an arena of [Node] records addressed by allocation index), object
    references are [pyref]s, and the methods of the class are written in
    a small state-and-exception monad over the store.  Characters are
    8-bit ([ascii]); counts are natural numbers; the [while] loop of
    [autoComplete] takes a bound on the number of its iterations. *)

From Stdlib Require Import ZArith Lia List Ascii String Permutation Sorted.
From stdpp Require Import base tactics option list strings.

Local Open Scope nat_scope.

(** ** Data model *)

(** A Python [str] is a list of characters. *)
Abbreviation str := (list ascii).

(** A Python reference: [None] or the identity of a [Node] object. *)
Abbreviation pyref := (option nat).

(** class Node *)
Record Node := mkNode {
  links : list pyref;
  char : ascii;
  word : option str;
  word_freq : nat;
  best_child : pyref
}.

(** Node.__init__ *)
Definition Node_init (c : ascii) : Node :=
  {| links := replicate 27 None; char := c; word := None;
     word_freq := 0; best_child := None |}.

(** The attributes of a [CatsTrie] object, together with the store of all
    [Node] objects allocated so far. *)
Record CatsTrie := mkTrie {
  heap : list Node;
  root : nat;
  nodes_to_update : option (list pyref)
}.

Definition with_links (l : list pyref) (nd : Node) : Node :=
  {| links := l; char := char nd; word := word nd;
     word_freq := word_freq nd; best_child := best_child nd |}.
Definition with_word (w : option str) (nd : Node) : Node :=
  {| links := links nd; char := char nd; word := w;
     word_freq := word_freq nd; best_child := best_child nd |}.
Definition with_word_freq (f : nat) (nd : Node) : Node :=
  {| links := links nd; char := char nd; word := word nd;
     word_freq := f; best_child := best_child nd |}.
Definition with_best_child (b : pyref) (nd : Node) : Node :=
  {| links := links nd; char := char nd; word := word nd;
     word_freq := word_freq nd; best_child := b |}.

Definition with_heap (h : list Node) (t : CatsTrie) : CatsTrie :=
  {| heap := h; root := root t; nodes_to_update := nodes_to_update t |}.
Definition with_root (r : nat) (t : CatsTrie) : CatsTrie :=
  {| heap := heap t; root := r; nodes_to_update := nodes_to_update t |}.
Definition with_ntu (l : option (list pyref)) (t : CatsTrie) : CatsTrie :=
  {| heap := heap t; root := root t; nodes_to_update := l |}.

(** ** Python list indexing *)

(** Position denoted by index [i] in a list of length [len]: negative
    indices count from the end, anything else out of range is an
    [IndexError] ([None] here). *)
Definition py_pos (len : nat) (i : Z) : option nat :=
  if (0 <=? i)%Z then
    if (i <? Z.of_nat len)%Z then Some (Z.to_nat i) else None
  else
    if (- Z.of_nat len <=? i)%Z then Some (Z.to_nat (Z.of_nat len + i)) else None.

(** ** The monad: state of the trie, plus exceptions *)

Inductive exn := IndexError | AttributeError | TypeError.

Inductive outcome (A : Type) :=
  | Ok (a : A)
  | Raise (e : exn)
  | Dangling     (* a reference to an object that is not in the store *)
  | OutOfFuel.   (* the loop bound of the model was reached *)
Arguments Ok {A} a.
Arguments Raise {A} e.
Arguments Dangling {A}.
Arguments OutOfFuel {A}.

Definition M (A : Type) := CatsTrie -> outcome A * CatsTrie.

Definition ret {A} (a : A) : M A := fun t => (Ok a, t).
Definition bind {A B} (m : M A) (k : A -> M B) : M B :=
  fun t =>
    match m t with
    | (Ok a, t') => k a t'
    | (Raise e, t') => (Raise e, t')
    | (Dangling, t') => (Dangling, t')
    | (OutOfFuel, t') => (OutOfFuel, t')
    end.
Definition raise {A} (e : exn) : M A := fun t => (Raise e, t).
Definition out_of_fuel {A} : M A := fun t => (OutOfFuel, t).

Declare Scope trie_scope.
Delimit Scope trie_scope with trie.
Notation "x <- m ;; k" := (bind m (fun x => k))
  (at level 20, m at level 99, k at level 200, only parsing) : trie_scope.
Notation "m ;; k" := (bind m (fun _ => k))
  (at level 100, k at level 200, only parsing, right associativity) : trie_scope.
Local Open Scope trie_scope.

(** Attribute access on a reference: [None.attr] is an AttributeError. *)
Definition deref (r : pyref) : M Node :=
  fun t =>
    match r with
    | None => (Raise AttributeError, t)
    | Some n => match heap t !! n with
                | Some nd => (Ok nd, t)
                | None => (Dangling, t)
                end
    end.

(** Attribute assignment [r.attr = v], as a function on the record. *)
Definition assign (r : pyref) (f : Node -> Node) : M unit :=
  fun t =>
    match r with
    | None => (Raise AttributeError, t)
    | Some n => match heap t !! n with
                | Some nd => (Ok tt, with_heap (<[n := f nd]> (heap t)) t)
                | None => (Dangling, t)
                end
    end.

(** [Node(char)]: a fresh object, identified by its index in the store. *)
Definition new_Node (c : ascii) : M nat :=
  fun t => (Ok (length (heap t)), with_heap (heap t ++ [Node_init c]) t).

(** [r.links[index]] *)
Definition get_link (r : pyref) (index : Z) : M pyref :=
  nd <- deref r ;;
  match py_pos (length (links nd)) index with
  | Some j => match links nd !! j with
              | Some v => ret v
              | None => raise IndexError
              end
  | None => raise IndexError
  end.

(** [r.links[index] = v] *)
Definition set_link (r : pyref) (index : Z) (v : pyref) : M unit :=
  nd <- deref r ;;
  match py_pos (length (links nd)) index with
  | Some j => assign r (fun nd => with_links (<[j := v]> (links nd)) nd)
  | None => raise IndexError
  end.

Definition get_root : M pyref := fun t => (Ok (Some (root t)), t).
Definition set_root (r : nat) : M unit :=
  fun t => (Ok tt, with_root r t).
Definition set_ntu (l : option (list pyref)) : M unit :=
  fun t => (Ok tt, with_ntu l t).

(** [self.nodes_to_update.append(r)] *)
Definition ntu_append (r : pyref) : M unit :=
  fun t =>
    match nodes_to_update t with
    | Some l => (Ok tt, with_ntu (Some (l ++ [r])) t)
    | None => (Raise AttributeError, t)
    end.

(** [len(self.nodes_to_update)] *)
Definition ntu_len : M nat :=
  fun t =>
    match nodes_to_update t with
    | Some l => (Ok (length l), t)
    | None => (Raise TypeError, t)
    end.

(** [self.nodes_to_update[i]] *)
Definition ntu_at (i : Z) : M pyref :=
  fun t =>
    match nodes_to_update t with
    | Some l => match py_pos (length l) i with
                | Some j => match l !! j with
                            | Some r => (Ok r, t)
                            | None => (Raise IndexError, t)
                            end
                | None => (Raise IndexError, t)
                end
    | None => (Raise TypeError, t)
    end.

(** [for x in l: body(x)] *)
Fixpoint for_each {A} (l : list A) (body : A -> M unit) : M unit :=
  match l with
  | [] => ret tt
  | x :: l' => body x ;; for_each l' body
  end.

(** [for i in range(n): body(i)] *)
Definition for_range (n : nat) (body : nat -> M unit) : M unit :=
  for_each (seq 0 n) body.

(** ** class CatsTrie *)

(** [ord(char) - 97 + 1] *)
Definition index_of (c : ascii) : Z := (Z.of_nat (nat_of_ascii c) - 97 + 1)%Z.

(** Comparison of one-character strings, by code point. *)
Definition char_ltb (a b : ascii) : bool := nat_of_ascii a <? nat_of_ascii b.

(** The loop [for char in sentence] of [insert_iterative]; returns the
    value of [current_node] after the loop. *)
Fixpoint insert_loop (sentence : str) (current_node : pyref) : M pyref :=
  match sentence with
  | [] => ret current_node
  | c :: rest =>
      let index := index_of c in
      child <- get_link current_node index ;;
      match child with
      | None => fresh <- new_Node c ;; set_link current_node index (Some fresh)
      | Some _ => ret tt
      end ;;
      ntu_append current_node ;;
      next <- get_link current_node index ;;
      insert_loop rest next
  end.

(** The first loop of [update_nodes]: newly created nodes get their only
    child as best child. *)
Definition init_body (i : nat) : M unit :=
  node <- ntu_at (Z.of_nat i) ;;
  nd <- deref node ;;
  match best_child nd with
  | None =>
      nxt <- ntu_at (Z.of_nat i + 1) ;;
      assign node (with_best_child nxt) ;;
      last <- ntu_at (-1) ;;
      lnd <- deref last ;;
      assign node (with_word_freq (word_freq lnd))
  | Some _ => ret tt
  end.

(** The second loop of [update_nodes]. *)
Definition compare_body (inserted_word_freq : nat) (i : nat) : M unit :=
  node <- ntu_at (Z.of_nat i) ;;
  new_child <- ntu_at (Z.of_nat i + 1) ;;
  nd <- deref node ;;
  b <- deref (best_child nd) ;;
  if word_freq b <? inserted_word_freq then
    assign node (with_best_child new_child) ;;
    assign node (with_word_freq inserted_word_freq)
  else
    nd <- deref node ;;
    b <- deref (best_child nd) ;;
    if inserted_word_freq =? word_freq b then
      nc <- deref new_child ;;
      nd <- deref node ;;
      b <- deref (best_child nd) ;;
      if char_ltb (char nc) (char b) then
        assign node (with_best_child new_child)
      else ret tt
    else ret tt.

(** The last statement of [update_nodes]. *)
Definition fixup_last (inserted_word_freq : nat) : M unit :=
  last2 <- ntu_at (-2) ;;
  nd <- deref last2 ;;
  if word_freq nd <? inserted_word_freq then
    last2 <- ntu_at (-2) ;;
    assign last2 (with_word_freq inserted_word_freq)
  else ret tt.

Definition update_nodes : M unit :=
  n <- ntu_len ;;
  for_range (n - 1) init_body ;;
  last <- ntu_at (-1) ;;
  lnd <- deref last ;;
  let inserted_word_freq := word_freq lnd in
  n <- ntu_len ;;
  for_range (n - 1) (compare_body inserted_word_freq) ;;
  fixup_last inserted_word_freq.

(** [insert_iterative] up to the call of [update_nodes]. *)
Definition insert_path (sentence : str) : M unit :=
  set_ntu (Some []) ;;
  r <- get_root ;;
  current_node <- insert_loop sentence r ;;
  ntu_append current_node ;;
  term <- get_link current_node 0 ;;
  match term with
  | None => fresh <- new_Node "$"%char ;; set_link current_node 0 (Some fresh)
  | Some _ => ret tt
  end ;;
  terminal_node <- get_link current_node 0 ;;
  tnd <- deref terminal_node ;;
  assign terminal_node (with_word_freq (word_freq tnd + 1)) ;;
  assign terminal_node (with_word (Some sentence)) ;;
  ntu_append terminal_node.

Definition insert_iterative (sentence : str) : M unit :=
  insert_path sentence ;;
  update_nodes.

(** CatsTrie.__init__ *)
Definition CatsTrie_init (sentences : list str) : M unit :=
  r <- new_Node "R"%char ;;
  set_root r ;;
  set_ntu None ;;
  for_each sentences insert_iterative.

(** The store before the constructor runs. *)
Definition no_objects : CatsTrie :=
  {| heap := []; root := 0; nodes_to_update := None |}.

(** [CatsTrie(sentences)] *)
Definition CatsTrie_new (sentences : list str) : outcome unit * CatsTrie :=
  CatsTrie_init sentences no_objects.

(** The loop [for char in prompt] of [autoComplete]: [None] is the early
    [return None], otherwise the value of [node] after the loop. *)
Fixpoint prompt_loop (prompt : str) (node : pyref) : M (option pyref) :=
  match prompt with
  | [] => ret (Some node)
  | c :: rest =>
      child <- get_link node (index_of c) ;;
      match child with
      | None => ret None
      | Some _ => prompt_loop rest child
      end
  end.

(** The loop [while current.char != '$'] of [autoComplete]; the body runs
    at most [fuel] times. *)
Fixpoint best_loop (fuel : nat) (current : pyref) {struct fuel} : M pyref :=
  nd <- deref current ;;
  if Ascii.eqb (char nd) "$"%char then ret current
  else match fuel with
       | 0 => out_of_fuel
       | S fuel' => best_loop fuel' (best_child nd)
       end.

(** [autoComplete(prompt)]; the Python result is [None] or a string. *)
Definition autoComplete (fuel : nat) (prompt : str) : M (option str) :=
  r <- get_root ;;
  node <- prompt_loop prompt r ;;
  match node with
  | None => ret None
  | Some node =>
      nd <- deref node ;;
      current <- best_loop fuel (best_child nd) ;;
      tnd <- deref current ;;
      ret (word tnd)
  end.


(** ** Specification vocabulary *)

(** The corpus alphabet, and the contract of [insert_iterative]. *)
Definition is_lower (c : ascii) : bool :=
  (97 <=? nat_of_ascii c) && (nat_of_ascii c <=? 122).
Definition lowercase (s : str) : Prop := Forall (fun c => is_lower c = true) s.
Definition sentence_ok (s : str) : Prop := s <> [] /\ lowercase s.

(** Python's [<] on strings. *)
Fixpoint str_ltb (a b : str) : bool :=
  match a, b with
  | _, [] => false
  | [], _ :: _ => true
  | x :: a', y :: b' =>
      if char_ltb x y then true
      else if char_ltb y x then false
      else str_ltb a' b'
  end.

(** How often a sentence was inserted. *)
Definition occ (L : list str) (s : str) : nat :=
  length (filter (fun x => x = s) L).

(** One more occurrence of [s]. *)
Definition bump (cnt : str -> nat) (s : str) : str -> nat :=
  fun x => if decide (x = s) then S (cnt x) else cnt x.

(** [a] is at least as good a completion as [b]: more frequent, or as
    frequent and not lexicographically larger. *)
Definition beats (cnt : str -> nat) (a b : str) : Prop :=
  cnt b < cnt a \/ (cnt a = cnt b /\ str_ltb b a = false).

(** [t] is the best completion of [p]. *)
Definition best_of (cnt : str -> nat) (p t : str) : Prop :=
  0 < cnt t /\ p `prefix_of` t /\
  forall t', 0 < cnt t' -> p `prefix_of` t' -> beats cnt t t'.

(** Slot of a letter in [links]; slot 0 is the terminal. *)
Definition slot (c : ascii) : nat := nat_of_ascii c - 96.
Definition addr (p : str) : list nat := map slot p.

(** The child of node [n] in slot [j]. *)
Definition child (h : list Node) (n j : nat) : option nat :=
  match h !! n with
  | Some nd => match links nd !! j with
               | Some (Some m) => Some m
               | _ => None
               end
  | None => None
  end.

(** Following links from [n] along a list of slots. *)
Fixpoint walk (h : list Node) (n : nat) (path : list nat) : option nat :=
  match path with
  | [] => Some n
  | j :: path' => match child h n j with
                  | Some m => walk h m path'
                  | None => None
                  end
  end.

(** The node spelled by [p] from the root, and the terminal below it. *)
Definition node_at (h : list Node) (p : str) : option nat := walk h 0 (addr p).
Definition terminal_at (h : list Node) (p : str) : option nat :=
  walk h 0 (addr p ++ [0]).

(** Following [best_child] [k] times. *)
Fixpoint follow_best (h : list Node) (k : nat) (n : nat) : option nat :=
  match k with
  | 0 => Some n
  | S k' => match h !! n with
            | Some nd => match best_child nd with
                         | Some m => follow_best h k' m
                         | None => None
                         end
            | None => None
            end
  end.

(** The slot in which the path to [t] leaves the node spelled by [p]. *)
Definition next_slot (p t : str) : nat :=
  match drop (length p) t with
  | [] => 0
  | c :: _ => slot c
  end.

(** The character of the child through which the path to [t] leaves the
    node spelled by [p]. *)
Definition next_char (p t : str) : ascii :=
  match drop (length p) t with
  | [] => "$"%char
  | c :: _ => c
  end.

(** The nodes visited when following links from [n] along a list of
    slots, [n] included. *)
Fixpoint trace (h : list Node) (n : nat) (path : list nat) : option (list nat) :=
  match path with
  | [] => Some [n]
  | j :: path' =>
      match child h n j with
      | Some m => match trace h m path' with
                  | Some l => Some (n :: l)
                  | None => None
                  end
      | None => None
      end
  end.

(** The character of the node spelled by [p]. *)
Definition node_char (p : str) : ascii := default "R"%char (last p).

(** *** The store invariant *)

(** The store is a tree: links go to younger objects and no object has
    two parents. *)
Record WF (h : list Node) : Prop := {
  wf_root : 0 < length h;
  wf_links : forall n nd, h !! n = Some nd -> length (links nd) = 27;
  wf_up : forall n j m, child h n j = Some m -> n < m < length h;
  wf_inj : forall n n' j j' m,
      child h n j = Some m -> child h n' j' = Some m -> n = n' /\ j = j'
}.

(** The shape of the trie for occurrence counts [cnt], with the path [x]
    already present: which nodes exist, and what the terminals hold. *)
Record Shape (h : list Node) (cnt : str -> nat) (x : str) : Prop := {
  sh_lower : forall s, 0 < cnt s -> lowercase s;
  sh_exists : forall p, lowercase p ->
      (is_Some (node_at h p) <->
       p = [] \/ (exists s, 0 < cnt s /\ p `prefix_of` s) \/ p `prefix_of` x);
  sh_inner : forall p n nd, lowercase p ->
      node_at h p = Some n -> h !! n = Some nd ->
      char nd = node_char p /\ word nd = None /\
      (is_Some (child h n 0) <-> 0 < cnt p);
  sh_terminal : forall p m nd, lowercase p ->
      terminal_at h p = Some m -> h !! m = Some nd ->
      nd = {| links := replicate 27 None; char := "$"; word := Some p;
              word_freq := cnt p; best_child := None |}
}.

(** The cache of one inner node, spelled by [p], is right for [cnt]. *)
Definition cache_ok (cnt : str -> nat) (p : str) (nd : Node) : Prop :=
  ((forall t, p `prefix_of` t -> cnt t = 0) /\
   best_child nd = None /\ word_freq nd = 0)
  \/
  (exists t m, best_of cnt p t /\ word_freq nd = cnt t /\
               best_child nd = Some m /\
               links nd !! next_slot p t = Some (Some m)).

Definition Cached (h : list Node) (cnt : str -> nat) : Prop :=
  forall p n nd, lowercase p -> node_at h p = Some n -> h !! n = Some nd ->
                 cache_ok cnt p nd.

(** ** The cache repair, as a function on the store *)

(** Consecutive pairs of the path list. *)
Fixpoint pairs (P : list nat) : list (nat * nat) :=
  match P with
  | a :: (b :: _) as P' => (a, b) :: pairs P'
  | _ => []
  end.

(** One pass over a list of pairs; undefined when a step is. *)
Fixpoint run_pairs (step : list Node -> nat * nat -> option (list Node))
    (prs : list (nat * nat)) (h : list Node) : option (list Node) :=
  match prs with
  | [] => Some h
  | pr :: prs' => match step h pr with
                  | Some h' => run_pairs step prs' h'
                  | None => None
                  end
  end.

(** Initialization pass, on one pair: a node without best child gets the
    next node of the path and the count of the terminal. *)
Definition seed_pair (term : nat) (h : list Node) (pr : nat * nat)
    : option (list Node) :=
  match h !! pr.1 with
  | Some nd =>
      match best_child nd with
      | Some _ => Some h
      | None =>
          match h !! term with
          | Some tnd =>
              Some (<[pr.1 := with_word_freq (word_freq tnd)
                                (with_best_child (Some pr.2) nd)]> h)
          | None => None
          end
      end
  | None => None
  end.

(** Comparison pass, on one pair. *)
Definition compare_pair (f : nat) (h : list Node) (pr : nat * nat)
    : option (list Node) :=
  match h !! pr.1 with
  | Some nd =>
      match best_child nd with
      | Some bc =>
          match h !! bc with
          | Some bnd =>
              if word_freq bnd <? f then
                Some (<[pr.1 := with_word_freq f (with_best_child (Some pr.2) nd)]> h)
              else if f =? word_freq bnd then
                match h !! pr.2 with
                | Some cnd =>
                    if char_ltb (char cnd) (char bnd)
                    then Some (<[pr.1 := with_best_child (Some pr.2) nd]> h)
                    else Some h
                | None => None
                end
              else Some h
          | None => None
          end
      | None => None
      end
  | None => None
  end.

(** Fixup of the parent of the terminal. *)
Definition fixup (f : nat) (h : list Node) (pk : nat) : option (list Node) :=
  match h !! pk with
  | Some nd => if word_freq nd <? f then Some (<[pk := with_word_freq f nd]> h)
               else Some h
  | None => None
  end.

(** The three steps in sequence; [compared] selects the pairs of the
    comparison pass. *)
Definition repair (compared : list nat -> list (nat * nat))
    (h : list Node) (P : list nat) : option (list Node) :=
  match last P, last (removelast P) with
  | Some term, Some pk =>
      match run_pairs (seed_pair term) (pairs P) h with
      | Some h1 =>
          match h1 !! term with
          | Some tnd =>
              match run_pairs (compare_pair (word_freq tnd)) (compared P) h1 with
              | Some h2 => fixup (word_freq tnd) h2 pk
              | None => None
              end
          | None => None
          end
      | None => None
      end
  | _, _ => None
  end.

(** The repair with the comparison pass on every pair of the path. *)
Definition repair_all : list Node -> list nat -> option (list Node) :=
  repair pairs.

(** The repair with the comparison pass on the pairs [(P[i], P[i+1])] for
    [i] from 0 to [k-1] only, leaving out the pair of the terminal. *)
Definition repair_without_terminal_pair
    : list Node -> list nat -> option (list Node) :=
  repair (fun P => removelast (pairs P)).


(** *** Elementary changes of the store *)

(** A fresh node for character [c], linked in slot [j] of node [n]. *)
Definition add_child (h : list Node) (n j : nat) (c : ascii) : list Node :=
  match h !! n with
  | Some nd =>
      <[n := with_links (<[j := Some (length h)]> (links nd)) nd]>
        (h ++ [Node_init c])
  | None => h
  end.

(** Two stores with the same objects and the same links. *)
Definition same_links (h h' : list Node) : Prop :=
  forall n, links <$> (h !! n) = links <$> (h' !! n).

(** *** The repair, node by node *)

(** What the initialization pass does to one node of the path, [c] being
    the next node and [f] the count of the terminal. *)
Definition seeded (f c : nat) (nd : Node) : Node :=
  match best_child nd with
  | None => with_word_freq f (with_best_child (Some c) nd)
  | Some _ => nd
  end.

(** What the comparison pass does to one node of the path; [bfreq] and
    [bchar] are read from its best child, [cchar] from the next node. *)
Definition compared (f c : nat) (cchar : ascii) (bfreq : nat) (bchar : ascii)
    (nd : Node) : Node :=
  if bfreq <? f then with_word_freq f (with_best_child (Some c) nd)
  else if (f =? bfreq) && char_ltb cchar bchar then with_best_child (Some c) nd
  else nd.

(** What the fixup does to the parent of the terminal. *)
Definition fixed (f : nat) (nd : Node) : Node :=
  if word_freq nd <? f then with_word_freq f nd else nd.

(** The cache of a node on the path of [s] after the initialization pass:
    either the node is new and points down the path, or it still holds
    the best completion for the counts before the insertion. *)
Definition seed_ok (cnt : str -> nat) (s p : str) (nd : Node) : Prop :=
  ((forall t, p `prefix_of` t -> cnt t = 0) /\
   word_freq nd = S (cnt s) /\
   exists c, best_child nd = Some c /\
             links nd !! next_slot p s = Some (Some c))
  \/
  (exists t m, best_of cnt p t /\ word_freq nd = cnt t /\
               best_child nd = Some m /\
               links nd !! next_slot p t = Some (Some m)).

Definition Seeded (h : list Node) (cnt : str -> nat) (s : str) : Prop :=
  forall p n nd, lowercase p -> node_at h p = Some n -> h !! n = Some nd ->
    (p `prefix_of` s -> seed_ok cnt s p nd) /\
    (~ p `prefix_of` s -> cache_ok cnt p nd).

(** *** Built tries *)

(** A string literal as a Python [str]. *)
Definition lit (s : string) : str := list_ascii_of_string s.

(** The store represents the corpus [L]. *)
Definition Represents (t : CatsTrie) (L : list str) : Prop :=
  root t = 0 /\ WF (heap t) /\ Shape (heap t) (occ L) [] /\ Cached (heap t) (occ L).

(** The state after a sequence of queries, each with its loop bound. *)
Definition after_queries (qs : list (nat * str)) (t : CatsTrie) : CatsTrie :=
  foldl (fun t q => snd (autoComplete q.1 q.2 t)) t qs.

(** The trie object that [CatsTrie(sentences)] leaves behind. *)
Definition trie_of (sentences : list str) : CatsTrie :=
  snd (CatsTrie_new sentences).

(** *** Tries up to the identity of their nodes *)

(** The slot of the best child among the links of a node. *)
Definition best_slot (nd : Node) : option nat :=
  match best_child nd with
  | Some m => fst <$> list_find (fun l => l = Some m) (links nd)
  | None => None
  end.

(** What a node holds, with references replaced by the slots they
    occupy: character, word, count, occupied slots, slot of the best
    child. *)
Definition node_view (nd : Node)
    : ascii * option str * nat * list bool * option nat :=
  (char nd, word nd, word_freq nd,
   (fun l : pyref => bool_decide (is_Some l)) <$> links nd,
   best_slot nd).

(** The view of the node reached from the root along a list of slots. *)
Definition view_at (t : CatsTrie) (path : list nat)
    : option (ascii * option str * nat * list bool * option nat) :=
  match walk (heap t) (root t) path with
  | Some n => node_view <$> (heap t !! n)
  | None => None
  end.

(** Two nodes of two stores at the same place. *)
Definition same_place (h1 h2 : list Node) (n1 n2 : nat) : Prop :=
  exists path, walk h1 0 path = Some n1 /\ walk h2 0 path = Some n2.

Definition ref_sim (h1 h2 : list Node) (r1 r2 : pyref) : Prop :=
  match r1, r2 with
  | Some n1, Some n2 => same_place h1 h2 n1 n2
  | None, None => True
  | _, _ => False
  end.

(** Outcomes that agree up to a relation on the results. *)
Definition out_sim {A B} (R : A -> B -> Prop)
    (o1 : outcome A) (o2 : outcome B) : Prop :=
  match o1, o2 with
  | Ok a, Ok b => R a b
  | Raise e1, Raise e2 => e1 = e2
  | Dangling, Dangling => True
  | OutOfFuel, OutOfFuel => True
  | _, _ => False
  end.

Definition opt_sim {A B} (R : A -> B -> Prop) (o1 : option A) (o2 : option B)
    : Prop :=
  match o1, o2 with
  | Some a, Some b => R a b
  | None, None => True
  | _, _ => False
  end.

(** Two related references denote nodes at the same place. *)
Definition node_rel (h1 h2 : list Node) (r1 r2 : pyref) (nd1 nd2 : Node)
    : Prop :=
  exists n1 n2, r1 = Some n1 /\ r2 = Some n2 /\
                h1 !! n1 = Some nd1 /\ h2 !! n2 = Some nd2 /\
                same_place h1 h2 n1 n2.

(** An outcome that is not a normal return. *)
Definition fails {A} (o : outcome A * CatsTrie) : Prop :=
  forall a, fst o <> Ok a.

(** *** The state before and after a call *)

(** A computation keeps the relation [R] between the state it starts in
    and the state it leaves, whatever its outcome. *)
Definition keeps {A} (R : CatsTrie -> CatsTrie -> Prop) (m : M A) : Prop :=
  forall t, R t (snd (m t)).

(** [t'] differs from [t] in the caches ([best_child], [word_freq]) only. *)
Definition cache_only (t t' : CatsTrie) : Prop :=
  root t' = root t /\ nodes_to_update t' = nodes_to_update t /\
  length (heap t') = length (heap t) /\
  forall n nd, heap t !! n = Some nd ->
    exists nd', heap t' !! n = Some nd' /\ links nd' = links nd /\
                char nd' = char nd /\ word nd' = word nd.

(** [t'] holds the objects of [t] and at most [k] more; every object has
    kept its character and the links that were set. *)
Definition grown (k : nat) (t t' : CatsTrie) : Prop :=
  root t' = root t /\
  length (heap t) <= length (heap t') <= length (heap t) + k /\
  forall n nd, heap t !! n = Some nd ->
    exists nd', heap t' !! n = Some nd' /\ char nd' = char nd /\
                length (links nd') = length (links nd) /\
                forall j m, links nd !! j = Some (Some m) ->
                            links nd' !! j = Some (Some m).

(** *** Characters outside the alphabet *)

(** The letter read in place of a character whose index is negative:
    [links[i]] with [-26 <= i <= -1] is [links[i + 27]]. *)
Definition wrapped (c : ascii) : ascii :=
  if (70 <=? nat_of_ascii c) && (nat_of_ascii c <=? 95)
  then ascii_of_nat (nat_of_ascii c + 27) else c.

(** *** The nodes of a built trie *)

(** Every object of the store is reachable from the root. *)
Definition Reachable (h : list Node) : Prop :=
  forall n, n < length h -> exists path, walk h 0 path = Some n.

(** The prefixes of a sentence, from the empty one to the sentence. *)
Definition prefixes_of (s : str) : list str :=
  (fun i => take i s) <$> seq 0 (S (length s)).

(** The paths of slots that lead to the nodes of the trie for [L]: one
    for each distinct prefix of a sentence, one for the terminal of each
    distinct sentence. *)
Definition node_paths (L : list str) : list (list nat) :=
  (addr <$> remove_dups ([] :: (L ≫= prefixes_of)))
  ++ ((fun s => addr s ++ [0]) <$> remove_dups L).

(** ** Running the primitives *)

Lemma bind_eq {A B} (m : M A) (k : A -> M B) t a t' :
  m t = (Ok a, t') -> bind m k t = k a t'.
Proof. intros H. unfold bind. by rewrite H. Qed.

Lemma bind_fail {A B} (m : M A) (k : A -> M B) t :
  (forall a, fst (m t) <> Ok a) -> forall b, fst (bind m k t) <> Ok b.
Proof.
  intros H b. unfold bind. destruct (m t) as [[a| | |] t'] eqn:E; simpl; try done.
  exfalso. by apply (H a).
Qed.

Lemma bind_inv {A B} (m : M A) (k : A -> M B) t b t'' :
  bind m k t = (Ok b, t'') ->
  exists a t', m t = (Ok a, t') /\ k a t' = (Ok b, t'').
Proof.
  unfold bind. destruct (m t) as [[a| | |] t'] eqn:E; try done. eauto.
Qed.

Lemma py_pos_nat len i : i < len -> py_pos len (Z.of_nat i) = Some i.
Proof.
  intros H. unfold py_pos.
  destruct (Z.leb_spec 0 (Z.of_nat i)); [|lia].
  destruct (Z.ltb_spec (Z.of_nat i) (Z.of_nat len)); [|lia].
  by rewrite Nat2Z.id.
Qed.

Lemma py_pos_succ len i : i + 1 < len -> py_pos len (Z.of_nat i + 1) = Some (i + 1).
Proof.
  intros H. replace (Z.of_nat i + 1)%Z with (Z.of_nat (i + 1)) by lia.
  by apply py_pos_nat.
Qed.

Lemma py_pos_neg len k :
  0 < k <= len -> py_pos len (- Z.of_nat k) = Some (len - k).
Proof.
  intros H. unfold py_pos.
  destruct (Z.leb_spec 0 (- Z.of_nat k)); [lia|].
  destruct (Z.leb_spec (- Z.of_nat len) (- Z.of_nat k)); [|lia].
  f_equal. lia.
Qed.

Lemma py_pos_Some len i j : py_pos len i = Some j -> j < len.
Proof.
  unfold py_pos. repeat case_match; intros ?; simplify_eq; lia.
Qed.

Lemma deref_eq h r ntu n nd :
  h !! n = Some nd ->
  deref (Some n) (mkTrie h r ntu) = (Ok nd, mkTrie h r ntu).
Proof. intros H. unfold deref. simpl. by rewrite H. Qed.

Lemma assign_eq h r ntu n nd f :
  h !! n = Some nd ->
  assign (Some n) f (mkTrie h r ntu) = (Ok tt, mkTrie (<[n := f nd]> h) r ntu).
Proof. intros H. unfold assign. simpl. by rewrite H. Qed.

Lemma ntu_at_eq h r (P : list pyref) i j v :
  py_pos (length P) i = Some j -> P !! j = Some v ->
  ntu_at i (mkTrie h r (Some P)) = (Ok v, mkTrie h r (Some P)).
Proof. intros H1 H2. unfold ntu_at. simpl. by rewrite H1, H2. Qed.

Lemma ntu_at_ids h r (ids : list nat) i a :
  ids !! i = Some a ->
  ntu_at (Z.of_nat i) (mkTrie h r (Some (Some <$> ids)))
  = (Ok (Some a), mkTrie h r (Some (Some <$> ids))).
Proof.
  intros H. apply ntu_at_eq with i.
  - apply py_pos_nat. rewrite length_fmap. by eapply lookup_lt_Some.
  - by rewrite list_lookup_fmap, H.
Qed.

Lemma ntu_at_ids_succ h r (ids : list nat) i a :
  ids !! (i + 1) = Some a ->
  ntu_at (Z.of_nat i + 1) (mkTrie h r (Some (Some <$> ids)))
  = (Ok (Some a), mkTrie h r (Some (Some <$> ids))).
Proof.
  intros H. replace (Z.of_nat i + 1)%Z with (Z.of_nat (i + 1)) by lia.
  by apply ntu_at_ids.
Qed.

Lemma last_lookup_pred {A} (l : list A) x :
  last l = Some x -> 0 < length l /\ l !! (length l - 1) = Some x.
Proof.
  rewrite last_lookup. intros H. split.
  - destruct l; simpl in *; [done | lia].
  - by replace (length l - 1) with (pred (length l)) by lia.
Qed.

Lemma ntu_at_last h r (ids : list nat) a :
  last ids = Some a ->
  ntu_at (-1) (mkTrie h r (Some (Some <$> ids)))
  = (Ok (Some a), mkTrie h r (Some (Some <$> ids))).
Proof.
  intros [Hl H]%last_lookup_pred. apply ntu_at_eq with (length ids - 1).
  - rewrite length_fmap. apply (py_pos_neg _ 1). lia.
  - by rewrite list_lookup_fmap, H.
Qed.

Lemma last_removelast_lookup {A} (l : list A) x :
  last (removelast l) = Some x -> 1 < length l /\ l !! (length l - 2) = Some x.
Proof.
  destruct l as [|y l _] using rev_ind; [done|].
  rewrite removelast_last. intros [Hl H]%last_lookup_pred.
  rewrite length_app. simpl. split; [lia|].
  rewrite lookup_app_l by lia. rewrite <- H. f_equal. lia.
Qed.

Lemma ntu_at_last2 h r (ids : list nat) a :
  last (removelast ids) = Some a ->
  ntu_at (-2) (mkTrie h r (Some (Some <$> ids)))
  = (Ok (Some a), mkTrie h r (Some (Some <$> ids))).
Proof.
  intros [Hl H]%last_removelast_lookup. apply ntu_at_eq with (length ids - 2).
  - rewrite length_fmap. apply (py_pos_neg _ 2). lia.
  - by rewrite list_lookup_fmap, H.
Qed.

Lemma ntu_len_ids h r (ids : list nat) :
  ntu_len (mkTrie h r (Some (Some <$> ids)))
  = (Ok (length ids), mkTrie h r (Some (Some <$> ids))).
Proof. unfold ntu_len. simpl. by rewrite length_fmap. Qed.

(** ** [update_nodes] computes [repair_all] *)

Lemma init_body_seed h r ids i a b term h' :
  ids !! i = Some a -> ids !! (i + 1) = Some b -> last ids = Some term ->
  seed_pair term h (a, b) = Some h' ->
  init_body i (mkTrie h r (Some (Some <$> ids)))
  = (Ok tt, mkTrie h' r (Some (Some <$> ids))).
Proof.
  intros Ha Hb Hl Hs. unfold seed_pair in Hs. simpl in Hs.
  destruct (h !! a) as [nd|] eqn:Hnd; [|done].
  unfold init_body.
  erewrite bind_eq by (by apply ntu_at_ids).
  erewrite bind_eq by (by apply deref_eq).
  destruct (best_child nd) as [bc|] eqn:Hbc.
  { by simplify_eq. }
  destruct (h !! term) as [tnd|] eqn:Ht; [|done]. simplify_eq.
  erewrite bind_eq by (by apply ntu_at_ids_succ).
  erewrite bind_eq by (by apply assign_eq).
  erewrite bind_eq by (by apply ntu_at_last).
  assert (Hlt : a < length h) by (by eapply lookup_lt_Some).
  destruct (decide (term = a)) as [->|Hne].
  - erewrite bind_eq by (apply deref_eq; by apply list_lookup_insert_eq).
    erewrite assign_eq by (by apply list_lookup_insert_eq).
    rewrite list_insert_insert_eq. by simplify_eq.
  - erewrite bind_eq by (apply deref_eq; by rewrite list_lookup_insert_ne).
    erewrite assign_eq by (by apply list_lookup_insert_eq).
    by rewrite list_insert_insert_eq.
Qed.

Lemma compare_body_pair f h r ids i a b h' :
  ids !! i = Some a -> ids !! (i + 1) = Some b ->
  compare_pair f h (a, b) = Some h' ->
  compare_body f i (mkTrie h r (Some (Some <$> ids)))
  = (Ok tt, mkTrie h' r (Some (Some <$> ids))).
Proof.
  intros Ha Hb Hs. unfold compare_pair in Hs. simpl in Hs.
  destruct (h !! a) as [nd|] eqn:Hnd; [|done].
  destruct (best_child nd) as [bc|] eqn:Hbc; [|done].
  destruct (h !! bc) as [bnd|] eqn:Hbnd; [|done].
  unfold compare_body.
  erewrite bind_eq by (by apply ntu_at_ids).
  erewrite bind_eq by (by apply ntu_at_ids_succ).
  erewrite bind_eq by (by apply deref_eq).
  rewrite Hbc.
  erewrite bind_eq by (by apply deref_eq).
  assert (Hlt : a < length h) by (by eapply lookup_lt_Some).
  destruct (word_freq bnd <? f) eqn:Hlt1.
  - simplify_eq.
    erewrite bind_eq by (by apply assign_eq).
    erewrite assign_eq by (by apply list_lookup_insert_eq).
    by rewrite list_insert_insert_eq.
  - erewrite bind_eq by (by apply deref_eq). rewrite Hbc.
    erewrite bind_eq by (by apply deref_eq).
    destruct (f =? word_freq bnd) eqn:Heq; [|by simplify_eq].
    destruct (h !! b) as [cnd|] eqn:Hcnd; [|done].
    erewrite bind_eq by (by apply deref_eq).
    erewrite bind_eq by (by apply deref_eq). rewrite Hbc.
    erewrite bind_eq by (by apply deref_eq).
    destruct (char_ltb (char cnd) (char bnd)); simplify_eq; [|done].
    by erewrite assign_eq.
Qed.

Lemma fixup_last_eq f h r ids pk h' :
  last (removelast ids) = Some pk ->
  fixup f h pk = Some h' ->
  fixup_last f (mkTrie h r (Some (Some <$> ids)))
  = (Ok tt, mkTrie h' r (Some (Some <$> ids))).
Proof.
  intros Hl Hs. unfold fixup in Hs.
  destruct (h !! pk) as [nd|] eqn:Hnd; [|done].
  unfold fixup_last.
  erewrite bind_eq by (by apply ntu_at_last2).
  erewrite bind_eq by (by apply deref_eq).
  destruct (word_freq nd <? f); simplify_eq; [|done].
  erewrite bind_eq by (by apply ntu_at_last2).
  by erewrite assign_eq.
Qed.

Lemma pairs_lookup ids i a b :
  ids !! i = Some a -> ids !! (i + 1) = Some b -> pairs ids !! i = Some (a, b).
Proof.
  revert i. induction ids as [|x ids IH]; intros i Ha Hb; [done|].
  destruct ids as [|y ids].
  { destruct i; simpl in *; [done|]. by rewrite lookup_nil in Ha. }
  destruct i as [|i].
  - simpl in *. by simplify_eq.
  - change (pairs (x :: y :: ids)) with ((x, y) :: pairs (y :: ids)).
    simpl. apply IH; done.
Qed.

Lemma pairs_length ids : length (pairs ids) = length ids - 1.
Proof.
  induction ids as [|x ids IH]; [done|].
  destruct ids as [|y ids]; [done|].
  change (pairs (x :: y :: ids)) with ((x, y) :: pairs (y :: ids)).
  simpl in *. lia.
Qed.

Lemma pairs_lookup_inv ids i a b :
  pairs ids !! i = Some (a, b) -> ids !! i = Some a /\ ids !! (i + 1) = Some b.
Proof.
  revert i. induction ids as [|x ids IH]; intros i H; [done|].
  destruct ids as [|y ids]; [simpl in H; by rewrite lookup_nil in H|].
  change (pairs (x :: y :: ids)) with ((x, y) :: pairs (y :: ids)) in H.
  destruct i as [|i]; simpl in *.
  - by simplify_eq.
  - by apply IH.
Qed.

Lemma for_each_app {A} (l1 l2 : list A) body t :
  for_each (l1 ++ l2) body t = (for_each l1 body ;; for_each l2 body) t.
Proof.
  revert t. induction l1 as [|x l1 IH]; intros t; simpl.
  - done.
  - unfold bind in *. destruct (body x t) as [[[]| | |] t']; try done.
Qed.

(** A loop over indices whose body acts on the pair at that index. *)
Lemma for_range_pairs (body : nat -> M unit) step (prs : list (nat * nat)) r ntu :
  (forall i pr h0 h1, prs !! i = Some pr -> step h0 pr = Some h1 ->
      body i (mkTrie h0 r ntu) = (Ok tt, mkTrie h1 r ntu)) ->
  forall h h', run_pairs step prs h = Some h' ->
  for_range (length prs) body (mkTrie h r ntu) = (Ok tt, mkTrie h' r ntu).
Proof.
  intros Hbody. unfold for_range.
  induction prs as [|pr prs IH] using rev_ind; intros h h' Hrun.
  { simpl in *. by simplify_eq. }
  rewrite length_app. simpl. rewrite Nat.add_1_r, seq_S. simpl.
  rewrite for_each_app.
  assert (exists h1, run_pairs step prs h = Some h1 /\ step h1 pr = Some h')
    as (h1 & Hr1 & Hs).
  { clear -Hrun. revert h Hrun. induction prs as [|q prs IH]; intros h Hrun; simpl in *.
    - destruct (step h pr) eqn:E; [|done]. simplify_eq. eauto.
    - destruct (step h q); [|done]. by apply IH. }
  erewrite bind_eq.
  2:{ apply IH; [|done]. intros i q h0 h2 Hq Hq'. eapply Hbody; [|done].
      by rewrite lookup_app_l by (by eapply lookup_lt_Some). }
  simpl. erewrite bind_eq.
  2:{ eapply Hbody; [|done]. by rewrite list_lookup_middle. }
  done.
Qed.

Lemma update_nodes_repair h r ids h' :
  repair_all h ids = Some h' ->
  update_nodes (mkTrie h r (Some (Some <$> ids)))
  = (Ok tt, mkTrie h' r (Some (Some <$> ids))).
Proof.
  unfold repair_all, repair. intros H.
  destruct (last ids) as [term|] eqn:Hlast; [|done].
  destruct (last (removelast ids)) as [pk|] eqn:Hpk; [|done].
  destruct (run_pairs (seed_pair term) (pairs ids) h) as [h1|] eqn:H1; [|done].
  destruct (h1 !! term) as [tnd|] eqn:Htnd; [|done].
  destruct (run_pairs (compare_pair (word_freq tnd)) (pairs ids) h1) as [h2|] eqn:H2;
    [|done].
  unfold update_nodes.
  erewrite bind_eq by apply ntu_len_ids.
  rewrite <- pairs_length.
  erewrite bind_eq.
  2:{ eapply for_range_pairs; [|exact H1].
      intros i [a b] h0 h3 [Ha Hb]%pairs_lookup_inv Hs.
      by eapply init_body_seed. }
  erewrite bind_eq by (by apply ntu_at_last).
  erewrite bind_eq by (by apply deref_eq).
  erewrite bind_eq by apply ntu_len_ids.
  rewrite <- pairs_length.
  erewrite bind_eq.
  2:{ eapply for_range_pairs; [|exact H2].
      intros i [a b] h0 h3 [Ha Hb]%pairs_lookup_inv Hs.
      by eapply compare_body_pair. }
  by eapply fixup_last_eq.
Qed.

(** ** Links and walks *)

Lemma child_Some h n j m :
  child h n j = Some m <->
  exists nd, h !! n = Some nd /\ links nd !! j = Some (Some m).
Proof.
  unfold child. split.
  - destruct (h !! n) as [nd|]; [|done].
    destruct (links nd !! j) as [[m'|]|] eqn:E; try done.
    intros ?; simplify_eq. eauto.
  - intros (nd & -> & ->). done.
Qed.

Lemma walk_app h n p q :
  walk h n (p ++ q) = match walk h n p with
                      | Some m => walk h m q
                      | None => None
                      end.
Proof.
  revert n. induction p as [|j p IH]; intros n; simpl; [done|].
  destruct (child h n j); [apply IH | done].
Qed.

Lemma walk_snoc h n p j m :
  walk h n (p ++ [j]) = Some m <->
  exists b, walk h n p = Some b /\ child h b j = Some m.
Proof.
  rewrite walk_app. split.
  - destruct (walk h n p) as [b|]; [|done]. simpl.
    destruct (child h b j) eqn:E; [|done]. intros ?; simplify_eq. eauto.
  - intros (b & -> & Hc). simpl. by rewrite Hc.
Qed.

Lemma same_links_child h h' n j : same_links h h' -> child h' n j = child h n j.
Proof.
  intros H. specialize (H n). unfold child.
  destruct (h !! n) as [nd|], (h' !! n) as [nd'|]; simpl in H; simplify_eq; try done.
  by rewrite H.
Qed.

Lemma same_links_walk h h' n p : same_links h h' -> walk h' n p = walk h n p.
Proof.
  intros H. revert n. induction p as [|j p IH]; intros n; simpl; [done|].
  rewrite (same_links_child h h') by done.
  destruct (child h n j); [apply IH | done].
Qed.

Lemma same_links_length h h' : same_links h h' -> length h' = length h.
Proof.
  intros H.
  destruct (Nat.lt_trichotomy (length h) (length h')) as [Hlt|[Heq|Hlt]]; [|done|].
  - specialize (H (length h)).
    rewrite (lookup_ge_None_2 h) in H by lia.
    destruct (lookup_lt_is_Some_2 h' (length h) Hlt) as [x Hx].
    rewrite Hx in H. done.
  - specialize (H (length h')).
    rewrite (lookup_ge_None_2 h') in H by lia.
    destruct (lookup_lt_is_Some_2 h (length h') Hlt) as [x Hx].
    rewrite Hx in H. done.
Qed.

Lemma same_links_WF h h' : same_links h h' -> WF h -> WF h'.
Proof.
  intros H [W1 W2 W3 W4]. pose proof (same_links_length _ _ H) as Hlen.
  split.
  - lia.
  - intros n nd' Hn. specialize (H n). rewrite Hn in H.
    destruct (h !! n) as [nd|] eqn:E; simpl in H; [|done].
    simplify_eq. rewrite <- H. eauto.
  - intros n j m. rewrite (same_links_child h h'), Hlen by done. apply W3.
  - intros n n' j j' m. rewrite !(same_links_child h h') by done. apply W4.
Qed.

Lemma same_links_refl h : same_links h h.
Proof. done. Qed.

Lemma same_links_trans h1 h2 h3 :
  same_links h1 h2 -> same_links h2 h3 -> same_links h1 h3.
Proof. intros H1 H2 n. by rewrite H1. Qed.

Lemma same_links_insert h n nd nd' :
  h !! n = Some nd -> links nd' = links nd -> same_links h (<[n := nd']> h).
Proof.
  intros Hn Hl m. destruct (decide (m = n)) as [->|Hne].
  - rewrite list_lookup_insert_eq by (by eapply lookup_lt_Some).
    rewrite Hn. simpl. by rewrite Hl.
  - by rewrite list_lookup_insert_ne.
Qed.

(** The root has no parent, so a path determines its node and a node its
    path. *)
Lemma walk_inj h p q n :
  WF h -> walk h 0 p = Some n -> walk h 0 q = Some n -> p = q.
Proof.
  intros W. revert q n.
  induction p as [|j p IH] using rev_ind; intros q n Hp Hq.
  - simpl in Hp. simplify_eq.
    destruct q as [|i q _] using rev_ind; [done|].
    apply walk_snoc in Hq as (b & _ & Hc). apply (wf_up _ W) in Hc. lia.
  - apply walk_snoc in Hp as (b & Hb & Hc).
    destruct q as [|i q _] using rev_ind.
    + simpl in Hq. simplify_eq. apply (wf_up _ W) in Hc. lia.
    + apply walk_snoc in Hq as (b' & Hb' & Hc').
      destruct (wf_inj _ W _ _ _ _ _ Hc Hc') as [-> ->].
      by rewrite (IH q b').
Qed.

Lemma walk_lt h n p m : WF h -> n < length h -> walk h n p = Some m -> m < length h.
Proof.
  intros W. revert n. induction p as [|j p IH]; intros n Hn H; simpl in H.
  - by simplify_eq.
  - destruct (child h n j) as [b|] eqn:E; [|done].
    apply (wf_up _ W) in E. eapply IH; [|done]. lia.
Qed.

Lemma walk_ge h n p m : WF h -> walk h n p = Some m -> n <= m.
Proof.
  intros W. revert n. induction p as [|j p IH]; intros n H; simpl in H.
  - by simplify_eq.
  - destruct (child h n j) as [b|] eqn:E; [|done].
    apply (wf_up _ W) in E. apply IH in H. lia.
Qed.

Lemma walk_gt h n p m :
  WF h -> p <> [] -> walk h n p = Some m -> n < m.
Proof.
  intros W Hp H. destruct p as [|j p]; [done|]. simpl in H.
  destruct (child h n j) as [b|] eqn:E; [|done].
  apply (wf_up _ W) in E. apply (walk_ge _ _ _ _ W) in H. lia.
Qed.

(** *** Adding a child *)

Section add_child.
Context (h : list Node) (cur j : nat) (c : ascii) (nd : Node).
Hypothesis W : WF h.
Hypothesis Hcur : h !! cur = Some nd.
Hypothesis Hfree : links nd !! j = Some None.

Lemma add_child_eq :
  add_child h cur j c
  = <[cur := with_links (<[j := Some (length h)]> (links nd)) nd]>
      (h ++ [Node_init c]).
Proof. unfold add_child. by rewrite Hcur. Qed.

Lemma add_child_length : length (add_child h cur j c) = S (length h).
Proof. rewrite add_child_eq, length_insert, length_app. simpl. lia. Qed.

Lemma add_child_lookup_cur :
  add_child h cur j c !! cur
  = Some (with_links (<[j := Some (length h)]> (links nd)) nd).
Proof.
  rewrite add_child_eq. apply list_lookup_insert_eq.
  rewrite length_app. apply lookup_lt_Some in Hcur. lia.
Qed.

Lemma add_child_lookup_new :
  add_child h cur j c !! length h = Some (Node_init c).
Proof.
  rewrite add_child_eq. apply lookup_lt_Some in Hcur as Hlt.
  rewrite list_lookup_insert_ne by lia.
  by rewrite lookup_app_r, Nat.sub_diag by lia.
Qed.

Lemma add_child_lookup_old n :
  n <> cur -> n < length h -> add_child h cur j c !! n = h !! n.
Proof.
  intros Hne Hlt. rewrite add_child_eq.
  rewrite list_lookup_insert_ne by done. by rewrite lookup_app_l.
Qed.

Lemma add_child_lookup_ge n :
  length h < n -> add_child h cur j c !! n = None.
Proof.
  intros Hlt. apply lookup_ge_None_2. rewrite add_child_length. lia.
Qed.

Lemma child_add n i :
  child (add_child h cur j c) n i
  = if decide (n = cur /\ i = j) then Some (length h) else child h n i.
Proof.
  apply lookup_lt_Some in Hcur as Hlt.
  pose proof (wf_links _ W _ _ Hcur) as Hlen.
  assert (j < 27) by (rewrite <- Hlen; by eapply lookup_lt_Some).
  unfold child at 1.
  destruct (decide (n = cur)) as [->|Hne].
  - rewrite add_child_lookup_cur. simpl.
    destruct (decide (i = j)) as [->|Hij].
    + rewrite list_lookup_insert_eq by lia.
      by rewrite decide_True.
    + rewrite list_lookup_insert_ne by done.
      rewrite decide_False by tauto. unfold child. by rewrite Hcur.
  - rewrite decide_False by tauto.
    destruct (Nat.lt_trichotomy n (length h)) as [Hn|[->|Hn]].
    + rewrite add_child_lookup_old by done. done.
    + rewrite add_child_lookup_new.
      change (links (Node_init c)) with (replicate 27 (@None nat)).
      unfold child. rewrite (lookup_ge_None_2 h (length h)) by lia.
      destruct (replicate 27 (@None nat) !! i) as [x|] eqn:E; [|done].
      apply lookup_replicate in E as [-> _]. done.
    + rewrite add_child_lookup_ge by done.
      unfold child. by rewrite (lookup_ge_None_2 h n) by lia.
Qed.

Lemma child_add_old n i m :
  child h n i = Some m -> child (add_child h cur j c) n i = Some m.
Proof.
  intros H. rewrite child_add. case_decide as Hd; [|done].
  destruct Hd as [-> ->]. unfold child in H. rewrite Hcur, Hfree in H. done.
Qed.

Lemma add_child_WF : WF (add_child h cur j c).
Proof.
  apply lookup_lt_Some in Hcur as Hlt.
  split.
  - rewrite add_child_length. lia.
  - intros n nd' Hn.
    destruct (decide (n = cur)) as [->|Hne].
    { rewrite add_child_lookup_cur in Hn. simplify_eq. simpl.
      rewrite length_insert. by eapply wf_links. }
    destruct (Nat.lt_trichotomy n (length h)) as [Hn'|[->|Hn']].
    + rewrite add_child_lookup_old in Hn by done. by eapply wf_links.
    + rewrite add_child_lookup_new in Hn. simplify_eq.
      change (links (Node_init c)) with (replicate 27 (@None nat)).
      by rewrite length_replicate.
    + by rewrite add_child_lookup_ge in Hn.
  - intros n i m. rewrite child_add, add_child_length.
    case_decide as Hd.
    + destruct Hd as [-> ->]. intros ?; simplify_eq. lia.
    + intros Hc. apply (wf_up _ W) in Hc. lia.
  - intros n n' i i' m. rewrite !child_add.
    case_decide as Hd; case_decide as Hd'.
    + destruct Hd as [-> ->], Hd' as [-> ->]. done.
    + intros ? Hc; simplify_eq. apply (wf_up _ W) in Hc. lia.
    + intros Hc ?; simplify_eq. apply (wf_up _ W) in Hc. lia.
    + apply (wf_inj _ W).
Qed.

Lemma walk_add_old n p m :
  walk h n p = Some m -> walk (add_child h cur j c) n p = Some m.
Proof.
  revert n. induction p as [|i p IH]; intros n H; simpl in *; [done|].
  destruct (child h n i) as [b|] eqn:E; [|done].
  rewrite (child_add_old _ _ _ E). by apply IH.
Qed.

Lemma walk_add_new n p m :
  walk (add_child h cur j c) n p = Some m ->
  walk h n p = Some m \/
  (exists p1, p = p1 ++ [j] /\ walk h n p1 = Some cur /\ m = length h).
Proof.
  revert n. induction p as [|i p IH]; intros n H; simpl in *.
  { by left. }
  rewrite child_add in H. case_decide as Hd.
  - destruct Hd as [-> ->]. right. exists [].
    destruct p as [|i' p]; simpl in H.
    + by simplify_eq.
    + rewrite child_add in H. rewrite decide_False in H.
      2:{ intros [? _]. apply lookup_lt_Some in Hcur. lia. }
      unfold child in H. rewrite (lookup_ge_None_2 h (length h)) in H by lia.
      done.
  - destruct (child h n i) as [b|] eqn:E; [|done].
    destruct (IH _ H) as [Hw|(p1 & -> & Hw & ->)].
    + by left.
    + right. exists (i :: p1). simpl. by rewrite E.
Qed.
End add_child.

(** ** Characters, slots and the order on strings *)

Lemma is_lower_range c : is_lower c = true <-> 97 <= nat_of_ascii c <= 122.
Proof.
  unfold is_lower. rewrite andb_true_iff, !Nat.leb_le. done.
Qed.

Lemma slot_lower c : is_lower c = true -> 1 <= slot c <= 26.
Proof. rewrite is_lower_range. unfold slot. lia. Qed.

Lemma slot_inj c d :
  is_lower c = true -> is_lower d = true -> slot c = slot d -> c = d.
Proof.
  rewrite !is_lower_range. unfold slot. intros Hc Hd H.
  rewrite <- (ascii_nat_embedding c), <- (ascii_nat_embedding d).
  f_equal. lia.
Qed.

Lemma index_of_lower c :
  is_lower c = true -> py_pos 27 (index_of c) = Some (slot c).
Proof.
  rewrite is_lower_range. intros H.
  replace (index_of c) with (Z.of_nat (slot c)) by (unfold index_of, slot; lia).
  apply py_pos_nat. unfold slot. lia.
Qed.

Lemma lowercase_app x y : lowercase (x ++ y) <-> lowercase x /\ lowercase y.
Proof. apply (Forall_app (fun c => is_lower c = true)). Qed.

Lemma lowercase_cons c x : lowercase (c :: x) <-> is_lower c = true /\ lowercase x.
Proof. apply (Forall_cons (fun c => is_lower c = true)). Qed.

Lemma lowercase_snoc x c : lowercase x -> is_lower c = true -> lowercase (x ++ [c]).
Proof.
  intros Hx Hc. apply lowercase_app. split; [done|].
  apply lowercase_cons. split; [done | constructor].
Qed.

Lemma lowercase_prefix p s : p `prefix_of` s -> lowercase s -> lowercase p.
Proof. intros [k ->]. rewrite lowercase_app. tauto. Qed.

Lemma addr_app x y : addr (x ++ y) = addr x ++ addr y.
Proof. apply map_app. Qed.

Lemma addr_inj x y : lowercase x -> lowercase y -> addr x = addr y -> x = y.
Proof.
  revert y. induction x as [|c x IH]; intros [|d y] Hx Hy H; simpl in *; try done.
  apply lowercase_cons in Hx as [Hc Hx]. apply lowercase_cons in Hy as [Hd Hy].
  simplify_eq. f_equal; [by apply slot_inj | by apply IH].
Qed.

Lemma addr_no_zero x : lowercase x -> 0 ∉ addr x.
Proof.
  induction x as [|c x IH]; intros Hx; simpl.
  - apply not_elem_of_nil.
  - apply lowercase_cons in Hx as [Hc Hx]. apply slot_lower in Hc.
    rewrite not_elem_of_cons. split; [lia | by apply IH].
Qed.

Lemma addr_terminal_neq x y : lowercase x -> addr x <> addr y ++ [0].
Proof.
  intros Hx H. apply (addr_no_zero x Hx). rewrite H.
  apply elem_of_app. right. apply list_elem_of_singleton. done.
Qed.

Lemma addr_terminal_inj x y :
  lowercase x -> lowercase y -> addr x ++ [0] = addr y ++ [0] -> x = y.
Proof. intros Hx Hy H. apply app_inj_tail in H as [H _]. by apply addr_inj. Qed.

Lemma char_ltb_irrefl c : char_ltb c c = false.
Proof. unfold char_ltb. apply Nat.ltb_irrefl. Qed.

Lemma char_ltb_asym c d : char_ltb c d = true -> char_ltb d c = false.
Proof. unfold char_ltb. rewrite Nat.ltb_lt, Nat.ltb_ge. lia. Qed.

Lemma char_ltb_total c d : char_ltb c d = false -> char_ltb d c = false -> c = d.
Proof.
  unfold char_ltb. rewrite !Nat.ltb_ge. intros H1 H2.
  rewrite <- (ascii_nat_embedding c), <- (ascii_nat_embedding d).
  f_equal. lia.
Qed.

Lemma dollar_ltb_lower c : is_lower c = true -> char_ltb "$" c = true.
Proof.
  rewrite is_lower_range. intros H. unfold char_ltb. apply Nat.ltb_lt.
  change (nat_of_ascii "$") with 36. lia.
Qed.

Lemma str_ltb_irrefl a : str_ltb a a = false.
Proof.
  induction a as [|x a IH]; simpl; [done|]. by rewrite char_ltb_irrefl.
Qed.

Lemma str_ltb_asym a b : str_ltb a b = true -> str_ltb b a = false.
Proof.
  revert b. induction a as [|x a IH]; intros [|y b]; simpl; try done.
  destruct (char_ltb x y) eqn:E1.
  - by rewrite (char_ltb_asym _ _ E1).
  - destruct (char_ltb y x) eqn:E2; [done|]. apply IH.
Qed.

Lemma str_ltb_total a b : str_ltb a b = false -> str_ltb b a = false -> a = b.
Proof.
  revert b. induction a as [|x a IH]; intros [|y b]; simpl; try done.
  destruct (char_ltb x y) eqn:E1; [done|].
  destruct (char_ltb y x) eqn:E2; [done|].
  intros H1 H2. rewrite (char_ltb_total _ _ E1 E2). f_equal. by apply IH.
Qed.

Lemma char_ltb_trans c d e :
  char_ltb c d = true -> char_ltb d e = true -> char_ltb c e = true.
Proof. unfold char_ltb. rewrite !Nat.ltb_lt. lia. Qed.

Lemma str_ltb_trans a b c :
  str_ltb a b = true -> str_ltb b c = true -> str_ltb a c = true.
Proof.
  revert b c. induction a as [|x a IH]; intros [|y b] [|z c]; simpl; try done.
  destruct (char_ltb x y) eqn:E1.
  - destruct (char_ltb y z) eqn:E2.
    + by rewrite (char_ltb_trans _ _ _ E1 E2).
    + destruct (char_ltb z y) eqn:E3; [done|].
      rewrite (char_ltb_total _ _ E2 E3) in E1. by rewrite E1.
  - destruct (char_ltb y x) eqn:E2; [done|].
    rewrite (char_ltb_total _ _ E1 E2).
    destruct (char_ltb y z) eqn:E3; [done|].
    destruct (char_ltb z y) eqn:E4; [done|]. apply IH.
Qed.

Lemma str_ltb_app p a b : str_ltb (p ++ a) (p ++ b) = str_ltb a b.
Proof.
  induction p as [|x p IH]; simpl; [done|]. by rewrite char_ltb_irrefl.
Qed.

(** A sentence is never larger than its extensions. *)
Lemma str_ltb_prefix a b : a `prefix_of` b -> str_ltb b a = false.
Proof.
  intros [k ->]. rewrite <- (app_nil_r a) at 2. rewrite str_ltb_app.
  by destruct k.
Qed.

Lemma next_char_app p k :
  next_char p (p ++ k) = match k with [] => "$"%char | c :: _ => c end.
Proof. unfold next_char. by rewrite drop_app_length. Qed.

Lemma next_slot_app p k :
  next_slot p (p ++ k) = match k with [] => 0 | c :: _ => slot c end.
Proof. unfold next_slot. by rewrite drop_app_length. Qed.

Lemma next_char_lt p s t :
  p `prefix_of` s -> p `prefix_of` t -> lowercase s -> lowercase t ->
  char_ltb (next_char p s) (next_char p t) = true -> str_ltb s t = true.
Proof.
  intros [k ->] [k' ->] Hs Ht. rewrite !next_char_app, str_ltb_app.
  apply lowercase_app in Hs as [_ Hs]. apply lowercase_app in Ht as [_ Ht].
  destruct k as [|c k], k' as [|d k']; simpl.
  - by rewrite char_ltb_irrefl.
  - done.
  - apply lowercase_cons in Hs as [Hc _].
    intros H. apply char_ltb_asym in H. by rewrite dollar_ltb_lower in H.
  - intros ->. done.
Qed.

Lemma next_slot_char p s t :
  p `prefix_of` s -> p `prefix_of` t -> lowercase s -> lowercase t ->
  next_slot p s = next_slot p t -> next_char p s = next_char p t.
Proof.
  intros [k ->] [k' ->] Hs Ht. rewrite !next_char_app, !next_slot_app.
  apply lowercase_app in Hs as [_ Hs]. apply lowercase_app in Ht as [_ Ht].
  destruct k as [|c k], k' as [|d k']; simpl; try done.
  - apply lowercase_cons in Ht as [Hd _]. apply slot_lower in Hd. lia.
  - apply lowercase_cons in Hs as [Hc _]. apply slot_lower in Hc. lia.
  - apply lowercase_cons in Hs as [Hc _]. apply lowercase_cons in Ht as [Hd _].
    by apply slot_inj.
Qed.

Lemma next_char_slot p s t :
  p `prefix_of` s -> p `prefix_of` t -> lowercase s -> lowercase t ->
  next_char p s = next_char p t -> next_slot p s = next_slot p t.
Proof.
  intros [k ->] [k' ->] Hs Ht. rewrite !next_char_app, !next_slot_app.
  apply lowercase_app in Hs as [_ Hs]. apply lowercase_app in Ht as [_ Ht].
  destruct k as [|c k], k' as [|d k']; simpl; try done.
  - apply lowercase_cons in Ht as [Hd _]. intros <-. done.
  - apply lowercase_cons in Hs as [Hc _]. intros ->. done.
  - by intros ->.
Qed.

(** ** Best completions *)

Lemma bump_same cnt s : bump cnt s s = S (cnt s).
Proof. unfold bump. by rewrite decide_True. Qed.

Lemma bump_other cnt s x : x <> s -> bump cnt s x = cnt x.
Proof. intros H. unfold bump. by rewrite decide_False. Qed.

Lemma bump_pos cnt s x : 0 < bump cnt s x <-> 0 < cnt x \/ x = s.
Proof.
  unfold bump. case_decide as H; [split; [by right | lia]|].
  split; [by left|]. by intros [?|?].
Qed.

Lemma bump_ge cnt s x : cnt x <= bump cnt s x.
Proof. unfold bump. case_decide; lia. Qed.

Lemma beats_refl cnt a : beats cnt a a.
Proof. right. split; [done | apply str_ltb_irrefl]. Qed.

Lemma best_of_unique cnt p t t' : best_of cnt p t -> best_of cnt p t' -> t = t'.
Proof.
  intros (H1 & H2 & H3) (H1' & H2' & H3').
  destruct (H3 _ H1' H2') as [Ha|[Ha Hb]], (H3' _ H1 H2) as [Ha'|[Ha' Hb']];
    [lia..|].
  by apply str_ltb_total.
Qed.

Lemma best_of_deeper cnt p q t :
  best_of cnt p t -> p `prefix_of` q -> q `prefix_of` t -> best_of cnt q t.
Proof.
  intros (H1 & H2 & H3) Hpq Hqt. repeat split; [done..|].
  intros t' Ht' Hq. apply H3; [done|]. by etrans.
Qed.

(** A sentence that does not pass through [p] does not change the best
    completion of [p]. *)
Lemma best_of_bump_off cnt s p t :
  ~ p `prefix_of` s -> best_of cnt p t -> best_of (bump cnt s) p t.
Proof.
  intros Hps (H1 & H2 & H3).
  assert (forall x, p `prefix_of` x -> bump cnt s x = cnt x) as Hb.
  { intros x Hx. apply bump_other. by intros ->. }
  repeat split.
  - rewrite Hb; done.
  - done.
  - intros t' Ht' Hp. rewrite Hb in Ht' by done.
    unfold beats. rewrite !Hb by done. by apply H3.
Qed.

Lemma none_bump_off cnt s p :
  ~ p `prefix_of` s -> (forall t, p `prefix_of` t -> cnt t = 0) ->
  forall t, p `prefix_of` t -> bump cnt s t = 0.
Proof.
  intros Hps H t Ht. rewrite bump_other; [by apply H | by intros ->].
Qed.

Section best_step.
Context (cnt : str -> nat) (s p : str).
Hypothesis Hps : p `prefix_of` s.

(** The inserted sentence is the only completion. *)
Lemma best_bump_first :
  (forall t, p `prefix_of` t -> cnt t = 0) -> best_of (bump cnt s) p s.
Proof.
  intros Hnone. repeat split; [rewrite bump_same; lia | done |].
  intros t' Ht' Hp. apply bump_pos in Ht' as [Ht'| ->].
  - rewrite Hnone in Ht' by done. lia.
  - apply beats_refl.
Qed.

(** The inserted sentence overtakes the best completion. *)
Lemma best_bump_greater t :
  best_of cnt p t -> cnt t < S (cnt s) -> best_of (bump cnt s) p s.
Proof.
  intros (H1 & H2 & H3) Hlt.
  repeat split; [rewrite bump_same; lia | done |].
  intros t' Ht' Hp. apply bump_pos in Ht' as [Ht'| ->]; [|apply beats_refl].
  destruct (decide (t' = s)) as [->|Hne]; [apply beats_refl|].
  left. rewrite bump_same, bump_other by done.
  destruct (H3 _ Ht' Hp) as [?|[? _]]; lia.
Qed.

(** The inserted sentence ties with the best completion and is smaller. *)
Lemma best_bump_tie t :
  best_of cnt p t -> cnt t = S (cnt s) -> str_ltb s t = true ->
  best_of (bump cnt s) p s.
Proof.
  intros (H1 & H2 & H3) Heq Hlt.
  repeat split; [rewrite bump_same; lia | done |].
  intros t' Ht' Hp. apply bump_pos in Ht' as [Ht'| ->]; [|apply beats_refl].
  destruct (decide (t' = s)) as [->|Hne]; [apply beats_refl|].
  unfold beats. rewrite bump_same, bump_other by done.
  destruct (H3 _ Ht' Hp) as [?|[? Hle]]; [left; lia|].
  right. split; [lia|].
  destruct (str_ltb t' s) eqn:E; [|done].
  by rewrite (str_ltb_trans _ _ _ E Hlt) in Hle.
Qed.

(** The best completion stays. *)
Lemma best_bump_stay t :
  best_of cnt p t ->
  S (cnt s) < cnt t \/ (S (cnt s) = cnt t /\ str_ltb s t = false) ->
  best_of (bump cnt s) p t.
Proof.
  intros (H1 & H2 & H3) Hc.
  assert (t <> s) as Hts by (intros ->; lia).
  repeat split; [rewrite bump_other; done | done |].
  intros t' Ht' Hp. unfold beats. rewrite (bump_other _ _ t) by done.
  destruct (decide (t' = s)) as [->|Hne].
  - rewrite bump_same. destruct Hc as [?|[? ?]]; [left; lia | right; done].
  - rewrite bump_other by done. apply bump_pos in Ht' as [Ht'| ->]; [|done].
    by apply H3.
Qed.

(** The best completion is the inserted sentence already. *)
Lemma best_bump_self : best_of cnt p s -> best_of (bump cnt s) p s.
Proof.
  intros (H1 & H2 & H3).
  repeat split; [rewrite bump_same; lia | done |].
  intros t' Ht' Hp.
  destruct (decide (t' = s)) as [->|Hne]; [apply beats_refl|].
  apply bump_pos in Ht' as [Ht'| ->]; [|done].
  unfold beats. rewrite bump_same, bump_other by done.
  destruct (H3 _ Ht' Hp) as [?|[? ?]]; [left; lia | left; lia].
Qed.
End best_step.

(** ** Traces *)

Lemma trace_head h n p l : trace h n p = Some l -> exists l', l = n :: l'.
Proof.
  destruct p as [|j p]; simpl.
  - intros ?; simplify_eq. eauto.
  - destruct (child h n j); [|done]. destruct (trace h n0 p); [|done].
    intros ?; simplify_eq. eauto.
Qed.

Lemma trace_last h n p l : trace h n p = Some l -> last l = walk h n p.
Proof.
  revert n l. induction p as [|j p IH]; intros n l; simpl.
  - intros ?; by simplify_eq.
  - destruct (child h n j) as [m|]; [|done].
    destruct (trace h m p) as [l'|] eqn:E; [|done].
    intros ?; simplify_eq. destruct (trace_head _ _ _ _ E) as [l'' ->].
    rewrite <- (IH _ _ E). done.
Qed.

Lemma trace_length h n p l : trace h n p = Some l -> length l = S (length p).
Proof.
  revert n l. induction p as [|j p IH]; intros n l; simpl.
  - intros ?; by simplify_eq.
  - destruct (child h n j) as [m|]; [|done].
    destruct (trace h m p) as [l'|] eqn:E; [|done].
    intros ?; simplify_eq. simpl. by rewrite (IH _ _ E).
Qed.

Lemma trace_lookup h n p l i :
  trace h n p = Some l -> i <= length p -> l !! i = walk h n (take i p).
Proof.
  revert n l i. induction p as [|j p IH]; intros n l i; simpl.
  - intros ? Hi; simplify_eq. by replace i with 0 by lia.
  - destruct (child h n j) as [m|] eqn:Hc; [|done].
    destruct (trace h m p) as [l'|] eqn:E; [|done].
    intros ? Hi; simplify_eq. destruct i as [|i]; [done|].
    simpl. rewrite Hc. apply IH; [done | lia].
Qed.

Lemma trace_app h n p q l1 m l2 :
  trace h n p = Some (l1 ++ [m]) -> trace h m q = Some l2 ->
  trace h n (p ++ q) = Some (l1 ++ l2).
Proof.
  revert n l1. induction p as [|j p IH]; intros n l1; simpl.
  - intros H1 H2.
    assert (l1 = [] /\ m = n) as [-> ->].
    { destruct l1 as [|a [|b l1]]; simplify_eq/=; done. }
    done.
  - destruct (child h n j) as [b|] eqn:Hc; [|done].
    destruct (trace h b p) as [l'|] eqn:E; [|done].
    intros ? H2; simplify_eq.
    destruct l1 as [|a l1]; simpl in *.
    + simplify_eq. apply trace_length in E. done.
    + simplify_eq. by rewrite (IH _ _ E H2).
Qed.

Lemma trace_mono h h' n p l :
  (forall n i m, child h n i = Some m -> child h' n i = Some m) ->
  trace h n p = Some l -> trace h' n p = Some l.
Proof.
  intros Hm. revert n l. induction p as [|j p IH]; intros n l; simpl; [done|].
  destruct (child h n j) as [m|] eqn:Hc; [|done].
  rewrite (Hm _ _ _ Hc).
  destruct (trace h m p) as [l'|] eqn:E; [|done].
  by rewrite (IH _ _ E).
Qed.

Lemma walk_mono h h' n p m :
  (forall n i m, child h n i = Some m -> child h' n i = Some m) ->
  walk h n p = Some m -> walk h' n p = Some m.
Proof.
  intros Hm. revert n. induction p as [|j p IH]; intros n; simpl; [done|].
  destruct (child h n j) as [b|] eqn:Hc; [|done].
  rewrite (Hm _ _ _ Hc). apply IH.
Qed.

Lemma trace_sorted h n p l :
  WF h -> trace h n p = Some l -> StronglySorted lt l.
Proof.
  intros W. revert n l. induction p as [|j p IH]; intros n l; simpl.
  - intros ?; simplify_eq. repeat constructor.
  - destruct (child h n j) as [m|] eqn:Hc; [|done].
    destruct (trace h m p) as [l'|] eqn:E; [|done].
    intros ?; simplify_eq. constructor; [by eapply IH|].
    apply (wf_up _ W) in Hc.
    pose proof (IH _ _ E) as Hs.
    destruct (trace_head _ _ _ _ E) as [l'' ->].
    apply StronglySorted_inv in Hs as [_ Hall].
    constructor; [lia|]. eapply Forall_impl; [exact Hall|]. simpl. lia.
Qed.

Lemma trace_pairs h n p l a b :
  trace h n p = Some l -> (a, b) ∈ pairs l -> exists j, child h a j = Some b.
Proof.
  revert n l. induction p as [|j p IH]; intros n l; simpl.
  - intros ?; simplify_eq. simpl. by intros ?%elem_of_nil.
  - destruct (child h n j) as [m|] eqn:Hc; [|done].
    destruct (trace h m p) as [l'|] eqn:E; [|done].
    intros ?; simplify_eq. destruct (trace_head _ _ _ _ E) as [l'' ->].
    change (pairs (n :: m :: l'')) with ((n, m) :: pairs (m :: l'')).
    intros [?|Hin]%elem_of_cons; [simplify_eq; eauto|].
    by eapply IH.
Qed.

(** ** Nodes after adding a child *)

Lemma node_lt h p n : WF h -> walk h 0 p = Some n -> n < length h.
Proof. intros W. apply walk_lt; [done|]. by apply wf_root. Qed.

Lemma prefix_snoc_cases {A} (p x : list A) c :
  p `prefix_of` x ++ [c] -> p = x ++ [c] \/ p `prefix_of` x.
Proof.
  intros [k Hk]. destruct k as [|d k _] using rev_ind.
  - left. by rewrite app_nil_r in Hk.
  - right. rewrite app_assoc in Hk. apply app_inj_tail in Hk as [-> _].
    by exists k.
Qed.

Section add_child_walk.
Context (h : list Node) (cur j : nat) (c : ascii) (nd : Node) (p0 : list nat).
Hypothesis W : WF h.
Hypothesis Hcur : h !! cur = Some nd.
Hypothesis Hfree : links nd !! j = Some None.
Hypothesis Hp0 : walk h 0 p0 = Some cur.

Lemma walk_add_cases p m :
  walk (add_child h cur j c) 0 p = Some m ->
  (walk h 0 p = Some m /\ m < length h) \/ (p = p0 ++ [j] /\ m = length h).
Proof.
  intros H. destruct (walk_add_new h cur j c nd W Hcur Hfree _ _ _ H)
    as [Hw|(p1 & -> & Hw & ->)].
  - left. split; [done|]. by eapply node_lt.
  - right. by rewrite (walk_inj _ _ _ _ W Hw Hp0).
Qed.

Lemma walk_add_fresh : walk (add_child h cur j c) 0 (p0 ++ [j]) = Some (length h).
Proof.
  apply walk_snoc. exists cur. split.
  - by eapply walk_add_old.
  - erewrite child_add by done. by rewrite decide_True.
Qed.

Lemma walk_fresh_absent : walk h 0 (p0 ++ [j]) = None.
Proof.
  rewrite walk_app, Hp0. simpl. unfold child. by rewrite Hcur, Hfree.
Qed.
End add_child_walk.

(** ** The shape of the trie while a path is being added *)

Lemma node_char_snoc x c : node_char (x ++ [c]) = c.
Proof. unfold node_char. by rewrite last_snoc. Qed.

Lemma node_at_snoc h x c m :
  node_at h (x ++ [c]) = Some m <->
  exists b, node_at h x = Some b /\ child h b (slot c) = Some m.
Proof. unfold node_at. rewrite addr_app. simpl. apply walk_snoc. Qed.

Lemma Shape_present h cnt x c :
  Shape h cnt x -> is_Some (node_at h (x ++ [c])) -> Shape h cnt (x ++ [c]).
Proof.
  intros [S1 S2 S3 S4] Hex. split; [done| |done|done].
  intros p Hp. rewrite S2 by done. split.
  - intros [?|[?|Hpx]]; [tauto..|]. right. right. by apply prefix_app_r.
  - intros [?|[?|Hpx]]; [tauto..|].
    apply prefix_snoc_cases in Hpx as [->|Hpx]; [|tauto].
    by apply S2.
Qed.

Section add_inner.
Context (h : list Node) (cnt : str -> nat) (x : str) (c : ascii)
        (cur : nat) (nd : Node).
Hypothesis W : WF h.
Hypothesis Hx : lowercase x.
Hypothesis Hc : is_lower c = true.
Hypothesis Hat : node_at h x = Some cur.
Hypothesis Hcur : h !! cur = Some nd.
Hypothesis Hfree : links nd !! slot c = Some None.

Local Abbreviation h' := (add_child h cur (slot c) c).

Lemma add_inner_absent : Shape h cnt x -> forall t, x ++ [c] `prefix_of` t -> cnt t = 0.
Proof.
  intros [S1 S2 S3 S4] t Ht.
  destruct (cnt t) as [|k] eqn:E; [done|]. exfalso.
  assert (lowercase (x ++ [c])) as Hl by (by apply lowercase_snoc).
  assert (is_Some (node_at h (x ++ [c]))) as [m Hm].
  { apply S2; [done|]. right. left. exists t. split; [lia | done]. }
  unfold node_at in Hm. rewrite addr_app in Hm. simpl in Hm.
  by rewrite (walk_fresh_absent h cur (slot c) nd (addr x)) in Hm.
Qed.

Lemma Shape_add_inner : Shape h cnt x -> Shape h' cnt (x ++ [c]).
Proof.
  intros HS. pose proof (add_inner_absent HS) as Habs.
  destruct HS as [S1 S2 S3 S4].
  pose proof (slot_lower _ Hc) as Hslot.
  assert (cur < length h) as Hlt by (by eapply lookup_lt_Some).
  split; [done|..].
  - intros p Hp. split.
    + intros [m Hm].
      destruct (walk_add_cases h cur (slot c) c nd (addr x) W Hcur Hfree Hat _ _ Hm)
        as [[Hw _]|[Hp' ->]].
      * assert (is_Some (node_at h p)) as Hs by (by exists m).
        apply S2 in Hs as [?|[?|Hpx]]; [tauto..| |done].
        right. right. by apply prefix_app_r.
      * right. right. replace p with (x ++ [c]); [done|].
        apply addr_inj; [by apply lowercase_snoc|done|].
        by rewrite addr_app.
    + intros Hcases.
      assert (is_Some (node_at h p) \/ p = x ++ [c]) as [[m Hm]| ->].
      { destruct Hcases as [->|[?|Hpx]].
        - left. by exists 0.
        - left. apply S2; [done|]. tauto.
        - apply prefix_snoc_cases in Hpx as [->|Hpx]; [by right|].
          left. apply S2; [done|]. tauto. }
      * exists m. by eapply walk_add_old.
      * exists (length h). unfold node_at. rewrite addr_app.
        by eapply walk_add_fresh.
  - intros p n nd' Hp Hn Hnd'.
    destruct (walk_add_cases h cur (slot c) c nd (addr x) W Hcur Hfree Hat _ _ Hn)
      as [[Hw Hn']|[Hp' ->]].
    + assert (child h' n 0 = child h n 0) as Hch.
      { erewrite child_add by done. rewrite decide_False; [done|lia]. }
      rewrite Hch.
      destruct (decide (n = cur)) as [->|Hne].
      * erewrite add_child_lookup_cur in Hnd' by done.
        simplify_eq. simpl. by apply S3.
      * erewrite add_child_lookup_old in Hnd' by done.
        by apply S3.
    + erewrite add_child_lookup_new in Hnd' by done.
      simplify_eq.
      assert (p = x ++ [c]) as ->.
      { apply addr_inj; [done|by apply lowercase_snoc|by rewrite addr_app]. }
      rewrite node_char_snoc. split; [done|]. split; [done|].
      erewrite child_add by done. rewrite decide_False by lia.
      unfold child. rewrite (lookup_ge_None_2 h (length h)) by lia.
      rewrite (Habs (x ++ [c])) by done. split; [by intros [? ?] | lia].
  - intros p m nd' Hp Hm Hnd'.
    destruct (walk_add_cases h cur (slot c) c nd (addr x) W Hcur Hfree Hat _ _ Hm)
      as [[Hw Hm']|[Hp' ->]].
    + assert (m <> cur) as Hne.
      { intros ->. apply (addr_terminal_neq x p Hx).
        symmetry. by eapply walk_inj. }
      erewrite add_child_lookup_old in Hnd' by done.
      by eapply S4.
    + apply app_inj_tail in Hp' as [_ ?]. lia.
Qed.
End add_inner.

Lemma cache_ok_relink cnt p nd j v :
  links nd !! j = Some None -> cache_ok cnt p nd ->
  cache_ok cnt p (with_links (<[j := v]> (links nd)) nd).
Proof.
  intros Hfree [H|(t & m & H1 & H2 & H3 & H4)]; [by left|].
  right. exists t, m. split; [done|]. split; [done|]. split; [done|]. simpl.
  rewrite list_lookup_insert_ne; [done|]. intros ->. congruence.
Qed.

Lemma Cached_add_child h cnt cur j c nd p0 :
  WF h -> h !! cur = Some nd -> links nd !! j = Some None ->
  walk h 0 p0 = Some cur ->
  (forall p, lowercase p -> addr p = p0 ++ [j] ->
             forall t, p `prefix_of` t -> cnt t = 0) ->
  Cached h cnt -> Cached (add_child h cur j c) cnt.
Proof.
  intros W Hcur Hfree Hp0 Hnew HC p n nd' Hp Hn Hnd'.
  destruct (walk_add_cases h cur j c nd p0 W Hcur Hfree Hp0 _ _ Hn)
    as [[Hw Hn']|[Hp' ->]].
  - destruct (decide (n = cur)) as [->|Hne].
    + erewrite add_child_lookup_cur in Hnd' by done. simplify_eq.
      apply cache_ok_relink; [done|]. by eapply HC.
    + erewrite add_child_lookup_old in Hnd' by done. by eapply HC.
  - erewrite add_child_lookup_new in Hnd' by done. simplify_eq.
    left. split; [|done]. by apply Hnew.
Qed.

Lemma Cached_frame h h' cnt :
  same_links h h' ->
  (forall p n, lowercase p -> node_at h p = Some n -> h' !! n = h !! n) ->
  Cached h cnt -> Cached h' cnt.
Proof.
  intros Hsl Hfr HC p n nd' Hp Hn Hnd'.
  unfold node_at in Hn. rewrite (same_links_walk h h') in Hn by done.
  rewrite (Hfr p n) in Hnd' by done. by eapply HC.
Qed.

(** ** Running [insert_path] *)

Lemma get_link_eq h r ntu n nd idx j v :
  h !! n = Some nd -> py_pos (length (links nd)) idx = Some j ->
  links nd !! j = Some v ->
  get_link (Some n) idx (mkTrie h r ntu) = (Ok v, mkTrie h r ntu).
Proof.
  intros Hn Hp Hv. unfold get_link.
  erewrite bind_eq by (by apply deref_eq). by rewrite Hp, Hv.
Qed.

Lemma set_link_eq h r ntu n nd idx j v :
  h !! n = Some nd -> py_pos (length (links nd)) idx = Some j ->
  set_link (Some n) idx v (mkTrie h r ntu)
  = (Ok tt, mkTrie (<[n := with_links (<[j := v]> (links nd)) nd]> h) r ntu).
Proof.
  intros Hn Hp. unfold set_link.
  erewrite bind_eq by (by apply deref_eq). rewrite Hp.
  by erewrite assign_eq by done.
Qed.

Lemma new_Node_eq h r ntu c :
  new_Node c (mkTrie h r ntu)
  = (Ok (length h), mkTrie (h ++ [Node_init c]) r ntu).
Proof. done. Qed.

Lemma new_child_eq h r ntu n nd idx j c :
  h !! n = Some nd -> py_pos (length (links nd)) idx = Some j ->
  (fresh <- new_Node c ;; set_link (Some n) idx (Some fresh)) (mkTrie h r ntu)
  = (Ok tt, mkTrie (add_child h n j c) r ntu).
Proof.
  intros Hn Hp. erewrite bind_eq by apply new_Node_eq.
  erewrite set_link_eq; [|by apply lookup_app_l_Some|done].
  unfold add_child. by rewrite Hn.
Qed.

Lemma ntu_append_ids h r Q n :
  ntu_append (Some n) (mkTrie h r (Some (Some <$> Q)))
  = (Ok tt, mkTrie h r (Some (Some <$> (Q ++ [n])))).
Proof. unfold ntu_append. simpl. by rewrite fmap_app. Qed.

Lemma insert_loop_spec cnt rest :
  forall x cur h Q,
    WF h -> Shape h cnt x -> Cached h cnt ->
    lowercase x -> lowercase rest -> node_at h x = Some cur ->
    exists h' mid last,
      insert_loop rest (Some cur) (mkTrie h 0 (Some (Some <$> Q)))
      = (Ok (Some last), mkTrie h' 0 (Some (Some <$> (Q ++ mid))))
      /\ WF h' /\ Shape h' cnt (x ++ rest) /\ Cached h' cnt
      /\ trace h' cur (addr rest) = Some (mid ++ [last])
      /\ (forall n i m, child h n i = Some m -> child h' n i = Some m)
      /\ (forall n, n ∉ mid -> n <> last -> h' !! n = h !! n)
      /\ (is_Some (node_at h (x ++ rest)) -> h' = h).
Proof.
  induction rest as [|c rest IH]; intros x cur h Q W HS HC Hx Hrest Hat.
  { exists h, [], cur. rewrite !app_nil_r. simpl. done. }
  apply lowercase_cons in Hrest as [Hc Hrest].
  assert (lowercase (x ++ [c])) as Hxc by (by apply lowercase_snoc).
  pose proof (node_lt _ _ _ W Hat) as Hlt.
  destruct (lookup_lt_is_Some_2 h cur Hlt) as [nd Hnd].
  pose proof (wf_links _ W _ _ Hnd) as Hlen.
  pose proof (slot_lower _ Hc) as Hslot.
  destruct (lookup_lt_is_Some_2 (links nd) (slot c)) as [v Hv]; [lia|].
  assert (py_pos (length (links nd)) (index_of c) = Some (slot c)) as Hpos.
  { rewrite Hlen. by apply index_of_lower. }
  simpl.
  erewrite bind_eq by (by eapply get_link_eq).
  destruct v as [m|].
  - (* the child exists *)
    assert (child h cur (slot c) = Some m) as Hch.
    { apply child_Some. eauto. }
    assert (node_at h (x ++ [c]) = Some m) as Hat'.
    { apply node_at_snoc. eauto. }
    erewrite bind_eq by reflexivity.
    erewrite bind_eq by apply ntu_append_ids.
    erewrite bind_eq by (by eapply get_link_eq).
    destruct (IH (x ++ [c]) m h (Q ++ [cur]) W) as
      (h' & mid & last & Hrun & W' & HS' & HC' & Htr & Hmono & Hfr & Hnop);
      [by apply Shape_present|done..|].
    exists h', (cur :: mid), last.
    rewrite <- !app_assoc in *. simpl in *.
    split; [done|]. split; [done|]. split; [done|]. split; [done|].
    split; [|split; [done|split]].
    + rewrite (Hmono _ _ _ Hch), Htr. done.
    + intros n Hn Hn'. apply Hfr; [|done]. by apply not_elem_of_cons in Hn as [_ ?].
    + done.
  - (* a new child *)
    erewrite bind_eq by (by eapply new_child_eq).
    erewrite bind_eq by apply ntu_append_ids.
    pose proof (add_child_WF h cur (slot c) c nd W Hnd Hv) as W1.
    assert (node_at (add_child h cur (slot c) c) (x ++ [c]) = Some (length h))
      as Hat'.
    { unfold node_at. rewrite addr_app. by eapply walk_add_fresh. }
    assert (child (add_child h cur (slot c) c) cur (slot c) = Some (length h))
      as Hch.
    { erewrite child_add by done. by rewrite decide_True. }
    pose proof Hch as Hch'. apply child_Some in Hch' as (nd1 & Hnd1 & Hv1).
    erewrite bind_eq.
    2:{ eapply get_link_eq; [done| |done].
        rewrite (wf_links _ W1 _ _ Hnd1). by apply index_of_lower. }
    destruct (IH (x ++ [c]) (length h) (add_child h cur (slot c) c)
                (Q ++ [cur]) W1) as
      (h' & mid & last & Hrun & W' & HS' & HC' & Htr & Hmono & Hfr & Hnop);
      [by eapply Shape_add_inner| |done..|].
    { eapply Cached_add_child; [done..| |done].
      intros p Hp Hp' t Ht.
      assert (p = x ++ [c]) as ->.
      { apply addr_inj; [done..|]. by rewrite addr_app. }
      by apply (add_inner_absent h cnt x c cur nd). }
    exists h', (cur :: mid), last.
    rewrite <- !app_assoc in *. simpl in *.
    split; [done|]. split; [done|]. split; [done|]. split; [done|].
    split; [|split; [|split]].
    + rewrite (Hmono _ _ _ Hch), Htr. done.
    + intros n i m Hc'. apply Hmono. by eapply child_add_old.
    + intros n Hn Hn'.
      apply not_elem_of_cons in Hn as [Hne Hn].
      rewrite Hfr by done.
      destruct (trace_head _ _ _ _ Htr) as [l' Hl'].
      assert (n <> length h) as Hne'.
      { intros ->. destruct mid as [|a mid]; simpl in Hl'; simplify_eq; try done.
        apply Hn. by left. }
      destruct (decide (n < length h)).
      * by erewrite add_child_lookup_old.
      * erewrite add_child_lookup_ge by (done || lia).
        symmetry. apply lookup_ge_None_2. lia.
    + intros [m Hm]. exfalso. unfold node_at in Hm.
      rewrite addr_app in Hm. simpl in Hm.
      rewrite walk_app in Hm. unfold node_at in Hat. rewrite Hat in Hm.
      simpl in Hm. unfold child in Hm at 1. by rewrite Hnd, Hv in Hm.
Qed.

(** *** The terminal *)

Lemma Shape_no_pending cnt s :
  lowercase s ->
  (forall s', 0 < cnt s' -> lowercase s') ->
  forall p,
    (p = [] \/ (exists s', 0 < cnt s' /\ p `prefix_of` s') \/ p `prefix_of` s)
    <->
    (p = [] \/ (exists s', 0 < bump cnt s s' /\ p `prefix_of` s') \/ p `prefix_of` []).
Proof.
  intros Hs Hl p. split.
  - intros [?|[(s' & H1 & H2)|H]]; [tauto| |].
    + right. left. exists s'. split; [|done]. apply bump_pos. tauto.
    + right. left. exists s. split; [|done]. apply bump_pos. tauto.
  - intros [?|[(s' & H1 & H2)|H]]; [tauto| |].
    + apply bump_pos in H1 as [H1| ->]; [|tauto]. right. left. eauto.
    + left. by apply prefix_nil_inv.
Qed.

Section terminal_existing.
Context (h1 : list Node) (cnt : str -> nat) (s : str) (last tm : nat)
        (tnd : Node).
Hypothesis W : WF h1.
Hypothesis HS : Shape h1 cnt s.
Hypothesis HC : Cached h1 cnt.
Hypothesis Hs : lowercase s.
Hypothesis Hat : node_at h1 s = Some last.
Hypothesis Hch : child h1 last 0 = Some tm.
Hypothesis Htm : h1 !! tm = Some tnd.

Local Abbreviation h2 := (<[tm := with_word (Some s) (with_word_freq (word_freq tnd + 1) tnd)]> h1).

Lemma terminal_existing_at : terminal_at h1 s = Some tm.
Proof. apply walk_snoc. eauto. Qed.

Lemma terminal_existing_links : same_links h1 h2.
Proof. by eapply same_links_insert. Qed.

Lemma terminal_not_inner p n : lowercase p -> node_at h1 p = Some n -> n <> tm.
Proof.
  intros Hp Hn ->. apply (addr_terminal_neq p s Hp).
  eapply walk_inj; [done|exact Hn|]. apply terminal_existing_at.
Qed.

Lemma terminal_existing_pos : 0 < cnt s.
Proof.
  destruct (lookup_lt_is_Some_2 h1 last) as [nd Hnd].
  { by eapply node_lt. }
  destruct (sh_inner _ _ _ HS s last nd Hs Hat Hnd) as (_ & _ & H).
  apply H. by rewrite Hch.
Qed.

Lemma terminal_existing_Shape : Shape h2 (bump cnt s) [].
Proof.
  pose proof terminal_existing_links as Hsl.
  pose proof terminal_existing_at as Htat.
  assert (tm < length h1) as Hlt by (by eapply lookup_lt_Some).
  destruct HS as [S1 S2 S3 S4]. split.
  - intros s' [H| ->]%bump_pos; [by apply S1 | done].
  - intros p Hp. unfold node_at. rewrite (same_links_walk h1 h2) by done.
    fold (node_at h1 p). rewrite S2 by done. by apply Shape_no_pending.
  - intros p n nd' Hp Hn Hnd'.
    unfold node_at in Hn. rewrite (same_links_walk h1 h2) in Hn by done.
    rewrite (same_links_child h1 h2) by done.
    assert (n <> tm) as Hne by (by eapply terminal_not_inner).
    rewrite list_lookup_insert_ne in Hnd' by done.
    destruct (S3 p n nd' Hp Hn Hnd') as (H1 & H2 & H3).
    split; [done|]. split; [done|]. rewrite H3, bump_pos.
    split; [tauto|]. intros [?| ->]; [done|]. apply terminal_existing_pos.
  - intros p m nd' Hp Hm Hnd'.
    unfold terminal_at in Hm. rewrite (same_links_walk h1 h2) in Hm by done.
    destruct (decide (m = tm)) as [->|Hne].
    + assert (p = s) as ->.
      { apply addr_terminal_inj; [done..|]. by eapply walk_inj. }
      rewrite list_lookup_insert_eq in Hnd' by done.
      simplify_eq. rewrite (S4 s tm tnd Hs Htat Htm).
      unfold with_word, with_word_freq. cbn [links char word word_freq best_child].
      by rewrite bump_same, Nat.add_1_r.
    + rewrite list_lookup_insert_ne in Hnd' by done.
      rewrite (S4 p m nd' Hp Hm Hnd'). rewrite bump_other; [done|].
      intros ->. apply Hne. unfold terminal_at in Htat. congruence.
Qed.

Lemma terminal_existing_Cached : Cached h2 cnt.
Proof.
  eapply Cached_frame; [apply terminal_existing_links| |done].
  intros p n Hp Hn. rewrite list_lookup_insert_ne; [done|].
  intros <-. by eapply terminal_not_inner.
Qed.
End terminal_existing.

Section terminal_fresh.
Context (h1 : list Node) (cnt : str -> nat) (s : str) (last : nat)
        (ndl : Node).
Hypothesis W : WF h1.
Hypothesis HS : Shape h1 cnt s.
Hypothesis HC : Cached h1 cnt.
Hypothesis Hs : lowercase s.
Hypothesis Hat : node_at h1 s = Some last.
Hypothesis Hlast : h1 !! last = Some ndl.
Hypothesis Hfree : links ndl !! 0 = Some None.

Local Abbreviation h' := (add_child h1 last 0 "$").
Local Abbreviation h2 := (<[length h1 := with_word (Some s)
                           (with_word_freq (0 + 1) (Node_init "$"))]> h').

Lemma terminal_fresh_new : h' !! length h1 = Some (Node_init "$").
Proof. by eapply add_child_lookup_new. Qed.

Lemma terminal_fresh_links : same_links h' h2.
Proof. eapply same_links_insert; [apply terminal_fresh_new | done]. Qed.

Lemma terminal_fresh_WF : WF h2.
Proof.
  eapply same_links_WF; [apply terminal_fresh_links|].
  by eapply add_child_WF.
Qed.

Lemma terminal_fresh_child : child h2 last 0 = Some (length h1).
Proof.
  rewrite (same_links_child h' h2) by apply terminal_fresh_links.
  erewrite child_add by done. by rewrite decide_True.
Qed.

Lemma terminal_fresh_mono n i m :
  child h1 n i = Some m -> child h2 n i = Some m.
Proof.
  intros H. rewrite (same_links_child h' h2) by apply terminal_fresh_links.
  by eapply child_add_old.
Qed.

Lemma terminal_fresh_zero : cnt s = 0.
Proof.
  destruct (sh_inner _ _ _ HS s last ndl Hs Hat Hlast) as (_ & _ & H).
  destruct (cnt s) as [|k] eqn:E; [done|]. exfalso.
  destruct H as [_ H]. destruct H as [m Hm]; [lia|].
  unfold child in Hm. by rewrite Hlast, Hfree in Hm.
Qed.

Lemma terminal_fresh_inner p n :
  lowercase p -> walk h' 0 (addr p) = Some n ->
  node_at h1 p = Some n /\ n < length h1.
Proof.
  intros Hp Hn.
  destruct (walk_add_cases h1 last 0 "$" ndl (addr s) W Hlast Hfree Hat _ _ Hn)
    as [?|[Hp' _]]; [done|].
  exfalso. by eapply addr_terminal_neq.
Qed.

Lemma terminal_fresh_Shape : Shape h2 (bump cnt s) [].
Proof.
  pose proof terminal_fresh_links as Hsl.
  pose proof terminal_fresh_zero as Hzero.
  assert (last < length h1) as Hlt by (by eapply lookup_lt_Some).
  destruct HS as [S1 S2 S3 S4]. split.
  - intros s' [H| ->]%bump_pos; [by apply S1 | done].
  - intros p Hp. unfold node_at. rewrite (same_links_walk h' h2) by done.
    rewrite <- Shape_no_pending by done. rewrite <- S2 by done.
    split; intros [m Hm].
    + exists m. by apply terminal_fresh_inner.
    + exists m. by eapply walk_add_old.
  - intros p n nd' Hp Hn Hnd'.
    unfold node_at in Hn. rewrite (same_links_walk h' h2) in Hn by done.
    rewrite (same_links_child h' h2) by done.
    destruct (terminal_fresh_inner p n Hp Hn) as [Hn1 Hlt'].
    rewrite list_lookup_insert_ne in Hnd' by lia.
    erewrite child_add by done.
    destruct (decide (n = last)) as [->|Hne].
    + erewrite add_child_lookup_cur in Hnd' by done.
      simplify_eq. simpl.
      destruct (S3 p last ndl Hp Hn1 Hlast) as (H1 & H2 & H3).
      split; [done|]. split; [done|]. rewrite decide_True by done.
      assert (p = s) as ->.
      { apply addr_inj; [done..|]. by eapply walk_inj. }
      rewrite bump_same. split; [lia | eauto].
    + erewrite add_child_lookup_old in Hnd' by done.
      destruct (S3 p n nd' Hp Hn1 Hnd') as (H1 & H2 & H3).
      split; [done|]. split; [done|]. rewrite decide_False by tauto.
      rewrite H3, bump_pos. split; [tauto|]. intros [?| ->]; [done|].
      exfalso. apply Hne. congruence.
  - intros p m nd' Hp Hm Hnd'.
    unfold terminal_at in Hm. rewrite (same_links_walk h' h2) in Hm by done.
    destruct (walk_add_cases h1 last 0 "$" ndl (addr s) W Hlast Hfree Hat _ _ Hm)
      as [[Hw Hlt']|[Hp' ->]].
    + rewrite list_lookup_insert_ne in Hnd' by lia.
      assert (m <> last) as Hne.
      { intros ->. apply (addr_terminal_neq s p Hs). symmetry.
        by eapply walk_inj. }
      erewrite add_child_lookup_old in Hnd' by done.
      rewrite (S4 p m nd' Hp Hw Hnd'). rewrite bump_other; [done|].
      intros ->. rewrite walk_snoc in Hw. destruct Hw as (b & Hb & Hc).
      unfold node_at in Hat. rewrite Hat in Hb. simplify_eq.
      unfold child in Hc. by rewrite Hlast, Hfree in Hc.
    + assert (p = s) as -> by (by apply addr_terminal_inj).
      rewrite list_lookup_insert_eq in Hnd'.
      2:{ erewrite add_child_length by done. lia. }
      simplify_eq. rewrite bump_same, Hzero. done.
Qed.

Lemma terminal_fresh_Cached : Cached h2 cnt.
Proof.
  assert (Cached h' cnt) as HC'.
  { eapply Cached_add_child; [done..| |done].
    intros p Hp Hp'. exfalso. by eapply addr_terminal_neq. }
  intros p n nd' Hp Hn Hnd'.
  unfold node_at in Hn.
  rewrite (same_links_walk h' h2) in Hn by apply terminal_fresh_links.
  destruct (terminal_fresh_inner p n Hp Hn) as [Hn1 Hlt'].
  rewrite list_lookup_insert_ne in Hnd' by lia.
  by eapply HC'.
Qed.
End terminal_fresh.

Lemma trace_same_links h h' n p :
  same_links h h' -> trace h' n p = trace h n p.
Proof.
  intros H. revert n. induction p as [|j p IH]; intros n; simpl; [done|].
  rewrite (same_links_child h h') by done.
  destruct (child h n j); [|done]. by rewrite IH.
Qed.

Lemma py_pos_zero len : 0 < len -> py_pos len 0 = Some 0.
Proof. intros H. by apply (py_pos_nat len 0). Qed.

Lemma insert_path_spec cnt s h ntu0 :
  WF h -> Shape h cnt [] -> Cached h cnt -> lowercase s ->
  exists h2 P,
    insert_path s (mkTrie h 0 ntu0) = (Ok tt, mkTrie h2 0 (Some (Some <$> P)))
    /\ WF h2 /\ Shape h2 (bump cnt s) [] /\ Cached h2 cnt
    /\ trace h2 0 (addr s ++ [0]) = Some P
    /\ (forall n, n ∉ P -> h2 !! n = h !! n)
    /\ (0 < cnt s -> exists tm tnd,
          terminal_at h s = Some tm /\ h !! tm = Some tnd /\
          h2 = <[tm := with_word (Some s)
                         (with_word_freq (word_freq tnd + 1) tnd)]> h).
Proof.
  intros W HS HC Hs.
  destruct (insert_loop_spec cnt s [] 0 h [] W HS HC) as
    (h1 & mid & last & Hrun & W1 & HS1 & HC1 & Htr & Hmono & Hfr & Hnop);
    [constructor|done|done|].
  simpl in Hrun, HS1, Hnop.
  pose proof (trace_last _ _ _ _ Htr) as Hat. rewrite last_snoc in Hat.
  symmetry in Hat. fold (node_at h1 s) in Hat.
  pose proof (node_lt _ _ _ W1 Hat) as Hlt.
  destruct (lookup_lt_is_Some_2 h1 last Hlt) as [ndl Hndl].
  pose proof (wf_links _ W1 _ _ Hndl) as Hlen.
  destruct (lookup_lt_is_Some_2 (links ndl) 0) as [v Hv]; [lia|].
  unfold insert_path.
  erewrite bind_eq by reflexivity.
  erewrite bind_eq by reflexivity.
  erewrite bind_eq by exact Hrun.
  erewrite bind_eq by apply ntu_append_ids.
  erewrite bind_eq.
  2:{ eapply get_link_eq; [done| |done]. rewrite Hlen. reflexivity. }
  destruct v as [tm|].
  - (* the sentence was inserted before *)
    assert (child h1 last 0 = Some tm) as Hch by (apply child_Some; eauto).
    pose proof (wf_up _ W1 _ _ _ Hch) as [_ Htm].
    destruct (lookup_lt_is_Some_2 h1 tm Htm) as [tnd Htnd].
    erewrite bind_eq by reflexivity.
    erewrite bind_eq.
    2:{ eapply get_link_eq; [done| |done]. rewrite Hlen. reflexivity. }
    erewrite bind_eq by (by apply deref_eq).
    erewrite bind_eq by (by apply assign_eq).
    erewrite bind_eq by (apply assign_eq; by apply list_lookup_insert_eq).
    rewrite list_insert_insert_eq. rewrite ntu_append_ids.
    pose proof (terminal_existing_links h1 s tm tnd Htnd) as Hsl.
    eexists _, _. split; [done|].
    split; [by eapply same_links_WF|].
    split; [by eapply terminal_existing_Shape|].
    split; [by eapply terminal_existing_Cached|].
    split; [|split].
    + rewrite (trace_same_links h1) by done.
      rewrite <- app_assoc. eapply trace_app; [done|]. simpl. by rewrite Hch.
    + intros n Hn.
      assert ((n ∉ mid) /\ n <> last /\ n <> tm) as (Hn1 & Hn2 & Hn3).
      { rewrite !not_elem_of_app, !not_elem_of_cons in Hn. tauto. }
      rewrite list_lookup_insert_ne by done. by apply Hfr.
    + intros Hpos. assert (h1 = h) as ->.
      { apply Hnop. apply (sh_exists _ _ _ HS); [done|]. right. left. eauto. }
      exists tm, tnd. split; [|done]. apply walk_snoc. eauto.
  - (* the terminal is new *)
    erewrite bind_eq.
    2:{ eapply new_child_eq; [done|]. rewrite Hlen. reflexivity. }
    pose proof (terminal_fresh_child h1 s last ndl W1 Hndl Hv) as Hch.
    pose proof (add_child_WF h1 last 0 "$" ndl W1 Hndl Hv) as W'.
    assert (child (add_child h1 last 0 "$") last 0 = Some (length h1)) as Hch'.
    { erewrite child_add by done. by rewrite decide_True. }
    pose proof Hch' as Hch''. apply child_Some in Hch'' as (nd1 & Hnd1 & Hv1).
    erewrite bind_eq.
    2:{ eapply get_link_eq; [done| |done].
        rewrite (wf_links _ W' _ _ Hnd1). reflexivity. }
    pose proof (terminal_fresh_new h1 last ndl Hndl) as Hnew.
    erewrite bind_eq by (by apply deref_eq).
    erewrite bind_eq by (by apply assign_eq).
    assert (length h1 < length (add_child h1 last 0 "$")) as Hlt'.
    { erewrite add_child_length by done. lia. }
    erewrite bind_eq by (apply assign_eq; by apply list_lookup_insert_eq).
    rewrite list_insert_insert_eq. rewrite ntu_append_ids.
    change (word_freq (Node_init "$")) with 0.
    change (Z.to_nat 0) with 0.
    eexists _, _. split; [done|].
    split; [by eapply terminal_fresh_WF|].
    split; [by eapply terminal_fresh_Shape|].
    split; [by eapply terminal_fresh_Cached|].
    split; [|split].
    + rewrite <- app_assoc. eapply trace_app.
      * eapply trace_mono; [|done]. intros n i m Hc.
        by eapply terminal_fresh_mono.
      * cbn [trace]. by rewrite Hch.
    + intros n Hn.
      assert ((n ∉ mid) /\ n <> last /\ n <> length h1) as (Hn1 & Hn2 & Hn3).
      { rewrite !not_elem_of_app, !not_elem_of_cons in Hn. tauto. }
      rewrite list_lookup_insert_ne by done.
      rewrite <- Hfr by done.
      destruct (decide (n < length h1)).
      * by erewrite add_child_lookup_old.
      * erewrite add_child_lookup_ge by (done || lia).
        symmetry. apply lookup_ge_None_2. lia.
    + intros Hpos. exfalso.
      pose proof (terminal_fresh_zero h1 cnt s last ndl HS1 Hs Hat Hndl Hv). lia.
Qed.

(** ** The passes of the repair, node by node *)

Arguments pairs : simpl never.

Lemma pairs_cons a b l : pairs (a :: b :: l) = (a, b) :: pairs (b :: l).
Proof. done. Qed.

Lemma pairs_elem_of l a b : (a, b) ∈ pairs l -> a ∈ l /\ b ∈ l.
Proof.
  intros [i Hi]%list_elem_of_lookup. apply pairs_lookup_inv in Hi as [Ha Hb].
  split; eapply list_elem_of_lookup_2; done.
Qed.

Lemma elem_of_removelast {A} (l : list A) x : x ∈ removelast l -> x ∈ l.
Proof.
  induction l as [|a l IH]; [done|].
  destruct l as [|b l]; simpl.
  - by intros ?%elem_of_nil.
  - intros [->|H]%elem_of_cons; [by left|]. right. by apply IH.
Qed.

Lemma sorted_head_lt a l x : StronglySorted lt (a :: l) -> x ∈ l -> a < x.
Proof.
  intros Hs Hx. apply StronglySorted_inv in Hs as [_ H].
  rewrite List.Forall_forall in H. apply H. by apply list_elem_of_In.
Qed.

Lemma seeded_links f c nd : links (seeded f c nd) = links nd.
Proof. unfold seeded. by destruct (best_child nd). Qed.
Lemma seeded_char f c nd : char (seeded f c nd) = char nd.
Proof. unfold seeded. by destruct (best_child nd). Qed.
Lemma seeded_word f c nd : word (seeded f c nd) = word nd.
Proof. unfold seeded. by destruct (best_child nd). Qed.

Lemma compared_links f c cc bf bc nd : links (compared f c cc bf bc nd) = links nd.
Proof. unfold compared. by repeat case_match. Qed.
Lemma compared_char f c cc bf bc nd : char (compared f c cc bf bc nd) = char nd.
Proof. unfold compared. by repeat case_match. Qed.
Lemma compared_word f c cc bf bc nd : word (compared f c cc bf bc nd) = word nd.
Proof. unfold compared. by repeat case_match. Qed.

Lemma fixed_links f nd : links (fixed f nd) = links nd.
Proof. unfold fixed. by case_match. Qed.
Lemma fixed_char f nd : char (fixed f nd) = char nd.
Proof. unfold fixed. by case_match. Qed.
Lemma fixed_word f nd : word (fixed f nd) = word nd.
Proof. unfold fixed. by case_match. Qed.

Lemma seed_pair_eq term tnd h a b nd :
  h !! a = Some nd -> h !! term = Some tnd ->
  seed_pair term h (a, b) = Some (<[a := seeded (word_freq tnd) b nd]> h).
Proof.
  intros Ha Ht. unfold seed_pair, seeded. simpl. rewrite Ha.
  destruct (best_child nd).
  - by rewrite list_insert_id.
  - by rewrite Ht.
Qed.

Lemma compare_pair_eq f h a b nd bc bnd cnd :
  h !! a = Some nd -> best_child nd = Some bc -> h !! bc = Some bnd ->
  h !! b = Some cnd ->
  compare_pair f h (a, b)
  = Some (<[a := compared f b (char cnd) (word_freq bnd) (char bnd) nd]> h).
Proof.
  intros Ha Hbc Hbnd Hb. unfold compare_pair, compared. simpl.
  rewrite Ha, Hbc, Hbnd, Hb.
  destruct (word_freq bnd <? f); [done|].
  destruct (f =? word_freq bnd); simpl.
  - destruct (char_ltb (char cnd) (char bnd)); [done|]. by rewrite list_insert_id.
  - by rewrite list_insert_id.
Qed.

Lemma fixup_eq f h pk nd :
  h !! pk = Some nd -> fixup f h pk = Some (<[pk := fixed f nd]> h).
Proof.
  intros H. unfold fixup, fixed. rewrite H.
  destruct (word_freq nd <? f); [done|]. by rewrite list_insert_id.
Qed.

Lemma seed_pass_spec term tnd P :
  forall h,
    StronglySorted lt P -> last P = Some term -> h !! term = Some tnd ->
    (forall a, a ∈ P -> is_Some (h !! a)) ->
    exists h',
      run_pairs (seed_pair term) (pairs P) h = Some h'
      /\ (forall n, n ∉ P -> h' !! n = h !! n)
      /\ h' !! term = Some tnd
      /\ (forall a b nd, (a, b) ∈ pairs P -> h !! a = Some nd ->
            h' !! a = Some (seeded (word_freq tnd) b nd)).
Proof.
  induction P as [|a P IH]; intros h Hsort Hlast Hterm Hall; [done|].
  destruct P as [|b P].
  { simpl in *. exists h. repeat split; try done.
    intros a' b' nd' H. by apply elem_of_nil in H. }
  rewrite pairs_cons. cbn [run_pairs].
  destruct (Hall a) as [nd Hnd]; [by left|].
  assert (a < length h) as Hlt by (by eapply lookup_lt_Some).
  assert (forall x, x ∈ b :: P -> a < x) as Hlt'.
  { intros x Hx. by eapply sorted_head_lt. }
  assert (term ∈ b :: P) as Hterm_in.
  { rewrite last_cons_cons in Hlast. clear -Hlast.
    apply last_Some in Hlast as [l' ->]. apply elem_of_app. right. by left. }
  erewrite seed_pair_eq by done.
  destruct (IH (<[a := seeded (word_freq tnd) b nd]> h)) as (h' & Hrun & Hfr & Ht' & Hpt).
  - by apply StronglySorted_inv in Hsort as [? _].
  - by rewrite last_cons_cons in Hlast.
  - rewrite list_lookup_insert_ne; [done|]. apply Hlt' in Hterm_in. lia.
  - intros x Hx. rewrite list_lookup_insert_ne.
    + apply Hall. by right.
    + apply Hlt' in Hx. lia.
  - exists h'. split; [done|]. split; [|split; [done|]].
    + intros n Hn. apply not_elem_of_cons in Hn as [Hne Hn].
      rewrite Hfr by done. by rewrite list_lookup_insert_ne.
    + intros a' b' nd' Hin Hnd'.
      apply elem_of_cons in Hin as [Heq|Hin].
      * simplify_eq. rewrite Hfr.
        -- by rewrite list_lookup_insert_eq.
        -- intros Hx. apply Hlt' in Hx. lia.
      * apply Hpt; [done|]. rewrite list_lookup_insert_ne; [done|].
        apply pairs_elem_of in Hin as [Hx _]. apply Hlt' in Hx. lia.
Qed.

Lemma compare_pass_spec f P :
  forall h,
    StronglySorted lt P ->
    (forall a b, (a, b) ∈ pairs P ->
       exists nd bc bnd cnd,
         h !! a = Some nd /\ best_child nd = Some bc /\ a < bc /\
         h !! bc = Some bnd /\ h !! b = Some cnd) ->
    exists h',
      run_pairs (compare_pair f) (pairs P) h = Some h'
      /\ (forall n, n ∉ removelast P -> h' !! n = h !! n)
      /\ (forall a b nd bc bnd cnd, (a, b) ∈ pairs P ->
            h !! a = Some nd -> best_child nd = Some bc ->
            h !! bc = Some bnd -> h !! b = Some cnd ->
            h' !! a
            = Some (compared f b (char cnd) (word_freq bnd) (char bnd) nd)).
Proof.
  induction P as [|a P IH]; intros h Hsort Hall.
  { exists h. simpl. repeat split; try done.
    intros ???????. by apply elem_of_nil in H. }
  destruct P as [|b P].
  { exists h. simpl. repeat split; try done.
    intros ???????. by apply elem_of_nil in H. }
  rewrite pairs_cons in *. cbn [run_pairs].
  destruct (Hall a b) as (nd & bc & bnd & cnd & Hnd & Hbc & Habc & Hbnd & Hcnd);
    [by left|].
  assert (a < length h) as Hlt by (by eapply lookup_lt_Some).
  assert (forall x, x ∈ b :: P -> a < x) as Hlt'.
  { intros x Hx. by eapply sorted_head_lt. }
  erewrite compare_pair_eq by done.
  set (h1 := <[a := compared f b (char cnd) (word_freq bnd) (char bnd) nd]> h).
  assert (forall x, a < x -> h1 !! x = h !! x) as Hh1.
  { intros x Hx. unfold h1. rewrite list_lookup_insert_ne; [done|lia]. }
  destruct (IH h1) as (h' & Hrun & Hfr & Hpt).
  - by apply StronglySorted_inv in Hsort as [? _].
  - intros a' b' Hin.
    destruct (Hall a' b') as (nd' & bc' & bnd' & cnd' & H1 & H2 & H3 & H4 & H5);
      [by right|].
    pose proof (pairs_elem_of _ _ _ Hin) as [Ha' Hb'].
    apply Hlt' in Ha'. apply Hlt' in Hb'.
    exists nd', bc', bnd', cnd'. rewrite !Hh1 by lia. done.
  - exists h'. split; [done|]. split.
    + intros n Hn. change (removelast (a :: b :: P)) with (a :: removelast (b :: P)) in Hn.
      apply not_elem_of_cons in Hn as [Hne Hn].
      rewrite Hfr by done. unfold h1. by rewrite list_lookup_insert_ne.
    + intros a' b' nd' bc' bnd' cnd' Hin H1 H2 H4 H5.
      apply elem_of_cons in Hin as [Heq|Hin].
      * simplify_eq. rewrite Hfr.
        -- unfold h1. by rewrite list_lookup_insert_eq.
        -- intros Hx. apply elem_of_removelast in Hx. apply Hlt' in Hx. lia.
      * pose proof (pairs_elem_of _ _ _ Hin) as [Ha' Hb'].
        apply Hlt' in Ha'. apply Hlt' in Hb'.
        assert (a' < bc') as Hbc'.
        { destruct (Hall a' b') as (nd'' & bc'' & bnd'' & cnd'' & H1' & H2' & H3' & _);
            [by right|].
          by simplify_eq. }
        apply (Hpt a' b' nd' bc' bnd' cnd'); [done|by rewrite Hh1 by lia|done|
                                              by rewrite Hh1 by lia..].
Qed.

(** ** One node of the path, semantically *)

Lemma fixed_id f nd : f <= word_freq nd -> fixed f nd = nd.
Proof.
  intros H. unfold fixed.
  destruct (Nat.ltb_spec (word_freq nd) f); [lia | done].
Qed.

Lemma if_same {A} (b : bool) (x : A) : (if b then x else x) = x.
Proof. by destruct b. Qed.

Lemma repair_node_ok cnt s p nd c bfreq bchar :
  (forall t, 0 < cnt t -> lowercase t) -> lowercase s -> p `prefix_of` s ->
  links nd !! next_slot p s = Some (Some c) ->
  ((forall t, p `prefix_of` t -> cnt t = 0) /\
   word_freq nd = S (cnt s) /\ best_child nd = Some c /\
   bfreq = S (cnt s) /\ bchar = next_char p s)
  \/
  (exists t m, best_of cnt p t /\ word_freq nd = cnt t /\
               best_child nd = Some m /\
               links nd !! next_slot p t = Some (Some m) /\
               bchar = next_char p t /\
               bfreq = if decide (p = s /\ t = s) then S (cnt s) else cnt t) ->
  cache_ok (bump cnt s) p
    (if decide (p = s)
     then fixed (S (cnt s)) (compared (S (cnt s)) c (next_char p s) bfreq bchar nd)
     else compared (S (cnt s)) c (next_char p s) bfreq bchar nd).
Proof.
  intros Hlow Hs Hps Hc [(Hnone & Hf & Hbc & -> & ->)|
                         (t & m & Hbest & Hf & Hbc & Hm & -> & ->)].
  - (* a new node *)
    assert (compared (S (cnt s)) c (next_char p s) (S (cnt s)) (next_char p s) nd = nd)
      as ->.
    { unfold compared. by rewrite Nat.ltb_irrefl, Nat.eqb_refl, char_ltb_irrefl. }
    rewrite fixed_id by lia.
    assert ((if decide (p = s) then nd else nd) = nd) as -> by (by case_decide).
    right. exists s, c. split; [by apply best_bump_first|].
    by rewrite bump_same.
  - pose proof Hbest as (Hpos & Hpt & Hall).
    pose proof (Hlow _ Hpos) as Ht.
    destruct (decide (p = s /\ t = s)) as [[-> ->]|Hd].
    + (* the best completion is the sentence itself, at its last node *)
      rewrite decide_True by done.
      assert (compared (S (cnt s)) c (next_char s s) (S (cnt s)) (next_char s s) nd = nd)
        as ->.
      { unfold compared. by rewrite Nat.ltb_irrefl, Nat.eqb_refl, char_ltb_irrefl. }
      unfold fixed. rewrite Hf.
      destruct (Nat.ltb_spec (cnt s) (S (cnt s))); [|lia].
      right. exists s, m. split; [by apply best_bump_self|].
      by rewrite bump_same.
    + unfold compared.
      destruct (Nat.ltb_spec (cnt t) (S (cnt s))) as [Hlt|Hge].
      * (* strictly more frequent *)
        rewrite fixed_id by (simpl; lia).
        match goal with |- cache_ok _ _ (if ?d then ?x else ?x) =>
          replace (if d then x else x) with x by (by destruct d) end.
        right. exists s, c. split; [by eapply best_bump_greater|].
        by rewrite bump_same.
      * destruct (Nat.eqb_spec (S (cnt s)) (cnt t)) as [Heq|Hne];
          [destruct (char_ltb (next_char p s) (next_char p t)) eqn:Hcl|]; simpl.
        -- (* a tie, and the new child is smaller *)
           rewrite fixed_id by (simpl; lia).
           match goal with |- cache_ok _ _ (if ?d then ?x else ?x) =>
             replace (if d then x else x) with x by (by destruct d) end.
           right. exists s, c.
           split; [eapply best_bump_tie; [done..|by eapply next_char_lt]|].
           simpl. rewrite bump_same. split; [lia | done].
        -- (* a tie, the best child stays *)
           rewrite fixed_id by lia.
           match goal with |- cache_ok _ _ (if ?d then ?x else ?x) =>
             replace (if d then x else x) with x by (by destruct d) end.
           destruct (str_ltb s t) eqn:Hst.
           ++ assert (next_char p s = next_char p t) as Hnc.
              { apply char_ltb_total; [done|].
                destruct (char_ltb (next_char p t) (next_char p s)) eqn:Hcl';
                  [|done].
                apply (next_char_lt p t s) in Hcl'; [|done..].
                by rewrite (str_ltb_asym _ _ Hcl') in Hst. }
              apply next_char_slot in Hnc; [|done..].
              rewrite Hnc in Hc. assert (c = m) as -> by congruence.
              right. exists s, m. split; [by eapply best_bump_tie|].
              rewrite bump_same. rewrite Hnc. split; [lia | done].
           ++ right. exists t, m. split; [eapply best_bump_stay; [done..|tauto]|].
              rewrite bump_other; [done|]. intros ->. lia.
        -- (* less frequent *)
           rewrite fixed_id by lia.
           match goal with |- cache_ok _ _ (if ?d then ?x else ?x) =>
             replace (if d then x else x) with x by (by destruct d) end.
           right. exists t, m. split; [eapply best_bump_stay; [done..|lia]|].
           rewrite bump_other; [done|]. intros ->. lia.
Qed.

(** ** The path of a sentence *)

Lemma addr_take i s : take i (addr s) = addr (take i s).
Proof. unfold addr. apply firstn_map. Qed.

Lemma addr_length s : length (addr s) = length s.
Proof. unfold addr. apply length_map. Qed.

Lemma path_take i s :
  i <= length s -> take i (addr s ++ [0]) = addr (take i s).
Proof.
  intros H. rewrite take_app_le by (rewrite addr_length; lia). apply addr_take.
Qed.

Lemma path_take_S i s :
  i <= length s ->
  take (S i) (addr s ++ [0]) = addr (take i s) ++ [next_slot (take i s) s].
Proof.
  intros H. unfold next_slot. rewrite length_take_le by done.
  destruct (drop i s) as [|c k] eqn:E.
  - assert (i = length s) as ->.
    { apply (f_equal length) in E. rewrite length_drop in E. simpl in E. lia. }
    rewrite take_ge by (rewrite length_app, addr_length; simpl; lia).
    by rewrite firstn_all.
  - assert (s !! i = Some c) as Hi.
    { rewrite <- (Nat.add_0_r i), <- lookup_drop, E. done. }
    assert (i < length s) by (by eapply lookup_lt_Some).
    rewrite take_app_le by (rewrite addr_length; lia).
    rewrite addr_take. rewrite (take_S_r s i c) by done. by rewrite addr_app.
Qed.

Lemma prefix_is_take {A} (p s : list A) : p `prefix_of` s -> p = take (length p) s.
Proof. intros [k ->]. by rewrite take_app_length. Qed.

Section path.
Context (h : list Node) (s : str) (P : list nat).
Hypothesis W : WF h.
Hypothesis Hs : lowercase s.
Hypothesis Htr : trace h 0 (addr s ++ [0]) = Some P.

Lemma path_length : length P = length s + 2.
Proof.
  rewrite (trace_length _ _ _ _ Htr), length_app, addr_length. simpl. lia.
Qed.

Lemma path_lookup_pair i a b :
  pairs P !! i = Some (a, b) ->
  i <= length s /\ node_at h (take i s) = Some a /\
  child h a (next_slot (take i s) s) = Some b.
Proof.
  intros [Ha Hb]%pairs_lookup_inv.
  pose proof path_length as Hlen.
  assert (i <= length s) as Hi.
  { apply lookup_lt_Some in Hb. lia. }
  split; [done|].
  rewrite (trace_lookup _ _ _ _ i Htr) in Ha
    by (rewrite length_app, addr_length; simpl; lia).
  rewrite (trace_lookup _ _ _ _ (i + 1) Htr) in Hb
    by (rewrite length_app, addr_length; simpl; lia).
  rewrite path_take in Ha by done.
  rewrite Nat.add_1_r, path_take_S in Hb by done.
  apply walk_snoc in Hb as (a' & Ha' & Hc).
  split; [done|]. unfold node_at. congruence.
Qed.

Lemma path_pair a b :
  (a, b) ∈ pairs P ->
  exists p, p `prefix_of` s /\ node_at h p = Some a /\
            child h a (next_slot p s) = Some b.
Proof.
  intros [i Hi]%list_elem_of_lookup.
  apply path_lookup_pair in Hi as (Hi & Ha & Hb).
  exists (take i s). split; [|done]. apply prefix_take.
Qed.

Lemma path_node p a :
  p `prefix_of` s -> node_at h p = Some a ->
  exists b, (a, b) ∈ pairs P /\ child h a (next_slot p s) = Some b.
Proof.
  intros Hp Ha. pose proof path_length as Hlen.
  pose proof (prefix_length _ _ Hp) as Hle.
  destruct (lookup_lt_is_Some_2 P (length p)) as [a' Ha']; [lia|].
  destruct (lookup_lt_is_Some_2 P (length p + 1)) as [b Hb]; [lia|].
  pose proof (pairs_lookup _ _ _ _ Ha' Hb) as Hpr.
  pose proof (path_lookup_pair _ _ _ Hpr) as (_ & Hat & Hc).
  rewrite <- (prefix_is_take p s) in Hat, Hc by done.
  assert (a' = a) as -> by congruence.
  exists b. split; [|done]. by eapply list_elem_of_lookup_2.
Qed.

Lemma path_elem n :
  n ∈ P ->
  (exists p, p `prefix_of` s /\ node_at h p = Some n) \/ terminal_at h s = Some n.
Proof.
  intros [i Hi]%list_elem_of_lookup. pose proof path_length as Hlen.
  pose proof (lookup_lt_Some _ _ _ Hi) as Hlt.
  rewrite (trace_lookup _ _ _ _ _ Htr) in Hi
    by (rewrite length_app, addr_length; simpl; lia).
  destruct (decide (i <= length s)).
  - left. exists (take i s). split; [apply prefix_take|].
    rewrite path_take in Hi by done. done.
  - right. rewrite take_ge in Hi by (rewrite length_app, addr_length; simpl; lia).
    done.
Qed.

Lemma path_last : last P = terminal_at h s.
Proof. by apply trace_last. Qed.

Lemma path_sorted : StronglySorted lt P.
Proof. by eapply trace_sorted. Qed.

Lemma path_last2 : last (removelast P) = node_at h s.
Proof.
  pose proof path_length as Hlen.
  destruct P as [|x P' _] using rev_ind; [simpl in Hlen; lia|].
  rewrite removelast_last. rewrite last_lookup.
  rewrite length_app in Hlen. simpl in Hlen.
  replace (pred (length P')) with (length s) by lia.
  rewrite <- (lookup_app_l P' [x]) by lia.
  rewrite (trace_lookup _ _ _ _ _ Htr)
    by (rewrite length_app, addr_length; simpl; lia).
  rewrite path_take by done. by rewrite firstn_all.
Qed.

Lemma path_off p n :
  lowercase p -> node_at h p = Some n -> ~ p `prefix_of` s -> n ∉ P.
Proof.
  intros Hp Hn Hps Hin. apply path_elem in Hin as [(q & Hq & Hnq)|Hterm].
  - apply Hps. replace p with q; [done|].
    apply addr_inj; [by eapply lowercase_prefix|done|]. by eapply walk_inj.
  - apply (addr_terminal_neq p s Hp). by eapply walk_inj.
Qed.

Lemma path_terminal_not_first tm b :
  terminal_at h s = Some tm -> (tm, b) ∉ pairs P.
Proof.
  intros Htm Hin. apply path_pair in Hin as (p & Hp & Hat & _).
  apply (addr_terminal_neq p s); [by eapply lowercase_prefix|].
  by eapply walk_inj.
Qed.
End path.

(** ** Frames *)

Lemma Shape_frame h h' cnt x :
  same_links h h' ->
  (forall n nd, h !! n = Some nd ->
     exists nd', h' !! n = Some nd' /\ char nd' = char nd /\ word nd' = word nd) ->
  (forall p m, terminal_at h p = Some m -> h' !! m = h !! m) ->
  Shape h cnt x -> Shape h' cnt x.
Proof.
  intros Hsl Hfld Hterm [S1 S2 S3 S4]. split; [done|..].
  - intros p Hp. unfold node_at. rewrite (same_links_walk h h') by done.
    by apply S2.
  - intros p n nd' Hp Hn Hnd'.
    unfold node_at in Hn. rewrite (same_links_walk h h') in Hn by done.
    rewrite (same_links_child h h') by done.
    pose proof (Hsl n) as Hl. rewrite Hnd' in Hl.
    destruct (h !! n) as [nd|] eqn:E; [|done].
    destruct (Hfld n nd E) as (nd'' & ? & Hc & Hw). simplify_eq.
    rewrite Hc, Hw. by eapply S3.
  - intros p m nd' Hp Hm Hnd'.
    unfold terminal_at in Hm. rewrite (same_links_walk h h') in Hm by done.
    rewrite (Hterm p m Hm) in Hnd'. by eapply S4.
Qed.

Lemma cache_ok_bump_off cnt s p nd :
  ~ p `prefix_of` s -> cache_ok cnt p nd -> cache_ok (bump cnt s) p nd.
Proof.
  intros Hps [(H1 & H2)|(t & m & H1 & H2 & H3)].
  - left. split; [by apply none_bump_off | done].
  - right. exists t, m. split; [by apply best_of_bump_off|].
    rewrite bump_other; [done|]. intros ->. apply Hps. by destruct H1 as (_ & ? & _).
Qed.

(** The child through which the path to [t] leaves the node spelled by
    [p]. *)
Lemma child_towards h cnt p t a b bnd :
  WF h -> Shape h cnt [] -> lowercase t -> p `prefix_of` t ->
  node_at h p = Some a -> child h a (next_slot p t) = Some b ->
  h !! b = Some bnd ->
  char bnd = next_char p t /\
  ((p = t /\ word_freq bnd = cnt t) \/
   (exists ch, p ++ [ch] `prefix_of` t /\ node_at h (p ++ [ch]) = Some b)).
Proof.
  intros W HS Ht [k ->] Ha Hc Hb.
  rewrite next_slot_app in Hc. rewrite next_char_app.
  apply lowercase_app in Ht as [Hp Hk].
  destruct k as [|ch k].
  - assert (terminal_at h p = Some b) as Hterm by (apply walk_snoc; eauto).
    rewrite (sh_terminal _ _ _ HS p b bnd Hp Hterm Hb). simpl.
    split; [done|]. left. by rewrite app_nil_r.
  - apply lowercase_cons in Hk as [Hch Hk].
    assert (node_at h (p ++ [ch]) = Some b) as Hb'.
    { apply node_at_snoc. eauto. }
    destruct (sh_inner _ _ _ HS (p ++ [ch]) b bnd) as (Hchar & _);
      [by apply lowercase_snoc|done..|].
    rewrite Hchar, node_char_snoc. split; [done|]. right. exists ch.
    split; [|done]. exists k. by rewrite <- app_assoc.
Qed.

(** ** The initialization pass on the path of an insertion *)

Lemma seed_stage cnt s h1 P tm :
  WF h1 -> Shape h1 (bump cnt s) [] -> Cached h1 cnt -> lowercase s ->
  trace h1 0 (addr s ++ [0]) = Some P -> terminal_at h1 s = Some tm ->
  exists ha,
    run_pairs (seed_pair tm) (pairs P) h1 = Some ha
    /\ same_links h1 ha /\ Seeded ha cnt s
    /\ (forall n, n ∉ removelast P -> ha !! n = h1 !! n)
    /\ (forall n nd, h1 !! n = Some nd ->
          exists nd', ha !! n = Some nd' /\ char nd' = char nd /\
                      word nd' = word nd /\ links nd' = links nd).
Proof.
  intros W HS HC Hs Htr Htm.
  pose proof (node_lt _ _ _ W Htm) as Htmlt.
  destruct (lookup_lt_is_Some_2 h1 tm Htmlt) as [tnd Htnd].
  pose proof (sh_terminal _ _ _ HS s tm tnd Hs Htm Htnd) as Hrec.
  assert (word_freq tnd = S (cnt s)) as Hf.
  { rewrite Hrec. simpl. apply bump_same. }
  destruct (seed_pass_spec tm tnd P h1) as (ha & Hrun & Hfr & Hterm & Hpt).
  { by eapply path_sorted. }
  { by erewrite path_last. }
  { done. }
  { intros a Ha. apply lookup_lt_is_Some_2.
    apply (path_elem h1 s P Htr) in Ha as [(p & _ & Hp)|Hp];
      by eapply node_lt. }
  (* every node is unchanged or seeded *)
  assert (forall n nd, h1 !! n = Some nd ->
            ha !! n = Some nd \/
            exists b, (n, b) ∈ pairs P /\ ha !! n = Some (seeded (word_freq tnd) b nd))
    as Hcases.
  { intros n nd Hn. destruct (decide (n ∈ P)) as [Hin|Hnin].
    - apply (path_elem h1 s P Htr) in Hin as [(p & Hp & Hat)|Hat].
      + destruct (path_node h1 s P Htr p n Hp Hat) as (b & Hb & _).
        right. exists b. split; [done|]. by apply Hpt.
      + left. assert (n = tm) as -> by congruence. congruence.
    - left. rewrite Hfr; done. }
  assert (forall n nd, h1 !! n = Some nd ->
          exists nd', ha !! n = Some nd' /\ char nd' = char nd /\
                      word nd' = word nd /\ links nd' = links nd) as Hfld.
  { intros n nd Hn. destruct (Hcases n nd Hn) as [H|(b & _ & H)].
    - eauto.
    - eexists. split; [done|].
      by rewrite seeded_char, seeded_word, seeded_links. }
  assert (length ha = length h1) as Hlen.
  { destruct (Nat.lt_trichotomy (length ha) (length h1)) as [Hlt|[?|Hlt]]; [|done|].
    - destruct (lookup_lt_is_Some_2 h1 (length ha) Hlt) as [nd Hnd].
      destruct (Hfld _ _ Hnd) as (nd' & Hnd' & _).
      apply lookup_lt_Some in Hnd'. lia.
    - destruct (lookup_lt_is_Some_2 ha (length h1) Hlt) as [nd Hnd].
      rewrite Hfr in Hnd.
      + apply lookup_lt_Some in Hnd. lia.
      + intros Hin. apply (path_elem h1 s P Htr) in Hin as [(p & _ & Hp)|Hp];
          apply (node_lt _ _ _ W) in Hp; lia. }
  assert (same_links h1 ha) as Hsl.
  { intros n. destruct (h1 !! n) as [nd|] eqn:E.
    - destruct (Hfld n nd E) as (nd' & -> & _ & _ & Hl). simpl. by rewrite Hl.
    - rewrite (lookup_ge_None_2 ha); [done|].
      apply lookup_ge_None_1 in E. lia. }
  exists ha. split; [done|]. split; [done|]. split; [|split; [|done]].
  - intros p n nd_a Hp Hn Hnd_a.
    unfold node_at in Hn. rewrite (same_links_walk h1 ha) in Hn by done.
    pose proof (node_lt _ _ _ W Hn) as Hnlt.
    destruct (lookup_lt_is_Some_2 h1 n Hnlt) as [nd Hnd].
    pose proof (HC p n nd Hp Hn Hnd) as Hok.
    split.
    + intros Hps.
      destruct (path_node h1 s P Htr p n Hps Hn) as (b & Hb & Hc).
      rewrite (Hpt _ _ _ Hb Hnd) in Hnd_a. simplify_eq.
      apply child_Some in Hc as (nd' & Hnd' & Hl). simplify_eq.
      destruct Hok as [(Hnone & Hbc & Hwf)|(t & m & Hbest & Hwf & Hbc & Hl')].
      * left. unfold seeded. rewrite Hbc. simpl.
        split; [done|]. split; [done|]. eauto.
      * right. unfold seeded. rewrite Hbc. eauto 10.
    + intros Hps. rewrite Hfr in Hnd_a.
      * by simplify_eq.
      * by eapply (path_off h1 s P).
  - intros n Hn. destruct (h1 !! n) as [nd|] eqn:Hnd.
    + destruct (Hcases n nd Hnd) as [H|(b & Hb & H)]; [done|].
      exfalso. apply Hn. clear -Hb.
      apply list_elem_of_lookup in Hb as [i Hi].
      pose proof (lookup_lt_Some _ _ _ Hi) as Hlt. rewrite pairs_length in Hlt.
      apply pairs_lookup_inv in Hi as [Ha _].
      apply (list_elem_of_lookup_2 _ i).
      rewrite removelast_firstn_len. rewrite lookup_take_lt by lia. done.
    + apply lookup_ge_None_2. apply lookup_ge_None_1 in Hnd. lia.
Qed.

(** ** The comparison pass and the fixup on the path of an insertion *)

Lemma removelast_pairs P n : n ∈ removelast P <-> exists b, (n, b) ∈ pairs P.
Proof.
  induction P as [|a P IH]; simpl.
  { split; [by intros ?%elem_of_nil | by intros [b ?%elem_of_nil]]. }
  destruct P as [|b P].
  { split; [by intros ?%elem_of_nil | by intros [b ?%elem_of_nil]]. }
  rewrite pairs_cons, elem_of_cons, IH. split.
  - intros [->|[b' Hb']]; [exists b; by left | exists b'; by right].
  - intros [b' [?|Hb']%elem_of_cons]; [left; congruence | right; eauto].
Qed.

(** What the comparison pass reads at a node of the path. *)
Lemma path_reading cnt s h P a b :
  WF h -> Shape h (bump cnt s) [] -> Seeded h cnt s -> lowercase s ->
  trace h 0 (addr s ++ [0]) = Some P -> (a, b) ∈ pairs P ->
  exists p nd bc bnd cnd,
    p `prefix_of` s /\ node_at h p = Some a /\ h !! a = Some nd /\
    best_child nd = Some bc /\ a < bc /\ h !! bc = Some bnd /\
    h !! b = Some cnd /\ links nd !! next_slot p s = Some (Some b) /\
    char cnd = next_char p s /\
    (((forall t, p `prefix_of` t -> cnt t = 0) /\
      word_freq nd = S (cnt s) /\ best_child nd = Some b /\
      word_freq bnd = S (cnt s) /\ char bnd = next_char p s)
     \/
     (exists t m, best_of cnt p t /\ word_freq nd = cnt t /\
                  best_child nd = Some m /\
                  links nd !! next_slot p t = Some (Some m) /\
                  char bnd = next_char p t /\
                  word_freq bnd
                  = if decide (p = s /\ t = s) then S (cnt s) else cnt t)).
Proof.
  intros W HS HSd Hs Htr Hin.
  destruct (path_pair h s P Htr a b Hin) as (p & Hps & Hat & Hc).
  pose proof (lowercase_prefix _ _ Hps Hs) as Hp.
  pose proof (wf_up _ W _ _ _ Hc) as [Hab Hblt].
  destruct (lookup_lt_is_Some_2 h b Hblt) as [cnd Hcnd].
  pose proof Hc as Hc'. apply child_Some in Hc' as (nd & Hnd & Hl).
  destruct (child_towards h (bump cnt s) p s a b cnd W HS Hs Hps Hat Hc Hcnd)
    as (Hcchar & Hcnext).
  assert (forall t, 0 < cnt t -> lowercase t) as Hlow.
  { intros t Ht. apply (sh_lower _ _ _ HS). apply bump_pos. tauto. }
  (* the cached count of an inner node through which a best completion runs *)
  assert (forall q t n ndq, lowercase q -> node_at h q = Some n -> h !! n = Some ndq ->
            best_of cnt q t -> word_freq ndq = cnt t) as Hinner.
  { intros q t n ndq Hq Hn Hndq Hbest.
    destruct (HSd q n ndq Hq Hn Hndq) as [Hon Hoff].
    assert (cache_ok cnt q ndq \/ seed_ok cnt s q ndq) as Hok.
    { destruct (decide (q `prefix_of` s)); [right; by apply Hon | left; by apply Hoff]. }
    pose proof Hbest as (Hpos & Hqt & _).
    destruct Hok as [[(Hnone & _)|(t' & m' & Hb' & Hw' & _)]
                    |[(Hnone & _)|(t' & m' & Hb' & Hw' & _)]].
    - rewrite Hnone in Hpos by done. lia.
    - by rewrite (best_of_unique _ _ _ _ Hbest Hb').
    - rewrite Hnone in Hpos by done. lia.
    - by rewrite (best_of_unique _ _ _ _ Hbest Hb'). }
  destruct (HSd p a nd Hp Hat Hnd) as [Hon _].
  destruct (Hon Hps) as [(Hnone & Hwf & c & Hbc & Hlc)|(t & m & Hbest & Hwf & Hbc & Hlm)].
  - (* a new node *)
    assert (c = b) as -> by congruence.
    exists p, nd, b, cnd, cnd. repeat (split; [done|]).
    left. repeat (split; [done|]). split; [|done].
    destruct Hcnext as [[-> Hw]|(ch & Hpch & Hatb)].
    + by rewrite Hw, bump_same.
    + destruct (HSd (p ++ [ch]) b cnd) as [Hon' _];
        [by eapply lowercase_prefix|done..|].
      destruct (Hon' Hpch) as [(_ & Hw & _)|(t' & m' & (Hpos & Hpt & _) & _)];
        [done|].
      rewrite Hnone in Hpos; [lia|]. etrans; [|done]. by apply prefix_app_r.
  - (* an old node *)
    pose proof Hbest as (Hpos & Hpt & _).
    pose proof (Hlow _ Hpos) as Ht.
    assert (child h a (next_slot p t) = Some m) as Hcm by (apply child_Some; eauto).
    pose proof (wf_up _ W _ _ _ Hcm) as [Ham Hmlt].
    destruct (lookup_lt_is_Some_2 h m Hmlt) as [bnd Hbnd].
    assert (lowercase t) as Ht' by done.
    assert (Shape h (bump cnt s) []) as HS' by done.
    destruct (child_towards h (bump cnt s) p t a m bnd W HS' Ht' Hpt Hat Hcm Hbnd)
      as (Hbchar & Hbnext).
    exists p, nd, m, bnd, cnd. repeat (split; [done|]).
    right. exists t, m. repeat (split; [done|]).
    destruct Hbnext as [[-> Hw]|(ch & Hpch & Hatm)].
    + rewrite Hw. destruct (decide (t = s)) as [->|Hne].
      * rewrite decide_True by done. apply bump_same.
      * rewrite decide_False by tauto. by apply bump_other.
    + rewrite decide_False.
      2:{ intros [-> ->]. by apply prefix_snoc_not in Hpch. }
      eapply Hinner; [by eapply lowercase_prefix|done..|].
      eapply best_of_deeper; [done| |done]. by apply prefix_app_r.
Qed.

Lemma compare_stage cnt s ha P pk :
  WF ha -> Shape ha (bump cnt s) [] -> Seeded ha cnt s -> lowercase s ->
  trace ha 0 (addr s ++ [0]) = Some P -> node_at ha s = Some pk ->
  exists hc hb,
    run_pairs (compare_pair (S (cnt s))) (pairs P) ha = Some hc
    /\ fixup (S (cnt s)) hc pk = Some hb
    /\ same_links ha hb /\ Cached hb (bump cnt s)
    /\ (forall n, n ∉ removelast P -> hb !! n = ha !! n)
    /\ (forall n nd, ha !! n = Some nd ->
          exists nd', hb !! n = Some nd' /\ char nd' = char nd /\
                      word nd' = word nd /\ links nd' = links nd).
Proof.
  intros W HS HSd Hs Htr Hpk.
  assert (forall t, 0 < cnt t -> lowercase t) as Hlow.
  { intros t Ht. apply (sh_lower _ _ _ HS). apply bump_pos. tauto. }
  destruct (compare_pass_spec (S (cnt s)) P ha) as (hc & Hrun & Hfr & Hpt).
  { by eapply path_sorted. }
  { intros a b Hin.
    destruct (path_reading cnt s ha P a b W HS HSd Hs Htr Hin)
      as (p & nd & bc & bnd & cnd & _ & _ & H1 & H2 & H3 & H4 & H5 & _).
    eauto 10. }
  destruct (path_node ha s P Htr s pk) as (tm & Hpktm & _); [done..|].
  (* the node of every pair after the comparison pass *)
  assert (forall a b, (a, b) ∈ pairs P ->
            exists p nd bnd,
              node_at ha p = Some a /\ p `prefix_of` s /\ ha !! a = Some nd /\
              hc !! a = Some (compared (S (cnt s)) b (next_char p s)
                                (word_freq bnd) (char bnd) nd) /\
              cache_ok (bump cnt s) p
                (if decide (p = s)
                 then fixed (S (cnt s))
                        (compared (S (cnt s)) b (next_char p s)
                           (word_freq bnd) (char bnd) nd)
                 else compared (S (cnt s)) b (next_char p s)
                        (word_freq bnd) (char bnd) nd)) as Hpair.
  { intros a b Hin.
    destruct (path_reading cnt s ha P a b W HS HSd Hs Htr Hin)
      as (p & nd & bc & bnd & cnd & Hps & Hat & Hnd & Hbc & Habc & Hbnd & Hcnd
          & Hl & Hcc & Hread).
    exists p, nd, bnd. split; [done|]. split; [done|]. split; [done|].
    split.
    - rewrite <- Hcc. by eapply Hpt.
    - by apply repair_node_ok. }
  destruct (Hpair pk tm Hpktm) as (p0 & ndk & bndk & Hp0 & Hp0s & Hndk & Hck & Hok0).
  assert (p0 = s) as ->.
  { apply addr_inj; [by eapply lowercase_prefix|done|by eapply walk_inj]. }
  rewrite decide_True in Hok0 by done.
  set (hb := <[pk := fixed (S (cnt s))
                      (compared (S (cnt s)) tm (next_char s s)
                         (word_freq bndk) (char bndk) ndk)]> hc).
  assert (fixup (S (cnt s)) hc pk = Some hb) as Hfix by (by apply fixup_eq).
  assert (pk < length hc) as Hpklt by (by eapply lookup_lt_Some).
  (* every node is unchanged, compared, or compared and fixed *)
  assert (forall n nd, ha !! n = Some nd ->
            exists nd', hb !! n = Some nd' /\ char nd' = char nd /\
                        word nd' = word nd /\ links nd' = links nd) as Hfld.
  { intros n nd Hn. destruct (decide (n ∈ removelast P)) as [Hin|Hnin].
    - apply removelast_pairs in Hin as [b Hb].
      destruct (Hpair n b Hb) as (p & nd' & bnd & _ & _ & Hnd' & Hc & _).
      simplify_eq. destruct (decide (n = pk)) as [->|Hne].
      + unfold hb. rewrite list_lookup_insert_eq by done. eexists. split; [done|].
        simplify_eq.
        by rewrite fixed_char, fixed_word, fixed_links,
                   compared_char, compared_word, compared_links.
      + unfold hb. rewrite list_lookup_insert_ne by done. eexists. split; [done|].
        by rewrite compared_char, compared_word, compared_links.
    - exists nd. split; [|done]. unfold hb. rewrite list_lookup_insert_ne.
      + by rewrite Hfr.
      + intros <-. apply Hnin. apply removelast_pairs. eauto. }
  assert (length hb = length ha) as Hlen.
  { unfold hb. rewrite length_insert.
    destruct (Nat.lt_trichotomy (length hc) (length ha)) as [Hlt|[?|Hlt]]; [|done|].
    - destruct (lookup_lt_is_Some_2 ha (length hc) Hlt) as [nd Hnd].
      destruct (Hfld _ _ Hnd) as (nd' & Hnd' & _).
      apply lookup_lt_Some in Hnd'. unfold hb in Hnd'.
      rewrite length_insert in Hnd'. lia.
    - destruct (lookup_lt_is_Some_2 hc (length ha) Hlt) as [nd Hnd].
      rewrite Hfr in Hnd.
      + apply lookup_lt_Some in Hnd. lia.
      + intros Hin%elem_of_removelast.
        apply (path_elem ha s P Htr) in Hin as [(p & _ & Hp)|Hp];
          apply (node_lt _ _ _ W) in Hp; lia. }
  assert (same_links ha hb) as Hsl.
  { intros n. destruct (ha !! n) as [nd|] eqn:E.
    - destruct (Hfld n nd E) as (nd' & -> & _ & _ & Hl). simpl. by rewrite Hl.
    - rewrite (lookup_ge_None_2 hb); [done|].
      apply lookup_ge_None_1 in E. lia. }
  exists hc, hb. split; [done|]. split; [done|]. split; [done|].
  split; [|split; [|done]].
  - intros p n nd_b Hp Hn Hnd_b.
    unfold node_at in Hn. rewrite (same_links_walk ha hb) in Hn by done.
    destruct (decide (p `prefix_of` s)) as [Hps|Hps].
    + destruct (decide (p = s)) as [->|Hne].
      * assert (n = pk) as -> by (unfold node_at in *; congruence).
        unfold hb in Hnd_b. rewrite list_lookup_insert_eq in Hnd_b by done.
        by simplify_eq.
      * destruct (path_node ha s P Htr p n Hps Hn) as (b & Hb & _).
        destruct (Hpair n b Hb) as (p' & nd & bnd & Hat' & Hps' & Hnd & Hc & Hok).
        assert (p' = p) as ->.
        { apply addr_inj; [by eapply lowercase_prefix|done|by eapply walk_inj]. }
        rewrite decide_False in Hok by done.
        assert (n <> pk) as Hne'.
        { intros ->. apply Hne. apply addr_inj; [done..|]. by eapply walk_inj. }
        unfold hb in Hnd_b. rewrite list_lookup_insert_ne in Hnd_b by done.
        by simplify_eq.
    + assert (n ∉ P) as Hnin by (by eapply (path_off ha s P)).
      assert (n <> pk) as Hne.
      { intros ->. apply Hps. replace p with s; [done|].
        apply addr_inj; [done..|]. by eapply walk_inj. }
      unfold hb in Hnd_b. rewrite list_lookup_insert_ne in Hnd_b by done.
      rewrite Hfr in Hnd_b by (by intros ?%elem_of_removelast).
      apply cache_ok_bump_off; [done|].
      by apply (HSd p n nd_b Hp Hn Hnd_b).
  - intros n Hn. unfold hb. rewrite list_lookup_insert_ne.
    + by apply Hfr.
    + intros <-. apply Hn. apply removelast_pairs. eauto.
Qed.

(** ** The repair restores the cache *)

Lemma repair_spec cnt s h1 P :
  WF h1 -> Shape h1 (bump cnt s) [] -> Cached h1 cnt -> lowercase s ->
  trace h1 0 (addr s ++ [0]) = Some P ->
  exists h2,
    repair_all h1 P = Some h2
    /\ WF h2 /\ Shape h2 (bump cnt s) [] /\ Cached h2 (bump cnt s)
    /\ same_links h1 h2
    /\ (forall n, n ∉ removelast P -> h2 !! n = h1 !! n)
    /\ (forall n nd, h1 !! n = Some nd ->
          exists nd', h2 !! n = Some nd' /\ char nd' = char nd /\
                      word nd' = word nd /\ links nd' = links nd).
Proof.
  intros W HS HC Hs Htr.
  pose proof (path_length h1 s P Htr) as Hlen.
  pose proof (path_last h1 s P Htr) as Hlast.
  pose proof (path_last2 h1 s P Htr) as Hlast2.
  destruct (last P) as [tm|] eqn:Hl.
  2:{ apply last_None in Hl. subst P. simpl in Hlen. lia. }
  destruct (last (removelast P)) as [pk|] eqn:Hl2.
  2:{ apply last_None in Hl2. apply (f_equal length) in Hl2.
      rewrite removelast_firstn_len, length_take in Hl2. simpl in Hl2. lia. }
  symmetry in Hlast, Hlast2.
  assert (forall h', same_links h1 h' ->
            (forall n, n ∉ removelast P -> h' !! n = h1 !! n) ->
            forall p m, terminal_at h1 p = Some m -> h' !! m = h1 !! m) as Hterm.
  { intros h' Hsl Hfr p m Hm. apply Hfr.
    intros [b Hb]%removelast_pairs.
    destruct (path_pair h1 s P Htr m b Hb) as (q & Hq & Hat & _).
    apply (addr_terminal_neq q p); [by eapply lowercase_prefix|].
    by eapply walk_inj. }
  (* the initialization pass *)
  destruct (seed_stage cnt s h1 P tm W HS HC Hs Htr Hlast)
    as (ha & Hruna & Hsla & HSda & Hfra & Hflda).
  pose proof (same_links_WF _ _ Hsla W) as Wa.
  assert (Shape ha (bump cnt s) []) as HSa.
  { eapply Shape_frame; [done| |by apply Hterm|done].
    intros n nd Hn. destruct (Hflda n nd Hn) as (nd' & ? & ? & ? & _). eauto. }
  assert (trace ha 0 (addr s ++ [0]) = Some P) as Htra.
  { by rewrite (trace_same_links h1). }
  assert (node_at ha s = Some pk) as Hpka.
  { unfold node_at. by rewrite (same_links_walk h1). }
  pose proof (node_lt _ _ _ W Hlast) as Htmlt.
  destruct (lookup_lt_is_Some_2 h1 tm Htmlt) as [tnd Htnd].
  assert (ha !! tm = Some tnd) as Htnda.
  { by rewrite (Hterm ha Hsla Hfra s tm Hlast). }
  assert (word_freq tnd = S (cnt s)) as Hf.
  { rewrite (sh_terminal _ _ _ HS s tm tnd Hs Hlast Htnd). simpl. apply bump_same. }
  (* the comparison pass and the fixup *)
  destruct (compare_stage cnt s ha P pk Wa HSa HSda Hs Htra Hpka)
    as (hc & hb & Hrunc & Hfix & Hslb & HCb & Hfrb & Hfldb).
  exists hb. split.
  { unfold repair_all, repair. rewrite Hl, Hl2, Hruna, Htnda, Hf, Hrunc. done. }
  assert (same_links h1 hb) as Hsl by (by eapply same_links_trans).
  assert (forall n, n ∉ removelast P -> hb !! n = h1 !! n) as Hfr.
  { intros n Hn. by rewrite Hfrb, Hfra. }
  split; [by eapply same_links_WF|]. split; [|split; [done|split; [done|split; [done|]]]].
  - eapply Shape_frame; [exact Hslb| | |exact HSa].
    + intros n nd Hn. destruct (Hfldb n nd Hn) as (nd' & ? & ? & ? & _). eauto.
    + intros p m Hm. apply Hfrb.
      unfold terminal_at in Hm. rewrite (same_links_walk h1 ha) in Hm by done.
      intros [b Hb]%removelast_pairs.
      destruct (path_pair h1 s P Htr m b Hb) as (q & Hq & Hat & _).
      apply (addr_terminal_neq q p); [by eapply lowercase_prefix|].
      by eapply (walk_inj h1).
  - intros n nd Hn. destruct (Hflda n nd Hn) as (nd1 & Hn1 & Hc1 & Hw1 & Hl1).
    destruct (Hfldb n nd1 Hn1) as (nd2 & Hn2 & Hc2 & Hw2 & Hl2').
    exists nd2. split; [done|]. by rewrite Hc2, Hw2, Hl2'.
Qed.

(** ** One insertion *)

Lemma insert_spec cnt s h ntu0 :
  WF h -> Shape h cnt [] -> Cached h cnt -> lowercase s ->
  exists h' P,
    insert_iterative s (mkTrie h 0 ntu0)
    = (Ok tt, mkTrie h' 0 (Some (Some <$> P)))
    /\ WF h' /\ Shape h' (bump cnt s) [] /\ Cached h' (bump cnt s)
    /\ trace h' 0 (addr s ++ [0]) = Some P
    /\ (forall n, n ∉ P -> h' !! n = h !! n)
    /\ (0 < cnt s ->
        same_links h h' /\
        exists tm tnd, terminal_at h s = Some tm /\ h !! tm = Some tnd /\
          h' !! tm = Some (with_word (Some s)
                             (with_word_freq (word_freq tnd + 1) tnd))).
Proof.
  intros W HS HC Hs.
  destruct (insert_path_spec cnt s h ntu0 W HS HC Hs)
    as (h1 & P & Hrun & W1 & HS1 & HC1 & Htr & Hfr & Hold).
  destruct (repair_spec cnt s h1 P W1 HS1 HC1 Hs Htr)
    as (h2 & Hrep & W2 & HS2 & HC2 & Hsl & Hfr2 & Hfld).
  exists h2, P. split.
  { unfold insert_iterative. erewrite bind_eq by exact Hrun.
    by apply update_nodes_repair. }
  split; [done|]. split; [done|]. split; [done|].
  split; [by rewrite (trace_same_links h1)|]. split.
  - intros n Hn. rewrite Hfr2; [by apply Hfr|].
    by intros ?%elem_of_removelast.
  - intros Hpos. destruct (Hold Hpos) as (tm & tnd & Htm & Htnd & ->).
    split.
    + eapply same_links_trans; [|done]. by eapply same_links_insert.
    + exists tm, tnd. split; [done|]. split; [done|].
      rewrite Hfr2.
      * apply list_lookup_insert_eq. by eapply lookup_lt_Some.
      * intros [b Hb]%removelast_pairs.
        destruct (path_pair _ s P Htr tm b Hb) as (q & Hq & Hat & _).
        apply (addr_terminal_neq q s); [by eapply lowercase_prefix|].
        eapply walk_inj; [exact W1|exact Hat|].
        assert (same_links h (<[tm:=with_word (Some s)
                                    (with_word_freq (word_freq tnd + 1) tnd)]> h))
          as Hsl' by (by eapply same_links_insert).
        by rewrite (same_links_walk h).
Qed.

(** ** Counting occurrences *)

Lemma occ_nil s : occ [] s = 0.
Proof. done. Qed.

Lemma occ_cons L x s : occ (x :: L) s = (if decide (x = s) then 1 else 0) + occ L s.
Proof. unfold occ. rewrite filter_cons. by case_decide. Qed.

Lemma occ_app L1 L2 s : occ (L1 ++ L2) s = occ L1 s + occ L2 s.
Proof. unfold occ. by rewrite filter_app, length_app. Qed.

Lemma occ_snoc L s x : occ (L ++ [s]) x = bump (occ L) s x.
Proof.
  rewrite occ_app, occ_cons, occ_nil. unfold bump.
  destruct (decide (s = x)) as [->|Hne].
  - rewrite decide_True by done. lia.
  - rewrite decide_False by done. lia.
Qed.

Lemma occ_pos L s : 0 < occ L s <-> s ∈ L.
Proof.
  induction L as [|x L IH].
  - rewrite occ_nil. split; [lia | by intros ?%elem_of_nil].
  - rewrite occ_cons, elem_of_cons. case_decide; [|rewrite <- IH; split; [tauto|]].
    + split; [by left | lia].
    + intros [->|?]; [done | lia].
Qed.

Lemma occ_perm L1 L2 s : L1 ≡ₚ L2 -> occ L1 s = occ L2 s.
Proof. intros H. unfold occ. by rewrite H. Qed.

(** ** The invariant depends on the counts only *)

Lemma best_of_ext cnt cnt' p t :
  (forall x, cnt x = cnt' x) -> best_of cnt p t -> best_of cnt' p t.
Proof.
  intros He (H1 & H2 & H3). unfold best_of, beats. rewrite <- He.
  split; [done|]. split; [done|]. intros t'. rewrite <- !He. apply H3.
Qed.

Lemma cache_ok_ext cnt cnt' p nd :
  (forall x, cnt x = cnt' x) -> cache_ok cnt p nd -> cache_ok cnt' p nd.
Proof.
  intros He [(H1 & H2)|(t & m & H1 & H2 & H3)].
  - left. split; [|done]. intros t Ht. rewrite <- He. by apply H1.
  - right. exists t, m. split; [by eapply best_of_ext|]. by rewrite <- He.
Qed.

Lemma Cached_ext h cnt cnt' :
  (forall x, cnt x = cnt' x) -> Cached h cnt -> Cached h cnt'.
Proof. intros He HC p n nd Hp Hn Hnd. eapply cache_ok_ext; [done|]. by eapply HC. Qed.

Lemma Shape_ext h cnt cnt' x :
  (forall x, cnt x = cnt' x) -> Shape h cnt x -> Shape h cnt' x.
Proof.
  intros He [S1 S2 S3 S4]. split.
  - intros s. rewrite <- He. apply S1.
  - intros p Hp. rewrite S2 by done.
    split; (intros [?|[(s & Hs & ?)|?]]; [tauto| |tauto]); right; left; exists s.
    + by rewrite <- He.
    + by rewrite He.
  - intros p n nd Hp Hn Hnd. rewrite <- He. by eapply S3.
  - intros p m nd Hp Hm Hnd. rewrite <- He. by eapply S4.
Qed.

(** ** The constructor *)

Lemma root_only_child n j : child [Node_init "R"] n j = None.
Proof.
  destruct (child [Node_init "R"] n j) as [m|] eqn:H; [|done]. exfalso.
  apply child_Some in H as (nd & Hnd & Hl).
  destruct n as [|n]; [|done]. simpl in Hnd. simplify_eq.
  change (links (Node_init "R")) with (replicate 27 (@None nat)) in Hl.
  by apply lookup_replicate in Hl as [? _].
Qed.

Lemma root_only_WF : WF [Node_init "R"].
Proof.
  split.
  - simpl. lia.
  - intros n nd H. destruct n as [|n]; [|done]. simpl in H. by simplify_eq.
  - intros n j m H. by rewrite root_only_child in H.
  - intros n n' j j' m H. by rewrite root_only_child in H.
Qed.

Lemma root_only_walk p n :
  walk [Node_init "R"] 0 p = Some n -> p = [] /\ n = 0.
Proof.
  destruct p as [|j p]; cbn [walk]; [by intros ?; simplify_eq|].
  by rewrite root_only_child.
Qed.

Lemma root_only_Shape : Shape [Node_init "R"] (occ []) [].
Proof.
  split.
  - intros s. rewrite occ_nil. lia.
  - intros p Hp. split.
    + intros [n Hn]. apply root_only_walk in Hn as [Hp' _].
      left. by destruct p.
    + intros [->|[(s & Hs & _)|Hp']].
      * by exists 0.
      * rewrite occ_nil in Hs. lia.
      * apply prefix_nil_inv in Hp' as ->. by exists 0.
  - intros p n nd Hp Hn Hnd. apply root_only_walk in Hn as [Hp' ->].
    destruct p; [|done]. simpl in Hnd. simplify_eq. rewrite occ_nil.
    split; [done|]. split; [done|]. split; [|lia].
    intros [m Hm]. by rewrite root_only_child in Hm.
  - intros p m nd Hp Hm. apply root_only_walk in Hm as [Hp' _].
    by destruct (addr p).
Qed.

Lemma root_only_Cached : Cached [Node_init "R"] (occ []).
Proof.
  intros p n nd Hp Hn Hnd. apply root_only_walk in Hn as [Hp' ->].
  simpl in Hnd. simplify_eq. left. done.
Qed.

Lemma insert_all_spec L :
  forall L0 h ntu,
    WF h -> Shape h (occ L0) [] -> Cached h (occ L0) -> Forall lowercase L ->
    exists h' ntu',
      for_each L insert_iterative (mkTrie h 0 ntu) = (Ok tt, mkTrie h' 0 ntu')
      /\ WF h' /\ Shape h' (occ (L0 ++ L)) [] /\ Cached h' (occ (L0 ++ L)).
Proof.
  induction L as [|s L IH]; intros L0 h ntu W HS HC HL.
  { exists h, ntu. rewrite app_nil_r. done. }
  apply Forall_cons in HL as [Hs HL].
  destruct (insert_spec (occ L0) s h ntu W HS HC Hs)
    as (h1 & P & Hrun & W1 & HS1 & HC1 & _).
  destruct (IH (L0 ++ [s]) h1 (Some (Some <$> P)) W1) as (h' & ntu' & Hrun' & H');
    [|by eapply Cached_ext; [|exact HC1]; intros x; rewrite occ_snoc|done|].
  { eapply Shape_ext; [|exact HS1]. intros x. by rewrite occ_snoc. }
  exists h', ntu'. rewrite <- app_assoc in H'. split; [|done].
  simpl. by erewrite bind_eq by exact Hrun.
Qed.

Lemma sentences_lowercase L : Forall sentence_ok L -> Forall lowercase L.
Proof. intros H. eapply Forall_impl; [exact H|]. by intros s [_ ?]. Qed.

(** A trie built from lowercase sentences represents them. *)
Lemma build_spec L :
  Forall lowercase L ->
  exists t, CatsTrie_new L = (Ok tt, t) /\ Represents t L.
Proof.
  intros HL.
  destruct (insert_all_spec L [] [Node_init "R"] None)
    as (h' & ntu' & Hrun & W & HS & HC);
    [apply root_only_WF | apply root_only_Shape | apply root_only_Cached | done |].
  exists (mkTrie h' 0 ntu'). split; [|done].
  unfold CatsTrie_new, CatsTrie_init.
  erewrite bind_eq by reflexivity.
  erewrite bind_eq by reflexivity.
  erewrite bind_eq by reflexivity.
  exact Hrun.
Qed.

(** The constructor inserts the sentences one after the other: the trie
    for a longer list is the trie for the shorter one after one more
    insertion. *)
Lemma CatsTrie_new_snoc L s t :
  CatsTrie_new L = (Ok tt, t) ->
  CatsTrie_new (L ++ [s]) = insert_iterative s t.
Proof.
  unfold CatsTrie_new, CatsTrie_init. intros H.
  erewrite bind_eq in H |- * by reflexivity.
  erewrite bind_eq in H |- * by reflexivity.
  erewrite bind_eq in H |- * by reflexivity.
  rewrite for_each_app. erewrite bind_eq by exact H. simpl.
  unfold bind. by destruct (insert_iterative s t) as [[[]| | |] t'].
Qed.

(** ** Running [autoComplete] *)

Lemma prompt_loop_lower h r ntu p :
  WF h -> lowercase p -> forall n, n < length h ->
  prompt_loop p (Some n) (mkTrie h r ntu)
  = (Ok (match walk h n (addr p) with
         | Some m => Some (Some m)
         | None => None
         end), mkTrie h r ntu).
Proof.
  intros W. induction p as [|c p IH]; intros Hp n Hn; [done|].
  apply lowercase_cons in Hp as [Hc Hp].
  destruct (lookup_lt_is_Some_2 h n Hn) as [nd Hnd].
  pose proof (wf_links _ W _ _ Hnd) as Hlen.
  pose proof (slot_lower _ Hc) as Hslot.
  destruct (lookup_lt_is_Some_2 (links nd) (slot c)) as [v Hv]; [lia|].
  cbn [prompt_loop addr map walk].
  erewrite bind_eq.
  2:{ eapply get_link_eq; [done| |done]. rewrite Hlen. by apply index_of_lower. }
  unfold child. rewrite Hnd, Hv. destruct v as [m|]; [|done].
  apply IH; [done|].
  assert (child h n (slot c) = Some m) as Hch by (apply child_Some; eauto).
  by apply (wf_up _ W) in Hch as [_ ?].
Qed.

Lemma lower_not_dollar c : is_lower c = true -> Ascii.eqb c "$" = false.
Proof.
  intros H. apply Ascii.eqb_neq. intros ->. by vm_compute in H.
Qed.

Lemma best_loop_eq fuel current :
  best_loop fuel current
  = (nd <- deref current ;;
     if Ascii.eqb (char nd) "$"%char then ret current
     else match fuel with
          | 0 => out_of_fuel
          | S fuel' => best_loop fuel' (best_child nd)
          end).
Proof. by destruct fuel. Qed.

Lemma best_chain h cnt t :
  WF h -> Shape h cnt [] -> Cached h cnt ->
  forall k p n nd,
    length t = length p + k -> best_of cnt p t ->
    node_at h p = Some n -> h !! n = Some nd ->
    exists tm,
      terminal_at h t = Some tm /\ follow_best h (S k) n = Some tm /\
      forall fuel r ntu, k <= fuel ->
        best_loop fuel (best_child nd) (mkTrie h r ntu)
        = (Ok (Some tm), mkTrie h r ntu).
Proof.
  intros W HS HC. induction k as [|k IH]; intros p n nd Hlen Hbest Hat Hnd.
  - (* the node spelled by the sentence itself *)
    pose proof Hbest as (Hpos & Hpt & _).
    assert (p = t) as ->.
    { destruct Hpt as [x ->]. rewrite length_app in Hlen.
      destruct x; [by rewrite app_nil_r | simpl in Hlen; lia]. }
    pose proof (sh_lower _ _ _ HS _ Hpos) as Ht.
    destruct (HC t n nd Ht Hat Hnd) as [(Hnone & _)|(t' & m & Hb' & Hw & Hbc & Hl)].
    { rewrite Hnone in Hpos by done. lia. }
    rewrite <- (best_of_unique _ _ _ _ Hbest Hb') in Hl.
    unfold next_slot in Hl. rewrite drop_all in Hl.
    assert (child h n 0 = Some m) as Hch by (apply child_Some; eauto).
    assert (terminal_at h t = Some m) as Hterm by (apply walk_snoc; eauto).
    pose proof (node_lt _ _ _ W Hterm) as Hmlt.
    destruct (lookup_lt_is_Some_2 h m Hmlt) as [tnd Htnd].
    pose proof (sh_terminal _ _ _ HS t m tnd Ht Hterm Htnd) as Hrec.
    exists m. split; [done|]. split.
    + simpl. by rewrite Hnd, Hbc.
    + intros fuel r ntu Hf. rewrite best_loop_eq.
      rewrite Hbc. erewrite bind_eq by (by apply deref_eq).
      by rewrite Hrec.
  - pose proof Hbest as (Hpos & Hpt & _).
    pose proof (sh_lower _ _ _ HS _ Hpos) as Ht.
    pose proof (lowercase_prefix _ _ Hpt Ht) as Hp.
    destruct (HC p n nd Hp Hat Hnd) as [(Hnone & _)|(t' & m & Hb' & Hw & Hbc & Hl)].
    { rewrite Hnone in Hpos by done. lia. }
    rewrite <- (best_of_unique _ _ _ _ Hbest Hb') in Hl.
    assert (child h n (next_slot p t) = Some m) as Hch by (apply child_Some; eauto).
    pose proof (wf_up _ W _ _ _ Hch) as [_ Hmlt].
    destruct (lookup_lt_is_Some_2 h m Hmlt) as [bnd Hbnd].
    destruct (child_towards h cnt p t n m bnd W HS Ht Hpt Hat Hch Hbnd)
      as (Hchar & [[-> _]|(ch & Hpch & Hatm)]); [lia|].
    assert (lowercase (p ++ [ch])) as Hlow by (by eapply lowercase_prefix).
    apply lowercase_app in Hlow as [_ [Hch' _]%lowercase_cons].
    assert (char bnd = ch) as Hcb.
    { rewrite Hchar. destruct Hpch as [x ->]. rewrite <- app_assoc.
      by rewrite next_char_app. }
    destruct (IH (p ++ [ch]) m bnd) as (tm & Hterm & Hfb & Hrun); [|
      by eapply best_of_deeper; [|apply prefix_app_r|]|done..|].
    { rewrite length_app. simpl. lia. }
    exists tm. split; [done|]. split.
    + cbn [follow_best]. rewrite Hnd, Hbc. exact Hfb.
    + intros fuel r ntu Hf. destruct fuel as [|fuel]; [lia|]. rewrite best_loop_eq.
      rewrite Hbc. erewrite bind_eq by (by apply deref_eq).
      rewrite Hcb, lower_not_dollar by done. apply Hrun. lia.
Qed.

(** The query on a prompt that has completions. *)
Lemma query_best L t p :
  Represents t L -> (exists s, s ∈ L /\ p `prefix_of` s) ->
  exists s n tm k,
    best_of (occ L) p s /\ node_at (heap t) p = Some n /\
    terminal_at (heap t) s = Some tm /\ follow_best (heap t) k n = Some tm /\
    forall fuel, k <= fuel -> autoComplete fuel p t = (Ok (Some s), t).
Proof.
  intros (Hroot & W & HS & HC) (s0 & Hs0 & Hps0).
  destruct t as [h r ntu]. simpl in *. subst r.
  assert (0 < occ L s0) as Hpos0 by (by apply occ_pos).
  pose proof (sh_lower _ _ _ HS _ Hpos0) as Hs0l.
  pose proof (lowercase_prefix _ _ Hps0 Hs0l) as Hp.
  destruct (proj2 (sh_exists _ _ _ HS p Hp)) as [n Hn]; [right; left; eauto|].
  pose proof (node_lt _ _ _ W Hn) as Hnlt.
  destruct (lookup_lt_is_Some_2 h n Hnlt) as [nd Hnd].
  destruct (HC p n nd Hp Hn Hnd) as [(Hnone & _)|(s & m & Hbest & Hw & Hbc & Hl)].
  { rewrite Hnone in Hpos0 by done. lia. }
  pose proof Hbest as (Hpos & Hps & _).
  destruct (best_chain h (occ L) s W HS HC (length s - length p) p n nd)
    as (tm & Hterm & Hfb & Hrun); [|done..|].
  { apply prefix_length in Hps. lia. }
  pose proof (node_lt _ _ _ W Hterm) as Htmlt.
  destruct (lookup_lt_is_Some_2 h tm Htmlt) as [tnd Htnd].
  pose proof (sh_lower _ _ _ HS _ Hpos) as Hsl.
  pose proof (sh_terminal _ _ _ HS s tm tnd Hsl Hterm Htnd) as Hrec.
  exists s, n, tm, (S (length s - length p)).
  split; [done|]. split; [done|]. split; [done|]. split; [done|].
  intros fuel Hf. unfold autoComplete.
  assert (length s - length p <= fuel) as Hf' by lia.
  erewrite bind_eq by reflexivity.
  erewrite bind_eq.
  2:{ apply prompt_loop_lower; [done..|]. by apply wf_root. }
  unfold node_at in Hn. cbn [root]. rewrite Hn.
  erewrite bind_eq by (by apply deref_eq).
  erewrite bind_eq by (by apply Hrun).
  erewrite bind_eq by (by apply deref_eq).
  by rewrite Hrec.
Qed.

(** The query on a lowercase prompt whose path is absent. *)
Lemma query_absent L t p fuel :
  Represents t L -> lowercase p -> node_at (heap t) p = None ->
  autoComplete fuel p t = (Ok None, t).
Proof.
  intros (Hroot & W & HS & HC) Hp Hn.
  destruct t as [h r ntu]. simpl in *. subst r.
  unfold autoComplete.
  erewrite bind_eq by reflexivity.
  erewrite bind_eq.
  2:{ apply prompt_loop_lower; [done..|]. by apply wf_root. }
  unfold node_at in Hn. cbn [root]. by rewrite Hn.
Qed.

(** ** The model on the examples of the source *)

Example query_more_frequent :
  fst (autoComplete 3 (lit "ab") (trie_of [lit "abc"; lit "abc"; lit "aba"]))
  = Ok (Some (lit "abc")).
Proof. reflexivity. Qed.

Example query_tie :
  fst (autoComplete 3 (lit "ab") (trie_of [lit "abc"; lit "aba"]))
  = Ok (Some (lit "aba")).
Proof. reflexivity. Qed.

Example query_no_match :
  fst (autoComplete 3 (lit "x") (trie_of [lit "abc"])) = Ok None.
Proof. reflexivity. Qed.

Example query_prefix_sentence :
  fst (autoComplete 3 (lit "ca") (trie_of [lit "cat"; lit "car"; lit "care"]))
  = Ok (Some (lit "car")).
Proof. reflexivity. Qed.

(** The scenario of the docstring of [update_nodes]. *)
Example query_docstring_scenario :
  fst (autoComplete 3 (lit "") (trie_of [lit "abc"; lit "aba"; lit "abc"; lit "aba"]))
  = Ok (Some (lit "aba")).
Proof. reflexivity. Qed.

(** With too small a bound the model of the loop gives up. *)
Example query_out_of_fuel :
  fst (autoComplete 1 (lit "") (trie_of [lit "abc"])) = OutOfFuel.
Proof. reflexivity. Qed.

(** A negative index counts from the end of [links]: ['F'] has index -26
    and reads the slot of ['a']. *)
Example query_uppercase_wraps :
  fst (autoComplete 3 (lit "F") (trie_of [lit "abc"])) = Ok (Some (lit "abc")).
Proof. reflexivity. Qed.

(** ** Properties of the queries *)

Lemma built_Represents L t :
  Forall sentence_ok L -> CatsTrie_new L = (Ok tt, t) -> Represents t L.
Proof.
  intros HL Ht. destruct (build_spec L (sentences_lowercase L HL)) as (t' & Ht' & HR).
  congruence.
Qed.

(** C1: on a trie built from non-empty lowercase sentences, the query on
    a prompt that is a prefix of an inserted sentence returns an inserted
    sentence that starts with the prompt, has the highest occurrence count
    among the inserted sentences starting with the prompt, and is not
    lexicographically larger than any sentence tied at that count. *)
Theorem autoComplete_returns_best L p :
  Forall sentence_ok L ->
  (exists s, s ∈ L /\ p `prefix_of` s) ->
  exists t s n,
    CatsTrie_new L = (Ok tt, t) /\
    (forall fuel, n <= fuel -> autoComplete fuel p t = (Ok (Some s), t)) /\
    s ∈ L /\ p `prefix_of` s /\
    (forall s', s' ∈ L -> p `prefix_of` s' -> occ L s' <= occ L s) /\
    (forall s', s' ∈ L -> p `prefix_of` s' -> occ L s' = occ L s ->
                str_ltb s' s = false).
Proof.
  intros HL Hex.
  destruct (build_spec L (sentences_lowercase L HL)) as (t & Ht & HR).
  destruct (query_best L t p HR Hex)
    as (s & n & tm & k & (Hpos & Hps & Hall) & _ & _ & _ & Hrun).
  exists t, s, k. split; [done|]. split; [done|].
  split; [by apply occ_pos|]. split; [done|]. split.
  - intros s' Hs' Hp'. destruct (Hall s') as [?|[? _]]; [by apply occ_pos|done|lia..].
  - intros s' Hs' Hp' Heq.
    destruct (Hall s') as [?|[_ ?]]; [by apply occ_pos|done|lia|done].
Qed.

Lemma autoComplete_returns_best_witness :
  exists t s n,
    CatsTrie_new [lit "abc"; lit "abc"; lit "aba"] = (Ok tt, t) /\
    (forall fuel, n <= fuel ->
       autoComplete fuel (lit "ab") t = (Ok (Some s), t)) /\
    s ∈ [lit "abc"; lit "abc"; lit "aba"] /\ lit "ab" `prefix_of` s /\
    (forall s', s' ∈ [lit "abc"; lit "abc"; lit "aba"] ->
       lit "ab" `prefix_of` s' ->
       occ [lit "abc"; lit "abc"; lit "aba"] s'
       <= occ [lit "abc"; lit "abc"; lit "aba"] s) /\
    (forall s', s' ∈ [lit "abc"; lit "abc"; lit "aba"] ->
       lit "ab" `prefix_of` s' ->
       occ [lit "abc"; lit "abc"; lit "aba"] s'
       = occ [lit "abc"; lit "abc"; lit "aba"] s ->
       str_ltb s' s = false).
Proof.
  apply (autoComplete_returns_best [lit "abc"; lit "abc"; lit "aba"] (lit "ab")).
  - repeat constructor; done.
  - exists (lit "abc"). split; [by left | by exists (lit "c")].
Defined.

(** *** Queries only read *)

Lemma get_link_state r i t : snd (get_link r i t) = t.
Proof.
  unfold get_link, bind, deref, ret, raise.
  destruct r as [n|]; [|done]. destruct (heap t !! n) as [nd|]; [|done].
  destruct (py_pos _ _) as [j|]; [|done]. by destruct (links nd !! j).
Qed.

Lemma deref_state r t : snd (deref r t) = t.
Proof.
  unfold deref. destruct r as [n|]; [|done]. by destruct (heap t !! n).
Qed.

Lemma bind_state {A B} (m : M A) (k : A -> M B) t :
  snd (m t) = t -> (forall a, snd (k a t) = t) -> snd (bind m k t) = t.
Proof.
  intros Hm Hk. unfold bind. destruct (m t) as [[a| | |] t'] eqn:E;
    simpl in Hm; subst t'; [apply Hk|done..].
Qed.

Lemma prompt_loop_state p : forall r t, snd (prompt_loop p r t) = t.
Proof.
  induction p as [|c p IH]; intros r t; [done|]. simpl.
  apply bind_state; [apply get_link_state|].
  intros [m|]; [apply IH | done].
Qed.

Lemma best_loop_state fuel : forall r t, snd (best_loop fuel r t) = t.
Proof.
  induction fuel as [|fuel IH]; intros r t; rewrite best_loop_eq;
    (apply bind_state; [apply deref_state|]);
    intros nd; destruct (Ascii.eqb (char nd) "$"); done.
Qed.

Lemma autoComplete_state fuel p t : snd (autoComplete fuel p t) = t.
Proof.
  unfold autoComplete.
  apply bind_state; [done|]. intros r.
  apply bind_state; [apply prompt_loop_state|]. intros [node|]; [|done].
  apply bind_state; [apply deref_state|]. intros nd.
  apply bind_state; [apply best_loop_state|]. intros cur.
  apply bind_state; [apply deref_state|]. done.
Qed.

(** C9: a query leaves the trie as it found it, whatever the prompt and
    whatever its outcome, and so does any sequence of queries. *)
Theorem autoComplete_read_only t :
  (forall fuel prompt, snd (autoComplete fuel prompt t) = t) /\
  (forall qs, after_queries qs t = t) /\
  (forall qs fuel prompt,
     fst (autoComplete fuel prompt (after_queries qs t))
     = fst (autoComplete fuel prompt t)).
Proof.
  assert (forall qs, after_queries qs t = t) as H.
  { intros qs. unfold after_queries.
    induction qs as [|q qs IH]; [done|]. simpl. by rewrite autoComplete_state. }
  split; [intros; apply autoComplete_state|]. split; [done|].
  intros qs fuel prompt. by rewrite H.
Qed.

(** *** Prompts without completion *)

(** C4, as stated, fails: a prompt with a character beyond ['z'] indexes
    [links] out of range. *)
Lemma absent_prompt_raises :
  let t := snd (CatsTrie_new [lit "abc"]) in
  fst (CatsTrie_new [lit "abc"]) = Ok tt /\
  (forall s, s ∈ [lit "abc"] -> ~ lit "{" `prefix_of` s) /\
  walk (heap t) (root t) (addr (lit "{")) = None /\
  forall fuel, fst (autoComplete fuel (lit "{") t) = Raise IndexError.
Proof.
  split; [done|]. split; [|split; [done|]].
  - intros s ->%list_elem_of_singleton [k Hk]. done.
  - intros fuel. by vm_compute.
Qed.

(** C4 (amended): on a trie built from non-empty lowercase sentences, a
    prompt of lowercase letters whose literal path is absent makes the
    query return [None], without fault and whatever the loop bound. *)
Theorem absent_lowercase_prompt_returns_None L t p fuel :
  Forall sentence_ok L -> CatsTrie_new L = (Ok tt, t) ->
  lowercase p -> walk (heap t) (root t) (addr p) = None ->
  autoComplete fuel p t = (Ok None, t).
Proof.
  intros HL Ht Hp Hn. pose proof (built_Represents L t HL Ht) as HR.
  eapply query_absent; [done..|].
  destruct HR as (Hr & _). unfold node_at. by rewrite <- Hr.
Qed.

Lemma absent_lowercase_prompt_returns_None_witness :
  autoComplete 5 (lit "x") (snd (CatsTrie_new [lit "abc"]))
  = (Ok None, snd (CatsTrie_new [lit "abc"])).
Proof.
  apply (absent_lowercase_prompt_returns_None [lit "abc"]).
  - repeat constructor; done.
  - reflexivity.
  - repeat constructor.
  - reflexivity.
Defined.

(** *** Termination of the query *)

(** C5, as stated, fails: on the trie built from no sentence the empty
    prompt stays at the root, which has no best child. *)
Lemma empty_trie_query_raises :
  let t := snd (CatsTrie_new []) in
  fst (CatsTrie_new []) = Ok tt /\
  walk (heap t) (root t) (addr []) = Some (root t) /\
  forall fuel, fst (autoComplete fuel [] t) = Raise AttributeError.
Proof.
  split; [done|]. split; [done|]. intros fuel. destruct fuel; reflexivity.
Qed.

(** C5 (amended): on a trie built from a non-empty list of non-empty
    lowercase sentences, for every lowercase prompt whose literal path
    exists, the chain of [best_child] links from the node reached by the
    prompt arrives at a terminal node after finitely many steps, and with
    at least that many iterations allowed the query returns an inserted
    sentence. *)
Theorem autoComplete_terminates L t p n :
  Forall sentence_ok L -> L <> [] -> CatsTrie_new L = (Ok tt, t) ->
  lowercase p -> walk (heap t) (root t) (addr p) = Some n ->
  exists k tm tnd s,
    follow_best (heap t) k n = Some tm /\
    heap t !! tm = Some tnd /\ char tnd = "$"%char /\ word tnd = Some s /\
    s ∈ L /\
    forall fuel, k <= fuel -> autoComplete fuel p t = (Ok (Some s), t).
Proof.
  intros HL Hne Ht Hp Hn. pose proof (built_Represents L t HL Ht) as HR.
  pose proof HR as (Hr & W & HS & HC). rewrite Hr in Hn.
  assert (exists s, s ∈ L /\ p `prefix_of` s) as Hex.
  { destruct (proj1 (sh_exists _ _ _ HS p Hp)) as [->|[(s & Hs & Hps)|Hps]].
    - by exists n.
    - destruct L as [|s L]; [done|]. exists s. split; [by left | apply prefix_nil].
    - exists s. split; [by apply occ_pos | done].
    - apply prefix_nil_inv in Hps as ->.
      destruct L as [|s L]; [done|]. exists s. split; [by left | apply prefix_nil]. }
  destruct (query_best L t p HR Hex)
    as (s & n' & tm & k & (Hpos & Hps & _) & Hn' & Hterm & Hfb & Hrun).
  assert (n' = n) as -> by (unfold node_at in Hn'; congruence).
  pose proof (node_lt _ _ _ W Hterm) as Htmlt.
  destruct (lookup_lt_is_Some_2 _ _ Htmlt) as [tnd Htnd].
  pose proof (sh_lower _ _ _ HS _ Hpos) as Hsl.
  pose proof (sh_terminal _ _ _ HS s tm tnd Hsl Hterm Htnd) as Hrec.
  exists k, tm, tnd, s. split; [done|]. split; [done|].
  rewrite Hrec. split; [done|]. split; [done|]. split; [by apply occ_pos | done].
Qed.

Lemma autoComplete_terminates_witness :
  exists k tm tnd s,
    follow_best (heap (snd (CatsTrie_new [lit "cat"; lit "car"]))) k 2 = Some tm /\
    heap (snd (CatsTrie_new [lit "cat"; lit "car"])) !! tm = Some tnd /\
    char tnd = "$"%char /\ word tnd = Some s /\
    s ∈ [lit "cat"; lit "car"] /\
    forall fuel, k <= fuel ->
      autoComplete fuel (lit "ca") (snd (CatsTrie_new [lit "cat"; lit "car"]))
      = (Ok (Some s), snd (CatsTrie_new [lit "cat"; lit "car"])).
Proof.
  apply (autoComplete_terminates [lit "cat"; lit "car"]).
  - repeat constructor; done.
  - done.
  - reflexivity.
  - repeat constructor.
  - reflexivity.
Defined.

(** *** Inserting a sentence again *)

(** C7: inserting a sentence that is already in the trie adds one to the
    occurrence count of its terminal node, sets the terminal's word to the
    same sentence again, and creates no node: the store keeps its size
    and every node keeps its links. *)
Theorem reinsert_increments_count L s t :
  Forall sentence_ok L -> s ∈ L -> CatsTrie_new L = (Ok tt, t) ->
  exists t' tm tnd tnd',
    insert_iterative s t = (Ok tt, t') /\
    terminal_at (heap t) s = Some tm /\ heap t !! tm = Some tnd /\
    terminal_at (heap t') s = Some tm /\ heap t' !! tm = Some tnd' /\
    word_freq tnd' = word_freq tnd + 1 /\
    word tnd = Some s /\ word tnd' = Some s /\
    length (heap t') = length (heap t) /\ root t' = root t /\
    (forall n, links <$> (heap t' !! n) = links <$> (heap t !! n)).
Proof.
  intros HL Hs Ht. pose proof (built_Represents L t HL Ht) as (Hr & W & HS & HC).
  destruct t as [h r ntu]. simpl in *. subst r.
  assert (0 < occ L s) as Hpos by (by apply occ_pos).
  pose proof (sh_lower _ _ _ HS _ Hpos) as Hsl.
  destruct (insert_spec (occ L) s h ntu W HS HC Hsl)
    as (h' & P & Hrun & W' & HS' & HC' & Htr & Hfr & Hold).
  destruct (Hold Hpos) as (Hsame & tm & tnd & Hterm & Htnd & Htnd').
  pose proof (sh_terminal _ _ _ HS s tm tnd Hsl Hterm Htnd) as Hrec.
  exists (mkTrie h' 0 (Some (Some <$> P))), tm, tnd,
    (with_word (Some s) (with_word_freq (word_freq tnd + 1) tnd)).
  split; [done|]. split; [done|]. split; [done|]. simpl.
  split; [unfold terminal_at; by rewrite (same_links_walk h)|].
  split; [done|]. split; [done|].
  split; [by rewrite Hrec|]. split; [done|].
  split; [by apply same_links_length|]. split; [done|].
  intros n. by rewrite Hsame.
Qed.

Lemma reinsert_increments_count_witness :
  exists t' tm tnd tnd',
    insert_iterative (lit "ab") (snd (CatsTrie_new [lit "ab"; lit "ac"]))
    = (Ok tt, t') /\
    terminal_at (heap (snd (CatsTrie_new [lit "ab"; lit "ac"]))) (lit "ab")
    = Some tm /\
    heap (snd (CatsTrie_new [lit "ab"; lit "ac"])) !! tm = Some tnd /\
    terminal_at (heap t') (lit "ab") = Some tm /\ heap t' !! tm = Some tnd' /\
    word_freq tnd' = word_freq tnd + 1 /\
    word tnd = Some (lit "ab") /\ word tnd' = Some (lit "ab") /\
    length (heap t') = length (heap (snd (CatsTrie_new [lit "ab"; lit "ac"]))) /\
    root t' = root (snd (CatsTrie_new [lit "ab"; lit "ac"])) /\
    (forall n, links <$> (heap t' !! n)
               = links <$> (heap (snd (CatsTrie_new [lit "ab"; lit "ac"])) !! n)).
Proof.
  apply (reinsert_increments_count [lit "ab"; lit "ac"]).
  - repeat constructor; done.
  - by left.
  - reflexivity.
Defined.

(** *** The most frequent prefix *)

Lemma str_ltb_proper_prefix a b : a `prefix_of` b -> a <> b -> str_ltb a b = true.
Proof.
  intros [k ->] Hne. rewrite <- (app_nil_r a) at 1. rewrite str_ltb_app.
  destruct k; [by rewrite app_nil_r in Hne | done].
Qed.

(** ** Reachable nodes *)

Lemma letter_slot j :
  1 <= j <= 26 ->
  is_lower (ascii_of_nat (96 + j)) = true /\ slot (ascii_of_nat (96 + j)) = j.
Proof.
  intros H. unfold slot. rewrite is_lower_range.
  rewrite nat_ascii_embedding by lia. lia.
Qed.

Lemma node_char_not_dollar p : lowercase p -> node_char p <> "$"%char.
Proof.
  intros Hp. unfold node_char.
  destruct p as [|c p _] using rev_ind; [done|].
  rewrite last_snoc. simpl. intros ->.
  apply lowercase_app in Hp as [_ [Hc _]%lowercase_cons]. by vm_compute in Hc.
Qed.

Lemma terminal_no_child h cnt q m j :
  WF h -> Shape h cnt [] -> lowercase q -> terminal_at h q = Some m ->
  child h m j = None.
Proof.
  intros W HS Hq Hm.
  destruct (child h m j) as [x|] eqn:E; [|done]. exfalso.
  apply child_Some in E as (nd & Hnd & Hl).
  rewrite (sh_terminal _ _ _ HS q m nd Hq Hm Hnd) in Hl. cbn [links] in Hl.
  by apply lookup_replicate in Hl as [? _].
Qed.

(** Every reachable node is spelled by a lowercase string, or is the
    terminal below such a node. *)
Lemma reach_cases h cnt path n :
  WF h -> Shape h cnt [] -> walk h 0 path = Some n ->
  (exists p, lowercase p /\ path = addr p) \/
  (exists q, lowercase q /\ path = addr q ++ [0]).
Proof.
  intros W HS. revert n.
  induction path as [|j path IH] using rev_ind; intros n Hn.
  { left. exists []. split; [constructor | done]. }
  apply walk_snoc in Hn as (b & Hb & Hc).
  destruct (IH b Hb) as [(p & Hp & ->)|(q & Hq & ->)].
  - pose proof Hc as Hc'. apply child_Some in Hc' as (nd & Hnd & Hl).
    pose proof (wf_links _ W _ _ Hnd) as Hlen.
    apply lookup_lt_Some in Hl. rewrite Hlen in Hl.
    destruct (decide (j = 0)) as [->|Hj].
    + right. by exists p.
    + destruct (letter_slot j) as [Hlow Hslot]; [lia|].
      left. exists (p ++ [ascii_of_nat (96 + j)]).
      split; [by apply lowercase_snoc|]. rewrite addr_app.
      change (addr [ascii_of_nat (96 + j)]) with [slot (ascii_of_nat (96 + j))].
      by rewrite Hslot.
  - by rewrite (terminal_no_child h cnt q b j) in Hc.
Qed.

Lemma addr_prefix p q rest :
  lowercase p -> lowercase q -> addr p ++ rest = addr q ++ [0] ->
  p `prefix_of` q.
Proof.
  intros Hp Hq H. destruct rest as [|x rest _] using rev_ind.
  { rewrite app_nil_r in H. by apply addr_terminal_neq in H. }
  rewrite app_assoc in H. apply app_inj_tail in H as [H _].
  assert (p = take (length p) q) as ->; [|apply prefix_take].
  apply addr_inj; [done| |].
  - eapply lowercase_prefix; [apply prefix_take | done].
  - rewrite <- addr_take, <- H, take_app_length'; [done|]. by rewrite addr_length.
Qed.

Lemma addr_of_prefix path s :
  path `prefix_of` addr s -> exists p, p `prefix_of` s /\ path = addr p.
Proof.
  intros [k Hk]. exists (take (length path) s). split; [apply prefix_take|].
  rewrite <- addr_take, Hk. by rewrite take_app_length.
Qed.

(** ** The cache invariant *)

(** C2: after the insertions, every non-terminal node [N] reachable from
    the root along the path of an inserted sentence has a best child that
    is one of its children; following [best_child] from [N] arrives at a
    terminal node [T] of its subtree; the word of [T] is an inserted
    sentence whose count is the count of [T], no terminal of the subtree
    has a higher count, none with an equal count has a lexicographically
    smaller word, and [word_freq] of [N] is the count of [T].  The trie
    after each insertion is the trie built from the sentences inserted so
    far ([CatsTrie_new_snoc]), so this holds after every insertion. *)
Theorem cache_invariant L t path n nd :
  Forall sentence_ok L -> CatsTrie_new L = (Ok tt, t) ->
  walk (heap t) (root t) path = Some n -> heap t !! n = Some nd ->
  char nd <> "$"%char ->
  (exists s, s ∈ L /\ path `prefix_of` addr s) ->
  exists m j k T tnd w,
    best_child nd = Some m /\ child (heap t) n j = Some m /\
    follow_best (heap t) k n = Some T /\
    (exists down, walk (heap t) n down = Some T) /\
    heap t !! T = Some tnd /\ char tnd = "$"%char /\
    word tnd = Some w /\ w ∈ L /\ word_freq tnd = occ L w /\
    word_freq nd = word_freq tnd /\
    forall down T' tnd',
      walk (heap t) n down = Some T' -> heap t !! T' = Some tnd' ->
      char tnd' = "$"%char ->
      exists w', word tnd' = Some w' /\
                 (word_freq tnd' < word_freq tnd \/
                  (word_freq tnd' = word_freq tnd /\ str_ltb w' w = false)).
Proof.
  intros HL Ht Hn Hnd Hchar (s & Hs & Hpre).
  pose proof (built_Represents L t HL Ht) as HR.
  pose proof HR as (Hr & W & HS & HC). rewrite Hr in Hn.
  destruct (addr_of_prefix _ _ Hpre) as (p & Hps & ->).
  destruct (query_best L t p HR) as (w & n' & T & k & Hbest & Hn' & Hterm & Hfb & _);
    [by exists s|].
  assert (n' = n) as -> by (unfold node_at in Hn'; congruence).
  pose proof Hbest as (Hpos & Hpw & Hall).
  pose proof (sh_lower _ _ _ HS _ Hpos) as Hwl.
  pose proof (lowercase_prefix _ _ Hpw Hwl) as Hp.
  destruct (HC p n nd Hp Hn Hnd) as [(Hnone & _)|(w' & m & Hb' & Hw & Hbc & Hl)].
  { rewrite Hnone in Hpos by done. lia. }
  rewrite <- (best_of_unique _ _ _ _ Hbest Hb') in Hw, Hl.
  pose proof (node_lt _ _ _ W Hterm) as HTlt.
  destruct (lookup_lt_is_Some_2 _ _ HTlt) as [tnd Htnd].
  pose proof (sh_terminal _ _ _ HS w T tnd Hwl Hterm Htnd) as Hrec.
  exists m, (next_slot p w), k, T, tnd, w.
  split; [done|]. split; [apply child_Some; eauto|]. split; [done|].
  split.
  { destruct Hpw as [x ->]. exists (addr x ++ [0]).
    unfold terminal_at in Hterm. rewrite addr_app, <- app_assoc, walk_app in Hterm.
    unfold node_at in Hn. by rewrite Hn in Hterm. }
  split; [done|]. rewrite Hrec. simpl.
  split; [done|]. split; [done|]. split; [by apply occ_pos|]. split; [done|].
  split; [done|].
  intros down T' tnd' Hdown HT' Hc'.
  assert (walk (heap t) 0 (addr p ++ down) = Some T') as Hfull.
  { rewrite walk_app. unfold node_at in Hn. by rewrite Hn. }
  destruct (reach_cases _ _ _ _ W HS Hfull) as [(p' & Hp' & Heq)|(q & Hq & Heq)].
  - exfalso. rewrite Heq in Hfull.
    destruct (sh_inner _ _ _ HS p' T' tnd' Hp' Hfull HT') as (Hch & _).
    rewrite Hc' in Hch. symmetry in Hch. by apply node_char_not_dollar in Hch.
  - rewrite Heq in Hfull.
    rewrite (sh_terminal _ _ _ HS q T' tnd' Hq Hfull HT'). simpl.
    exists q. split; [done|].
    pose proof (addr_prefix p q down Hp Hq Heq) as Hpq.
    assert (0 < occ L q) as Hposq.
    { apply walk_snoc in Hfull as (b & Hb & Hcb).
      pose proof (node_lt _ _ _ W Hb) as Hblt.
      destruct (lookup_lt_is_Some_2 _ _ Hblt) as [bnd Hbnd].
      destruct (sh_inner _ _ _ HS q b bnd Hq Hb Hbnd) as (_ & _ & Hiff).
      apply Hiff. by rewrite Hcb. }
    destruct (Hall q Hposq Hpq) as [?|[? ?]]; [by left | right; split; [lia|done]].
Qed.

Lemma cache_invariant_witness :
  exists nd,
    heap (trie_of [lit "abc"; lit "aba"]) !! 2 = Some nd /\
    exists m j k T tnd w,
      best_child nd = Some m /\
      child (heap (trie_of [lit "abc"; lit "aba"])) 2 j = Some m /\
      follow_best (heap (trie_of [lit "abc"; lit "aba"])) k 2 = Some T /\
      (exists down, walk (heap (trie_of [lit "abc"; lit "aba"])) 2 down = Some T) /\
      heap (trie_of [lit "abc"; lit "aba"]) !! T = Some tnd /\
      char tnd = "$"%char /\
      word tnd = Some w /\ w ∈ [lit "abc"; lit "aba"] /\
      word_freq tnd = occ [lit "abc"; lit "aba"] w /\
      word_freq nd = word_freq tnd /\
      forall down T' tnd',
        walk (heap (trie_of [lit "abc"; lit "aba"])) 2 down = Some T' ->
        heap (trie_of [lit "abc"; lit "aba"]) !! T' = Some tnd' ->
        char tnd' = "$"%char ->
        exists w', word tnd' = Some w' /\
                   (word_freq tnd' < word_freq tnd \/
                    (word_freq tnd' = word_freq tnd /\ str_ltb w' w = false)).
Proof.
  eexists. split; [vm_compute; reflexivity|].
  apply (cache_invariant [lit "abc"; lit "aba"] _ [1; 2]).
  - repeat constructor; done.
  - reflexivity.
  - reflexivity.
  - reflexivity.
  - done.
  - exists (lit "abc"). split; [by left | by exists [3]].
Defined.

(** ** The frame of an insertion *)

Lemma child_same_node h h' n j : h' !! n = h !! n -> child h' n j = child h n j.
Proof. intros H. unfold child. by rewrite H. Qed.

Lemma path_parent h s P m :
  trace h 0 (addr s ++ [0]) = Some P -> m ∈ P -> m <> 0 ->
  exists a j, a ∈ P /\ child h a j = Some m.
Proof.
  intros Htr [i Hi]%list_elem_of_lookup Hm.
  destruct i as [|i].
  { destruct (trace_head _ _ _ _ Htr) as [l ->]. simpl in Hi. congruence. }
  destruct (lookup_lt_is_Some_2 P i) as [a Ha].
  { apply lookup_lt_Some in Hi. lia. }
  assert (pairs P !! i = Some (a, m)) as Hpr.
  { apply pairs_lookup; [done|]. by rewrite Nat.add_1_r. }
  destruct (path_lookup_pair h s P Htr _ _ _ Hpr) as (_ & _ & Hc).
  exists a, (next_slot (take i s) s).
  split; [by eapply list_elem_of_lookup_2 | done].
Qed.

(** C8: an insertion changes only the nodes of the path of the inserted
    sentence, that is the root, one node for each character and the
    terminal; every other node keeps all its fields, and following
    [best_child] from any other reachable node gives what it gave
    before. *)
Theorem insert_touches_only_its_path L s t :
  Forall sentence_ok L -> sentence_ok s -> CatsTrie_new L = (Ok tt, t) ->
  exists t' P,
    insert_iterative s t = (Ok tt, t') /\ root t' = root t /\
    nodes_to_update t' = Some (Some <$> P) /\
    trace (heap t') (root t') (addr s ++ [0]) = Some P /\
    length P = length s + 2 /\
    (forall n, n ∉ P -> heap t' !! n = heap t !! n) /\
    (forall path n k,
        walk (heap t) (root t) path = Some n -> n ∉ P ->
        follow_best (heap t') k n = follow_best (heap t) k n).
Proof.
  intros HL [_ Hs] Ht. pose proof (built_Represents L t HL Ht) as (Hr & W & HS & HC).
  destruct t as [h r ntu]. simpl in *. subst r.
  destruct (insert_spec (occ L) s h ntu W HS HC Hs)
    as (h' & P & Hrun & W' & HS' & HC' & Htr & Hfr & _).
  exists (mkTrie h' 0 (Some (Some <$> P))), P. simpl.
  split; [done|]. split; [done|]. split; [done|]. split; [done|].
  split; [by eapply path_length|]. split; [done|].
  intros path n k. revert path n.
  induction k as [|k IH]; intros path n Hn Hnin; [done|].
  simpl. rewrite (Hfr n Hnin).
  destruct (h !! n) as [nd|] eqn:Hnd; [|done].
  destruct (best_child nd) as [m|] eqn:Hbc; [|done].
  assert (exists j, child h n j = Some m) as [j Hj].
  { destruct (reach_cases _ _ _ _ W HS Hn) as [(p & Hp & ->)|(q & Hq & ->)].
    - destruct (HC p n nd Hp Hn Hnd) as [(_ & Hb & _)|(w & m' & _ & _ & Hb & Hl)];
        [congruence|].
      exists (next_slot p w). apply child_Some. exists nd. split; [done|]. congruence.
    - rewrite (sh_terminal _ _ _ HS q n nd Hq Hn Hnd) in Hbc. done. }
  apply (IH (path ++ [j])).
  - apply walk_snoc. eauto.
  - intros Hin.
    pose proof (wf_up _ W _ _ _ Hj) as [Hlt _].
    destruct (path_parent h' s P m Htr Hin) as (a & j' & Ha & Hc); [lia|].
    assert (child h' n j = Some m) as Hj'.
    { by rewrite (child_same_node h h') by (by apply Hfr). }
    destruct (wf_inj _ W' _ _ _ _ _ Hc Hj') as [-> _]. done.
Qed.

Lemma insert_touches_only_its_path_witness :
  exists t' P,
    insert_iterative (lit "ab") (trie_of [lit "ac"; lit "b"]) = (Ok tt, t') /\
    root t' = root (trie_of [lit "ac"; lit "b"]) /\
    nodes_to_update t' = Some (Some <$> P) /\
    trace (heap t') (root t') (addr (lit "ab") ++ [0]) = Some P /\
    length P = length (lit "ab") + 2 /\
    (forall n, n ∉ P -> heap t' !! n = heap (trie_of [lit "ac"; lit "b"]) !! n) /\
    (forall path n k,
        walk (heap (trie_of [lit "ac"; lit "b"]))
          (root (trie_of [lit "ac"; lit "b"])) path = Some n ->
        n ∉ P ->
        follow_best (heap t') k n
        = follow_best (heap (trie_of [lit "ac"; lit "b"])) k n).
Proof.
  apply (insert_touches_only_its_path [lit "ac"; lit "b"]).
  - repeat constructor; done.
  - repeat constructor; done.
  - reflexivity.
Defined.

(** ** Two tries for the same counts *)

Section two_tries.
Context (h1 h2 : list Node) (cnt : str -> nat).
Hypothesis W1 : WF h1.
Hypothesis W2 : WF h2.
Hypothesis S1 : Shape h1 cnt [].
Hypothesis S2 : Shape h2 cnt [].
Hypothesis C1 : Cached h1 cnt.
Hypothesis C2 : Cached h2 cnt.

Lemma terminal_pos h q m :
  WF h -> Shape h cnt [] -> lowercase q -> terminal_at h q = Some m -> 0 < cnt q.
Proof.
  intros W HS Hq Hm. apply walk_snoc in Hm as (b & Hb & Hc).
  pose proof (node_lt _ _ _ W Hb) as Hblt.
  destruct (lookup_lt_is_Some_2 _ _ Hblt) as [bnd Hbnd].
  destruct (sh_inner _ _ _ HS q b bnd Hq Hb Hbnd) as (_ & _ & Hiff).
  apply Hiff. by rewrite Hc.
Qed.

Lemma terminal_exists h q :
  WF h -> Shape h cnt [] -> lowercase q -> 0 < cnt q ->
  is_Some (terminal_at h q).
Proof.
  intros W HS Hq Hpos.
  destruct (proj2 (sh_exists _ _ _ HS q Hq)) as [b Hb]; [right; left; eauto|].
  pose proof (node_lt _ _ _ W Hb) as Hblt.
  destruct (lookup_lt_is_Some_2 _ _ Hblt) as [bnd Hbnd].
  destruct (sh_inner _ _ _ HS q b bnd Hq Hb Hbnd) as (_ & _ & Hiff).
  destruct (proj2 Hiff Hpos) as [m Hm]. exists m. apply walk_snoc. eauto.
Qed.
End two_tries.

Lemma walk_transfer h1 h2 cnt path n1 :
  WF h1 -> WF h2 -> Shape h1 cnt [] -> Shape h2 cnt [] ->
  walk h1 0 path = Some n1 -> is_Some (walk h2 0 path).
Proof.
  intros W1 W2 S1 S2 Hn.
  destruct (reach_cases _ _ _ _ W1 S1 Hn) as [(p & Hp & ->)|(q & Hq & ->)].
  - apply (sh_exists _ _ _ S2 p Hp). apply (sh_exists _ _ _ S1 p Hp). by exists n1.
  - apply (terminal_exists cnt h2 q W2 S2 Hq).
    by apply (terminal_pos cnt h1 q n1 W1 S1 Hq).
Qed.

Lemma child_transfer h1 h2 cnt n1 n2 j m1 :
  WF h1 -> WF h2 -> Shape h1 cnt [] -> Shape h2 cnt [] ->
  same_place h1 h2 n1 n2 -> child h1 n1 j = Some m1 ->
  exists m2, child h2 n2 j = Some m2 /\ same_place h1 h2 m1 m2.
Proof.
  intros W1 W2 S1 S2 (path & Hp1 & Hp2) Hc.
  assert (walk h1 0 (path ++ [j]) = Some m1) as Hw by (apply walk_snoc; eauto).
  destruct (walk_transfer h1 h2 cnt _ _ W1 W2 S1 S2 Hw) as [m2 Hm2].
  pose proof Hm2 as Hm2'. apply walk_snoc in Hm2' as (b & Hb & Hcb).
  assert (b = n2) as -> by congruence.
  exists m2. split; [done|]. by exists (path ++ [j]).
Qed.

Lemma same_place_sym h1 h2 n1 n2 : same_place h1 h2 n1 n2 -> same_place h2 h1 n2 n1.
Proof. intros (p & ? & ?). by exists p. Qed.

(** Nodes at the same place hold the same. *)
Lemma node_sim h1 h2 cnt n1 n2 :
  WF h1 -> WF h2 -> Shape h1 cnt [] -> Shape h2 cnt [] ->
  Cached h1 cnt -> Cached h2 cnt -> same_place h1 h2 n1 n2 ->
  exists nd1 nd2,
    h1 !! n1 = Some nd1 /\ h2 !! n2 = Some nd2 /\
    char nd1 = char nd2 /\ word nd1 = word nd2 /\
    word_freq nd1 = word_freq nd2 /\
    ((best_child nd1 = None /\ best_child nd2 = None) \/
     (exists j m1 m2, best_child nd1 = Some m1 /\ best_child nd2 = Some m2 /\
                      child h1 n1 j = Some m1 /\ child h2 n2 j = Some m2)).
Proof.
  intros W1 W2 S1 S2 C1 C2 (path & Hp1 & Hp2).
  pose proof (node_lt _ _ _ W1 Hp1) as Hlt1.
  pose proof (node_lt _ _ _ W2 Hp2) as Hlt2.
  destruct (lookup_lt_is_Some_2 _ _ Hlt1) as [nd1 Hnd1].
  destruct (lookup_lt_is_Some_2 _ _ Hlt2) as [nd2 Hnd2].
  exists nd1, nd2. split; [done|]. split; [done|].
  destruct (reach_cases _ _ _ _ W1 S1 Hp1) as [(p & Hp & ->)|(q & Hq & ->)].
  - destruct (sh_inner _ _ _ S1 p n1 nd1 Hp Hp1 Hnd1) as (Hc1 & Hw1 & _).
    destruct (sh_inner _ _ _ S2 p n2 nd2 Hp Hp2 Hnd2) as (Hc2 & Hw2 & _).
    split; [congruence|]. split; [congruence|].
    destruct (C1 p n1 nd1 Hp Hp1 Hnd1) as [(Hn1 & Hb1 & Hf1)|(t1 & m1 & Hbest1 & Hf1 & Hb1 & Hl1)],
             (C2 p n2 nd2 Hp Hp2 Hnd2) as [(Hn2 & Hb2 & Hf2)|(t2 & m2 & Hbest2 & Hf2 & Hb2 & Hl2)].
    + split; [congruence|]. by left.
    + exfalso. destruct Hbest2 as (Hpos & Hpt & _). rewrite Hn1 in Hpos by done. lia.
    + exfalso. destruct Hbest1 as (Hpos & Hpt & _). rewrite Hn2 in Hpos by done. lia.
    + pose proof (best_of_unique _ _ _ _ Hbest1 Hbest2) as <-.
      split; [congruence|]. right. exists (next_slot p t1), m1, m2.
      split; [done|]. split; [done|]. split; apply child_Some; eauto.
  - rewrite (sh_terminal _ _ _ S1 q n1 nd1 Hq Hp1 Hnd1).
    rewrite (sh_terminal _ _ _ S2 q n2 nd2 Hq Hp2 Hnd2).
    split; [done|]. split; [done|]. split; [done|]. by left.
Qed.

Lemma best_slot_unique h n nd j m :
  WF h -> h !! n = Some nd -> best_child nd = Some m -> child h n j = Some m ->
  best_slot nd = Some j.
Proof.
  intros W Hnd Hbc Hc. unfold best_slot. rewrite Hbc.
  pose proof Hc as Hc'. apply child_Some in Hc' as (nd' & Hnd' & Hl).
  assert (nd' = nd) as -> by congruence.
  destruct (list_find (fun l => l = Some m) (links nd)) as [[i x]|] eqn:E.
  - apply list_find_Some in E as (Hi & -> & _). simpl. f_equal.
    assert (child h n i = Some m) as Hci by (apply child_Some; eauto).
    by destruct (wf_inj _ W _ _ _ _ _ Hci Hc) as [_ ->].
  - exfalso. apply list_find_None in E. rewrite Forall_forall in E.
    apply (E (Some m)); [|done]. by eapply list_elem_of_lookup_2.
Qed.

Lemma node_view_sim h1 h2 cnt n1 n2 nd1 nd2 :
  WF h1 -> WF h2 -> Shape h1 cnt [] -> Shape h2 cnt [] ->
  Cached h1 cnt -> Cached h2 cnt -> same_place h1 h2 n1 n2 ->
  h1 !! n1 = Some nd1 -> h2 !! n2 = Some nd2 ->
  node_view nd1 = node_view nd2.
Proof.
  intros W1 W2 S1 S2 C1 C2 Hsp Hnd1 Hnd2.
  destruct (node_sim h1 h2 cnt n1 n2 W1 W2 S1 S2 C1 C2 Hsp)
    as (nd1' & nd2' & ? & ? & Hc & Hw & Hf & Hb).
  simplify_eq. unfold node_view. rewrite Hc, Hw, Hf.
  assert (best_slot nd1 = best_slot nd2) as ->.
  { destruct Hb as [[Hb1 Hb2]|(j & m1 & m2 & Hb1 & Hb2 & Hc1 & Hc2)].
    - unfold best_slot. by rewrite Hb1, Hb2.
    - rewrite (best_slot_unique h1 n1 nd1 j m1), (best_slot_unique h2 n2 nd2 j m2); done. }
  f_equal. f_equal. apply list_eq. intros j. rewrite !list_lookup_fmap.
  pose proof (wf_links _ W1 _ _ Hnd1) as Hl1.
  pose proof (wf_links _ W2 _ _ Hnd2) as Hl2.
  destruct (decide (j < 27)) as [Hj|Hj].
  - destruct (lookup_lt_is_Some_2 (links nd1) j) as [x1 Hx1]; [lia|].
    destruct (lookup_lt_is_Some_2 (links nd2) j) as [x2 Hx2]; [lia|].
    rewrite Hx1, Hx2. simpl. f_equal. apply bool_decide_ext.
    split; intros [m Hm]; subst.
    + destruct (child_transfer h1 h2 cnt n1 n2 j m W1 W2 S1 S2 Hsp) as (m2 & Hm2 & _).
      { apply child_Some. eauto. }
      apply child_Some in Hm2 as (nd & ? & Hl). simplify_eq. eauto.
    + destruct (child_transfer h2 h1 cnt n2 n1 j m W2 W1 S2 S1) as (m1 & Hm1 & _).
      { by apply same_place_sym. }
      { apply child_Some. eauto. }
      apply child_Some in Hm1 as (nd & ? & Hl). simplify_eq. eauto.
  - rewrite (lookup_ge_None_2 (links nd1)), (lookup_ge_None_2 (links nd2)) by lia.
    done.
Qed.

(** ** Queries on two tries for the same counts *)

Lemma out_sim_bind {A B A' B'} (m1 : M A) (m2 : M A') (k1 : A -> M B)
    (k2 : A' -> M B') t1 t2 (R : A -> A' -> Prop) (S : B -> B' -> Prop) :
  out_sim R (fst (m1 t1)) (fst (m2 t2)) ->
  snd (m1 t1) = t1 -> snd (m2 t2) = t2 ->
  (forall a b, R a b -> out_sim S (fst (k1 a t1)) (fst (k2 b t2))) ->
  out_sim S (fst (bind m1 k1 t1)) (fst (bind m2 k2 t2)).
Proof.
  intros Hm H1 H2 Hk. unfold bind.
  destruct (m1 t1) as [[a| | |] t1'], (m2 t2) as [[b| | |] t2'];
    simpl in *; subst; try done. by apply Hk.
Qed.

Lemma out_sim_eq {A} (o1 o2 : outcome A) : out_sim eq o1 o2 -> o1 = o2.
Proof. destruct o1, o2; simpl; try done; by intros ->. Qed.

Section simulation.
Context (t1 t2 : CatsTrie) (cnt : str -> nat).
Hypothesis R1 : root t1 = 0.
Hypothesis R2 : root t2 = 0.
Hypothesis W1 : WF (heap t1).
Hypothesis W2 : WF (heap t2).
Hypothesis S1 : Shape (heap t1) cnt [].
Hypothesis S2 : Shape (heap t2) cnt [].
Hypothesis C1 : Cached (heap t1) cnt.
Hypothesis C2 : Cached (heap t2) cnt.

Local Abbreviation sim := (ref_sim (heap t1) (heap t2)).

Lemma sim_deref r1 r2 :
  sim r1 r2 ->
  out_sim (node_rel (heap t1) (heap t2) r1 r2)
    (fst (deref r1 t1)) (fst (deref r2 t2)).
Proof.
  unfold ref_sim, deref. destruct r1 as [n1|], r2 as [n2|]; try done.
  intros Hsp.
  destruct (node_sim _ _ cnt n1 n2 W1 W2 S1 S2 C1 C2 Hsp)
    as (nd1 & nd2 & Hnd1 & Hnd2 & _).
  rewrite Hnd1, Hnd2. simpl. by exists n1, n2.
Qed.

Lemma sim_child n1 n2 j x1 x2 nd1 nd2 :
  same_place (heap t1) (heap t2) n1 n2 ->
  heap t1 !! n1 = Some nd1 -> heap t2 !! n2 = Some nd2 ->
  links nd1 !! j = Some x1 -> links nd2 !! j = Some x2 -> sim x1 x2.
Proof.
  intros Hsp Hnd1 Hnd2 Hx1 Hx2. unfold ref_sim.
  destruct x1 as [m1|], x2 as [m2|]; [| | |done].
  - destruct (child_transfer _ _ cnt n1 n2 j m1 W1 W2 S1 S2 Hsp)
      as (m2' & Hm2 & Hsp'); [apply child_Some; eauto|].
    apply child_Some in Hm2 as (nd & ? & Hl). by simplify_eq.
  - destruct (child_transfer _ _ cnt n1 n2 j m1 W1 W2 S1 S2 Hsp)
      as (m2' & Hm2 & Hsp'); [apply child_Some; eauto|].
    apply child_Some in Hm2 as (nd & ? & Hl). by simplify_eq.
  - destruct (child_transfer _ _ cnt n2 n1 j m2 W2 W1 S2 S1)
      as (m1' & Hm1 & Hsp'); [by apply same_place_sym|apply child_Some; eauto|].
    apply child_Some in Hm1 as (nd & ? & Hl). by simplify_eq.
Qed.

Lemma sim_get_link r1 r2 idx :
  sim r1 r2 ->
  out_sim sim (fst (get_link r1 idx t1)) (fst (get_link r2 idx t2)).
Proof.
  intros Hr. unfold get_link.
  eapply out_sim_bind; [by apply sim_deref|apply deref_state..|].
  intros nd1 nd2 (n1 & n2 & -> & -> & Hnd1 & Hnd2 & Hsp).
  rewrite (wf_links _ W1 _ _ Hnd1), (wf_links _ W2 _ _ Hnd2).
  destruct (py_pos 27 idx) as [j|] eqn:Hpos; [|done].
  apply py_pos_Some in Hpos.
  destruct (lookup_lt_is_Some_2 (links nd1) j) as [x1 Hx1];
    [by rewrite (wf_links _ W1 _ _ Hnd1)|].
  destruct (lookup_lt_is_Some_2 (links nd2) j) as [x2 Hx2];
    [by rewrite (wf_links _ W2 _ _ Hnd2)|].
  rewrite Hx1, Hx2. simpl. by eapply sim_child.
Qed.

Lemma sim_prompt_loop p :
  forall r1 r2, sim r1 r2 ->
    out_sim (opt_sim sim) (fst (prompt_loop p r1 t1)) (fst (prompt_loop p r2 t2)).
Proof.
  induction p as [|c p IH]; intros r1 r2 Hr; [done|]. simpl.
  eapply out_sim_bind; [by apply sim_get_link|apply get_link_state..|].
  intros x1 x2 Hx. destruct x1 as [m1|], x2 as [m2|]; try done.
  by apply IH.
Qed.

Lemma sim_best_child r1 r2 nd1 nd2 :
  node_rel (heap t1) (heap t2) r1 r2 nd1 nd2 ->
  char nd1 = char nd2 /\ word nd1 = word nd2 /\
  sim (best_child nd1) (best_child nd2).
Proof.
  intros (n1 & n2 & -> & -> & Hnd1 & Hnd2 & Hsp).
  destruct (node_sim _ _ cnt n1 n2 W1 W2 S1 S2 C1 C2 Hsp)
    as (nd1' & nd2' & ? & ? & Hc & Hw & _ & Hb).
  simplify_eq. split; [done|]. split; [done|].
  destruct Hb as [[-> ->]|(j & m1 & m2 & -> & -> & Hc1 & Hc2)]; [done|].
  destruct Hsp as (path & Hp1 & Hp2). exists (path ++ [j]).
  split; apply walk_snoc; eauto.
Qed.

Lemma sim_best_loop fuel :
  forall r1 r2, sim r1 r2 ->
    out_sim sim (fst (best_loop fuel r1 t1)) (fst (best_loop fuel r2 t2)).
Proof.
  induction fuel as [|fuel IH]; intros r1 r2 Hr; rewrite !best_loop_eq;
    (eapply out_sim_bind; [by apply sim_deref|apply deref_state..|]);
    intros nd1 nd2 Hnd;
    destruct (sim_best_child _ _ _ _ Hnd) as (Hc & _ & Hb);
    rewrite Hc; destruct (Ascii.eqb (char nd2) "$"); try done.
  by apply IH.
Qed.

Lemma sim_autoComplete fuel prompt :
  fst (autoComplete fuel prompt t1) = fst (autoComplete fuel prompt t2).
Proof.
  apply out_sim_eq. unfold autoComplete.
  eapply (out_sim_bind _ _ _ _ _ _ sim); [|done..|].
  { simpl. rewrite R1, R2. by exists []. }
  intros r1 r2 Hr.
  eapply out_sim_bind; [by apply sim_prompt_loop|apply prompt_loop_state..|].
  intros [x1|] [x2|] Hx; try done. simpl in Hx.
  eapply out_sim_bind; [by apply sim_deref|apply deref_state..|].
  intros nd1 nd2 Hnd. destruct (sim_best_child _ _ _ _ Hnd) as (_ & _ & Hb).
  eapply out_sim_bind; [by apply sim_best_loop|apply best_loop_state..|].
  intros c1 c2 Hc.
  eapply out_sim_bind; [by apply sim_deref|apply deref_state..|].
  intros tnd1 tnd2 Htnd. destruct (sim_best_child _ _ _ _ Htnd) as (_ & Hw & _).
  simpl. by rewrite Hw.
Qed.

Lemma sim_view_at path : view_at t1 path = view_at t2 path.
Proof.
  unfold view_at. rewrite R1, R2.
  destruct (walk (heap t1) 0 path) as [n1|] eqn:E1.
  - destruct (walk_transfer _ _ cnt _ _ W1 W2 S1 S2 E1) as [n2 E2]. rewrite E2.
    pose proof (node_lt _ _ _ W1 E1) as Hlt1.
    pose proof (node_lt _ _ _ W2 E2) as Hlt2.
    destruct (lookup_lt_is_Some_2 _ _ Hlt1) as [nd1 Hnd1].
    destruct (lookup_lt_is_Some_2 _ _ Hlt2) as [nd2 Hnd2].
    rewrite Hnd1, Hnd2. change (Some (node_view nd1) = Some (node_view nd2)).
    f_equal.
    apply (node_view_sim (heap t1) (heap t2) cnt n1 n2 nd1 nd2 W1 W2 S1 S2 C1 C2);
      [by exists path|done..].
  - destruct (walk (heap t2) 0 path) as [n2|] eqn:E2; [|done].
    destruct (walk_transfer _ _ cnt _ _ W2 W1 S2 S1 E2) as [n1 E1'].
    congruence.
Qed.
End simulation.

(** C6: two lists of sentences that are permutations of each other give
    tries that hold the same at every place — the same character, word,
    count, occupied slots and slot of the best child at the end of every
    path from the root — and every query has the same outcome on both. *)
Theorem insertion_order_independence L1 L2 :
  Forall sentence_ok L1 -> L1 ≡ₚ L2 ->
  exists t1 t2,
    CatsTrie_new L1 = (Ok tt, t1) /\ CatsTrie_new L2 = (Ok tt, t2) /\
    (forall path, view_at t1 path = view_at t2 path) /\
    (forall fuel prompt,
        fst (autoComplete fuel prompt t1) = fst (autoComplete fuel prompt t2)).
Proof.
  intros HL1 Hperm.
  assert (Forall sentence_ok L2) as HL2 by (by rewrite <- Hperm).
  destruct (build_spec L1 (sentences_lowercase L1 HL1)) as (t1 & Ht1 & R1 & W1 & S1 & C1).
  destruct (build_spec L2 (sentences_lowercase L2 HL2)) as (t2 & Ht2 & R2 & W2 & S2 & C2).
  assert (forall x, occ L2 x = occ L1 x) as Hocc.
  { intros x. symmetry. by apply occ_perm. }
  pose proof (Shape_ext _ _ _ _ Hocc S2) as S2'.
  pose proof (Cached_ext _ _ _ Hocc C2) as C2'.
  exists t1, t2. split; [done|]. split; [done|]. split.
  - intros path. by eapply sim_view_at.
  - intros fuel prompt. by eapply sim_autoComplete.
Qed.

Lemma insertion_order_independence_witness :
  exists t1 t2,
    CatsTrie_new [lit "abc"; lit "aba"; lit "abc"] = (Ok tt, t1) /\
    CatsTrie_new [lit "aba"; lit "abc"; lit "abc"] = (Ok tt, t2) /\
    (forall path, view_at t1 path = view_at t2 path) /\
    (forall fuel prompt,
        fst (autoComplete fuel prompt t1) = fst (autoComplete fuel prompt t2)).
Proof.
  apply insertion_order_independence.
  - repeat constructor; done.
  - apply perm_swap.
Defined.

(** ** [update_nodes] fails where the repair is undefined *)

Lemma bind_fails {A B} (m : M A) (k : A -> M B) t :
  fails (m t) -> fails (bind m k t).
Proof. unfold fails. apply bind_fail. Qed.

Lemma bind_fails_after {A B} (m : M A) (k : A -> M B) t a t' :
  m t = (Ok a, t') -> fails (k a t') -> fails (bind m k t).
Proof. intros H Hk. by rewrite (bind_eq _ _ _ _ _ H). Qed.

Lemma deref_fails h r ntu n :
  h !! n = None -> fails (deref (Some n) (mkTrie h r ntu)).
Proof. intros H a. unfold deref. simpl. by rewrite H. Qed.

Lemma deref_None_fails t : fails (deref None t).
Proof. by intros a. Qed.

Lemma init_body_fails h r ids i a b term :
  ids !! i = Some a -> ids !! (i + 1) = Some b -> last ids = Some term ->
  seed_pair term h (a, b) = None ->
  fails (init_body i (mkTrie h r (Some (Some <$> ids)))).
Proof.
  intros Ha Hb Hl Hs. unfold seed_pair in Hs. simpl in Hs. unfold init_body.
  eapply bind_fails_after; [by apply ntu_at_ids|].
  destruct (h !! a) as [nd|] eqn:Hnd; [|by apply bind_fails, deref_fails].
  eapply bind_fails_after; [by apply deref_eq|].
  destruct (best_child nd) as [bc|] eqn:Hbc; [done|].
  destruct (h !! term) as [tnd|] eqn:Ht; [done|].
  eapply bind_fails_after; [by apply ntu_at_ids_succ|].
  eapply bind_fails_after; [by apply assign_eq|].
  eapply bind_fails_after; [by apply ntu_at_last|].
  apply bind_fails, deref_fails.
  rewrite list_lookup_insert_ne; [done|]. congruence.
Qed.

Lemma compare_body_fails f h r ids i a b :
  ids !! i = Some a -> ids !! (i + 1) = Some b ->
  compare_pair f h (a, b) = None ->
  fails (compare_body f i (mkTrie h r (Some (Some <$> ids)))).
Proof.
  intros Ha Hb Hs. unfold compare_pair in Hs. simpl in Hs. unfold compare_body.
  eapply bind_fails_after; [by apply ntu_at_ids|].
  eapply bind_fails_after; [by apply ntu_at_ids_succ|].
  destruct (h !! a) as [nd|] eqn:Hnd; [|by apply bind_fails, deref_fails].
  eapply bind_fails_after; [by apply deref_eq|].
  destruct (best_child nd) as [bc|] eqn:Hbc; [|by apply bind_fails, deref_None_fails].
  destruct (h !! bc) as [bnd|] eqn:Hbnd; [|by apply bind_fails, deref_fails].
  eapply bind_fails_after; [by apply deref_eq|].
  destruct (word_freq bnd <? f); [done|].
  eapply bind_fails_after; [by apply deref_eq|]. rewrite Hbc.
  eapply bind_fails_after; [by apply deref_eq|].
  destruct (f =? word_freq bnd); [|done].
  destruct (h !! b) as [cnd|] eqn:Hcnd; [|by apply bind_fails, deref_fails].
  by destruct (char_ltb (char cnd) (char bnd)).
Qed.

Lemma fixup_last_fails f h r ids pk :
  last (removelast ids) = Some pk -> fixup f h pk = None ->
  fails (fixup_last f (mkTrie h r (Some (Some <$> ids)))).
Proof.
  intros Hl Hs. unfold fixup in Hs. unfold fixup_last.
  eapply bind_fails_after; [by apply ntu_at_last2|].
  destruct (h !! pk) as [nd|] eqn:Hnd; [|by apply bind_fails, deref_fails].
  by destruct (word_freq nd <? f).
Qed.

Lemma run_pairs_snoc step prs pr h :
  run_pairs step (prs ++ [pr]) h
  = match run_pairs step prs h with
    | Some h1 => step h1 pr
    | None => None
    end.
Proof.
  revert h. induction prs as [|q prs IH]; intros h; simpl.
  - by destruct (step h pr).
  - destruct (step h q); [apply IH | done].
Qed.

Lemma for_range_pairs_fails (body : nat -> M unit) step (prs : list (nat * nat)) r ntu :
  (forall i pr h0 h1, prs !! i = Some pr -> step h0 pr = Some h1 ->
      body i (mkTrie h0 r ntu) = (Ok tt, mkTrie h1 r ntu)) ->
  (forall i pr h0, prs !! i = Some pr -> step h0 pr = None ->
      fails (body i (mkTrie h0 r ntu))) ->
  forall h, run_pairs step prs h = None ->
  fails (for_range (length prs) body (mkTrie h r ntu)).
Proof.
  intros Hok Hfail. unfold for_range.
  induction prs as [|pr prs IH] using rev_ind; intros h Hrun; [done|].
  rewrite length_app. simpl. rewrite Nat.add_1_r, seq_S. simpl.
  rewrite for_each_app. rewrite run_pairs_snoc in Hrun.
  destruct (run_pairs step prs h) as [h1|] eqn:E.
  - eapply bind_fails_after.
    { apply (for_range_pairs body step prs r ntu); [|exact E].
      intros i q h0 h2 Hq. apply Hok.
      by rewrite lookup_app_l by (by eapply lookup_lt_Some). }
    simpl. apply bind_fails. eapply Hfail; [|done]. by rewrite list_lookup_middle.
  - apply bind_fails. apply IH; [| |done].
    + intros i q h0 h2 Hq. apply Hok.
      by rewrite lookup_app_l by (by eapply lookup_lt_Some).
    + intros i q h0 Hq. apply Hfail.
      by rewrite lookup_app_l by (by eapply lookup_lt_Some).
Qed.

Lemma update_nodes_fails h r ids :
  repair_all h ids = None ->
  fails (update_nodes (mkTrie h r (Some (Some <$> ids)))).
Proof.
  unfold repair_all, repair. intros H. unfold update_nodes.
  eapply bind_fails_after; [apply ntu_len_ids|].
  rewrite <- pairs_length.
  destruct (run_pairs (seed_pair (default 0 (last ids))) (pairs ids) h)
    as [h1|] eqn:H1.
  2:{ destruct (last ids) as [term|] eqn:Hlast.
      - apply bind_fails. eapply for_range_pairs_fails; [| |exact H1].
        + intros i [a b] h0 h3 [Ha Hb]%pairs_lookup_inv Hs. by eapply init_body_seed.
        + intros i [a b] h0 [Ha Hb]%pairs_lookup_inv Hs. by eapply init_body_fails.
      - apply last_None in Hlast. subst ids. done. }
  destruct (last ids) as [term|] eqn:Hlast.
  2:{ apply last_None in Hlast. subst ids. intros a. done. }
  simpl in H1. rewrite H1 in H.
  eapply bind_fails_after.
  { eapply for_range_pairs; [|exact H1].
    intros i [a b] h0 h3 [Ha Hb]%pairs_lookup_inv Hs. by eapply init_body_seed. }
  eapply bind_fails_after; [by apply ntu_at_last|].
  destruct (h1 !! term) as [tnd|] eqn:Htnd; [|by apply bind_fails, deref_fails].
  eapply bind_fails_after; [by apply deref_eq|].
  eapply bind_fails_after; [apply ntu_len_ids|].
  rewrite <- pairs_length.
  destruct (run_pairs (compare_pair (word_freq tnd)) (pairs ids) h1) as [h2|] eqn:H2.
  2:{ apply bind_fails. eapply for_range_pairs_fails; [| |exact H2].
      - intros i [a b] h0 h3 [Ha Hb]%pairs_lookup_inv Hs. by eapply compare_body_pair.
      - intros i [a b] h0 [Ha Hb]%pairs_lookup_inv Hs. by eapply compare_body_fails. }
  eapply bind_fails_after.
  { eapply for_range_pairs; [|exact H2].
    intros i [a b] h0 h3 [Ha Hb]%pairs_lookup_inv Hs. by eapply compare_body_pair. }
  destruct (last (removelast ids)) as [pk|] eqn:Hpk.
  - by eapply fixup_last_fails.
  - (* a path of one node: [nodes_to_update[-2]] is out of range *)
    apply last_None in Hpk.
    destruct ids as [|x ids _] using rev_ind; [done|].
    rewrite removelast_last in Hpk. subst ids.
    unfold fixup_last. apply bind_fails. by intros a.
Qed.

(** ** The repair as specified and as implemented *)

(** C3, as stated, fails: when ["a"] is inserted after ["ab"], leaving the
    pair of the terminal out of the comparison pass keeps the child ['b']
    as best child of the node ['a'], where [update_nodes] selects the
    terminal. *)
Lemma repair_without_terminal_pair_differs :
  let t0 := snd (insert_path (lit "a") (trie_of [lit "ab"])) in
  nodes_to_update t0 = Some (Some <$> [0; 1; 4]) /\
  exists h' t',
    repair_without_terminal_pair (heap t0) [0; 1; 4] = Some h' /\
    update_nodes t0 = (Ok tt, t') /\
    heap t' <> h' /\
    best_child <$> (heap t' !! 1) = Some (Some 4) /\
    best_child <$> (h' !! 1) = Some (Some 2).
Proof.
  split; [reflexivity|]. eexists _, _.
  split; [vm_compute; reflexivity|]. split; [vm_compute; reflexivity|].
  split; [|split; reflexivity].
  intros H. apply (f_equal (fun h => best_child <$> (h !! 1))) in H.
  vm_compute in H. discriminate H.
Qed.

(** C3 (amended): the comparison pass of [update_nodes] processes every
    pair [(P[i], P[i+1])] of the path, the pair of the parent of the
    terminal and the terminal included, and the count of the parent of
    the terminal is raised to [f] afterwards when [f] is strictly
    greater.  The repair so specified is defined exactly when
    [update_nodes] returns, and then yields the same store. *)
Theorem update_nodes_compares_every_pair h r P :
  (forall h',
      repair_all h P = Some h' <->
      update_nodes (mkTrie h r (Some (Some <$> P)))
      = (Ok tt, mkTrie h' r (Some (Some <$> P)))) /\
  (forall t',
      update_nodes (mkTrie h r (Some (Some <$> P))) = (Ok tt, t') ->
      exists h', repair_all h P = Some h' /\
                 t' = mkTrie h' r (Some (Some <$> P))).
Proof.
  assert (forall t',
      update_nodes (mkTrie h r (Some (Some <$> P))) = (Ok tt, t') ->
      exists h', repair_all h P = Some h' /\
                 t' = mkTrie h' r (Some (Some <$> P))) as Hback.
  { intros t' Hrun. destruct (repair_all h P) as [h'|] eqn:E.
    - exists h'. split; [done|].
      rewrite (update_nodes_repair h r P h' E) in Hrun. congruence.
    - exfalso. apply (update_nodes_fails h r P E tt). by rewrite Hrun. }
  split; [|done]. intros h'. split.
  - apply update_nodes_repair.
  - intros Hrun. destruct (Hback _ Hrun) as (h'' & Hrep & Heq). congruence.
Qed.

(** ** What the methods leave alone, in every state *)

Lemma cache_only_refl t : cache_only t t.
Proof. repeat split. eauto. Qed.

Lemma cache_only_trans t1 t2 t3 :
  cache_only t1 t2 -> cache_only t2 t3 -> cache_only t1 t3.
Proof.
  intros (R1 & N1 & L1 & H1) (R2 & N2 & L2 & H2).
  split; [congruence|]. split; [congruence|]. split; [congruence|].
  intros n nd Hn. destruct (H1 n nd Hn) as (nd1 & Hn1 & ? & ? & ?).
  destruct (H2 n nd1 Hn1) as (nd2 & Hn2 & ? & ? & ?).
  exists nd2. split; [done|]. split; [congruence|]. split; congruence.
Qed.

Lemma keeps_ret {A} (a : A) : keeps cache_only (ret a).
Proof. intros t. apply cache_only_refl. Qed.

Lemma keeps_bind {A B} (m : M A) (k : A -> M B) :
  keeps cache_only m -> (forall a, keeps cache_only (k a)) ->
  keeps cache_only (bind m k).
Proof.
  intros Hm Hk t. unfold bind. specialize (Hm t).
  destruct (m t) as [[a| | |] t'] eqn:E; simpl in *; try done.
  eapply cache_only_trans; [exact Hm|]. apply Hk.
Qed.

Lemma keeps_deref r : keeps cache_only (deref r).
Proof. intros t. rewrite deref_state. apply cache_only_refl. Qed.

Lemma keeps_ntu_len : keeps cache_only ntu_len.
Proof.
  intros t. unfold ntu_len. destruct (nodes_to_update t); apply cache_only_refl.
Qed.

Lemma keeps_ntu_at i : keeps cache_only (ntu_at i).
Proof.
  intros t. unfold ntu_at. destruct (nodes_to_update t) as [l|]; [|apply cache_only_refl].
  destruct (py_pos _ _) as [j|]; [|apply cache_only_refl].
  destruct (l !! j); apply cache_only_refl.
Qed.

Lemma keeps_assign r (f : Node -> Node) :
  (forall nd, links (f nd) = links nd /\ char (f nd) = char nd /\
              word (f nd) = word nd) ->
  keeps cache_only (assign r f).
Proof.
  intros Hf [h r0 ntu]. unfold assign. destruct r as [n|]; [|apply cache_only_refl].
  cbn [heap]. destruct (h !! n) as [nd|] eqn:E; [|apply cache_only_refl].
  unfold cache_only. simpl. split; [done|]. split; [done|]. split; [by rewrite length_insert|].
  intros n0 nd0 Hn0. destruct (decide (n0 = n)) as [->|Hne].
  - exists (f nd). rewrite list_lookup_insert_eq by (by eapply lookup_lt_Some).
    split; [done|]. simplify_eq. apply Hf.
  - exists nd0. by rewrite list_lookup_insert_ne.
Qed.

Lemma keeps_for_each {A} (l : list A) (body : A -> M unit) :
  (forall x, keeps cache_only (body x)) -> keeps cache_only (for_each l body).
Proof.
  intros Hb. induction l as [|x l IH]; [apply keeps_ret|].
  simpl. apply keeps_bind; [apply Hb | done].
Qed.

Lemma keeps_init_body i : keeps cache_only (init_body i).
Proof.
  unfold init_body.
  apply keeps_bind; [apply keeps_ntu_at|]. intros node.
  apply keeps_bind; [apply keeps_deref|]. intros nd.
  destruct (best_child nd); [apply keeps_ret|].
  apply keeps_bind; [apply keeps_ntu_at|]. intros nxt.
  apply keeps_bind; [by apply keeps_assign|]. intros _.
  apply keeps_bind; [apply keeps_ntu_at|]. intros last.
  apply keeps_bind; [apply keeps_deref|]. intros lnd.
  by apply keeps_assign.
Qed.

Lemma keeps_compare_body f i : keeps cache_only (compare_body f i).
Proof.
  unfold compare_body.
  apply keeps_bind; [apply keeps_ntu_at|]. intros node.
  apply keeps_bind; [apply keeps_ntu_at|]. intros new_child.
  apply keeps_bind; [apply keeps_deref|]. intros nd.
  apply keeps_bind; [apply keeps_deref|]. intros b.
  destruct (word_freq b <? f).
  { apply keeps_bind; [by apply keeps_assign|]. intros _. by apply keeps_assign. }
  apply keeps_bind; [apply keeps_deref|]. intros nd'.
  apply keeps_bind; [apply keeps_deref|]. intros b'.
  destruct (f =? word_freq b'); [|apply keeps_ret].
  apply keeps_bind; [apply keeps_deref|]. intros nc.
  apply keeps_bind; [apply keeps_deref|]. intros nd''.
  apply keeps_bind; [apply keeps_deref|]. intros b''.
  destruct (char_ltb _ _); [by apply keeps_assign | apply keeps_ret].
Qed.

Lemma keeps_fixup_last f : keeps cache_only (fixup_last f).
Proof.
  unfold fixup_last.
  apply keeps_bind; [apply keeps_ntu_at|]. intros last2.
  apply keeps_bind; [apply keeps_deref|]. intros nd.
  destruct (word_freq nd <? f); [|apply keeps_ret].
  apply keeps_bind; [apply keeps_ntu_at|]. intros last2'.
  by apply keeps_assign.
Qed.

Lemma keeps_update_nodes : keeps cache_only update_nodes.
Proof.
  unfold update_nodes.
  apply keeps_bind; [apply keeps_ntu_len|]. intros n.
  apply keeps_bind; [apply keeps_for_each, keeps_init_body|]. intros _.
  apply keeps_bind; [apply keeps_ntu_at|]. intros last.
  apply keeps_bind; [apply keeps_deref|]. intros lnd.
  apply keeps_bind; [apply keeps_ntu_len|]. intros n'.
  apply keeps_bind; [apply keeps_for_each, keeps_compare_body|]. intros _.
  apply keeps_fixup_last.
Qed.

(** *** Growth of the store *)

Lemma grown_refl t : grown 0 t t.
Proof.
  split; [done|]. split; [lia|]. intros n nd Hn. exists nd. done.
Qed.

Lemma grown_mono a b t t' : a <= b -> grown a t t' -> grown b t t'.
Proof.
  intros Hab (R & L & H). split; [done|]. split; [lia|done].
Qed.

Lemma grown_trans a b t1 t2 t3 :
  grown a t1 t2 -> grown b t2 t3 -> grown (a + b) t1 t3.
Proof.
  intros (R1 & L1 & H1) (R2 & L2 & H2).
  split; [congruence|]. split; [lia|].
  intros n nd Hn. destruct (H1 n nd Hn) as (nd1 & Hn1 & C1 & Len1 & K1).
  destruct (H2 n nd1 Hn1) as (nd2 & Hn2 & C2 & Len2 & K2).
  exists nd2. split; [done|]. split; [congruence|]. split; [congruence|].
  intros j m Hj. by apply K2, K1.
Qed.

Lemma cache_only_grown t t' : cache_only t t' -> grown 0 t t'.
Proof.
  intros (R & _ & L & H). split; [done|]. split; [lia|].
  intros n nd Hn. destruct (H n nd Hn) as (nd' & Hn' & Hl & Hc & _).
  exists nd'. split; [done|]. split; [done|]. rewrite Hl. done.
Qed.

Lemma grown_bind {A B} (m : M A) (k : A -> M B) a b t :
  grown a t (snd (m t)) ->
  (forall x t1, m t = (Ok x, t1) -> grown b t1 (snd (k x t1))) ->
  grown (a + b) t (snd (bind m k t)).
Proof.
  intros Hm Hk. unfold bind.
  destruct (m t) as [[x| | |] t1] eqn:E; simpl in *;
    try (eapply grown_mono; [|exact Hm]; lia).
  eapply grown_trans; [exact Hm|]. by apply Hk.
Qed.

Lemma grown_bind0 {A B} (m : M A) (k : A -> M B) b t :
  grown 0 t (snd (m t)) ->
  (forall x t1, m t = (Ok x, t1) -> grown b t1 (snd (k x t1))) ->
  grown b t (snd (bind m k t)).
Proof. intros Hm Hk. change b with (0 + b). by apply grown_bind. Qed.

Lemma grown_read {A B} (m : M A) (k : A -> M B) b t :
  snd (m t) = t ->
  (forall x, m t = (Ok x, t) -> grown b t (snd (k x t))) ->
  grown b t (snd (bind m k t)).
Proof.
  intros Hm Hk. change b with (0 + b). apply grown_bind.
  - rewrite Hm. apply grown_refl.
  - intros x t1 E. assert (t1 = t) as -> by (by rewrite E in Hm). by apply Hk.
Qed.

Lemma get_link_inv r idx t v t' :
  get_link r idx t = (Ok v, t') ->
  t' = t /\ exists n nd j, r = Some n /\ heap t !! n = Some nd /\
                         py_pos (length (links nd)) idx = Some j /\
                         links nd !! j = Some v.
Proof.
  unfold get_link, bind, deref, ret, raise.
  destruct r as [n|]; [|done]. destruct (heap t !! n) as [nd|] eqn:E; [|done].
  destruct (py_pos _ _) as [j|] eqn:Ej; [|done].
  destruct (links nd !! j) as [w|] eqn:Ew; [|done].
  intros ?; simplify_eq. split; [done|]. by exists n, nd, j.
Qed.

Lemma grown_set_fields r (f : Node -> Node) t :
  (forall nd, links (f nd) = links nd /\ char (f nd) = char nd) ->
  grown 0 t (snd (assign r f t)).
Proof.
  intros Hf. destruct t as [h r0 ntu].
  unfold assign. destruct r as [n|]; [|apply grown_refl].
  cbn [heap]. destruct (h !! n) as [nd|] eqn:E; [|apply grown_refl].
  unfold grown. simpl. split; [done|]. rewrite length_insert. split; [lia|].
  intros n0 nd0 Hn0. destruct (decide (n0 = n)) as [->|Hne].
  - exists (f nd). rewrite list_lookup_insert_eq by (by eapply lookup_lt_Some).
    simpl in Hn0. simplify_eq. destruct (Hf nd) as [Hl Hc]. rewrite Hl. done.
  - exists nd0. by rewrite list_lookup_insert_ne.
Qed.

Lemma grown_ntu_append r t : grown 0 t (snd (ntu_append r t)).
Proof.
  unfold ntu_append. destruct (nodes_to_update t); [|apply grown_refl].
  destruct t as [h r0 ntu]. apply (grown_refl (mkTrie h r0 None)).
Qed.

(** The step [if cur.links[idx] is None: cur.links[idx] = Node(c)], given
    the value read from the link. *)
Lemma grown_new_link n nd j idx c t :
  heap t !! n = Some nd -> py_pos (length (links nd)) idx = Some j ->
  links nd !! j = Some None ->
  grown 1 t (snd ((fresh <- new_Node c ;; set_link (Some n) idx (Some fresh)) t)).
Proof.
  intros Hn Hj Hv. destruct t as [h r ntu]. simpl in *.
  erewrite new_child_eq by done. unfold add_child. rewrite Hn.
  unfold grown. cbn [snd heap root].
  split; [done|]. rewrite length_insert, length_app. simpl. split; [lia|].
  intros n0 nd0 Hn0. destruct (decide (n0 = n)) as [->|Hne].
  - simplify_eq. eexists.
    rewrite list_lookup_insert_eq
      by (rewrite length_app; apply lookup_lt_Some in Hn; simpl; lia).
    split; [done|]. split; [done|]. cbn [links with_links].
    rewrite length_insert. split; [done|].
    intros j0 m Hj0. destruct (decide (j0 = j)) as [->|Hnej]; [congruence|].
    by rewrite list_lookup_insert_ne.
  - exists nd0. rewrite list_lookup_insert_ne by done.
    by rewrite lookup_app_l_Some with (x := nd0).
Qed.

Lemma grown_link_step {B} cur idx c (k : M B) b t :
  (forall t1, grown 1 t t1 -> grown b t1 (snd (k t1))) ->
  grown (1 + b) t
    (snd ((child <- get_link cur idx ;;
           match child with
           | None => fresh <- new_Node c ;; set_link cur idx (Some fresh)
           | Some _ => ret tt
           end ;; k) t)).
Proof.
  intros Hk. apply grown_read; [apply get_link_state|].
  intros v Hv. apply get_link_inv in Hv as (_ & n & nd & j & -> & Hn & Hj & Hl).
  apply grown_bind.
  - destruct v as [m|].
    + simpl. eapply grown_mono; [|apply grown_refl]. lia.
    + by eapply grown_new_link.
  - intros [] t1 E. apply Hk.
    destruct v as [m|].
    + unfold ret in E. simplify_eq. eapply grown_mono; [|apply grown_refl]. lia.
    + pose proof (grown_new_link n nd j idx c t Hn Hj Hl) as G.
      by rewrite E in G.
Qed.

Lemma grown_insert_loop sentence :
  forall cur t, grown (length sentence) t (snd (insert_loop sentence cur t)).
Proof.
  induction sentence as [|c rest IH]; intros cur t; [apply grown_refl|].
  cbn [insert_loop length]. apply (grown_link_step cur (index_of c) c).
  intros t1 _.
  apply grown_bind0; [apply grown_ntu_append|].
  intros [] t2 _. apply grown_read; [apply get_link_state|].
  intros next _. apply IH.
Qed.

Lemma grown_insert_path sentence t :
  grown (length sentence + 1) t (snd (insert_path sentence t)).
Proof.
  unfold insert_path.
  apply grown_bind0.
  { destruct t as [h r0 ntu]. apply (grown_refl (mkTrie h r0 None)). }
  intros [] t1 _.
  apply grown_read; [done|]. intros r _.
  apply grown_bind; [apply grown_insert_loop|]. intros current_node t2 _.
  apply grown_bind0; [apply grown_ntu_append|].
  intros [] t3 _.
  change 1 with (1 + 0).
  apply (grown_link_step current_node 0 "$"%char). intros t4 _.
  apply grown_read; [apply get_link_state|]. intros terminal_node _.
  apply grown_read; [apply deref_state|]. intros tnd _.
  apply grown_bind0; [by apply grown_set_fields|].
  intros [] t5 _.
  apply grown_bind0; [by apply grown_set_fields|].
  intros [] t6 _. apply grown_ntu_append.
Qed.

Lemma grown_insert_iterative sentence t :
  grown (length sentence + 1) t (snd (insert_iterative sentence t)).
Proof.
  unfold insert_iterative.
  replace (length sentence + 1) with (length sentence + 1 + 0) by lia.
  apply grown_bind; [apply grown_insert_path|].
  intros [] t1 _. apply cache_only_grown, keeps_update_nodes.
Qed.

Lemma grown_for_each (L : list str) :
  forall t, grown (sum_list_with (fun s => length s + 1) L) t
                  (snd (for_each L insert_iterative t)).
Proof.
  induction L as [|s L IH]; intros t; [apply grown_refl|].
  cbn [for_each sum_list_with]. apply grown_bind; [apply grown_insert_iterative|].
  intros [] t1 _. apply IH.
Qed.

(** X1: whatever its outcome and whatever the state it is called in,
    [update_nodes] writes no attribute other than [best_child] and
    [word_freq]: the root, [nodes_to_update], the number of nodes and
    the links, character and word of every node are as before. *)
Theorem update_nodes_writes_only_caches t :
  root (snd (update_nodes t)) = root t /\
  nodes_to_update (snd (update_nodes t)) = nodes_to_update t /\
  length (heap (snd (update_nodes t))) = length (heap t) /\
  forall n nd, heap t !! n = Some nd ->
    exists nd', heap (snd (update_nodes t)) !! n = Some nd' /\
                links nd' = links nd /\ char nd' = char nd /\
                word nd' = word nd.
Proof. apply keeps_update_nodes. Qed.

(** X2: whatever its outcome and whatever the state it is called in,
    [insert_iterative] removes no node, changes no node's character,
    neither clears nor redirects a link that is set, keeps the root, and
    allocates at most [len(sentence) + 1] nodes. *)
Theorem insert_iterative_only_adds sentence t :
  root (snd (insert_iterative sentence t)) = root t /\
  length (heap t) <= length (heap (snd (insert_iterative sentence t)))
                  <= length (heap t) + (length sentence + 1) /\
  forall n nd, heap t !! n = Some nd ->
    exists nd', heap (snd (insert_iterative sentence t)) !! n = Some nd' /\
                char nd' = char nd /\
                length (links nd') = length (links nd) /\
                forall j m, links nd !! j = Some (Some m) ->
                            links nd' !! j = Some (Some m).
Proof. apply grown_insert_iterative. Qed.

(** X3: the constructor allocates at most one node for the root and,
    for every sentence, one node per character and one terminal,
    whatever the sentences are and whether or not it raises. *)
Theorem CatsTrie_init_size_bound sentences :
  length (heap (trie_of sentences))
  <= 1 + sum_list_with (fun s => length s + 1) sentences.
Proof.
  unfold trie_of, CatsTrie_new, CatsTrie_init.
  erewrite bind_eq by reflexivity.
  erewrite bind_eq by reflexivity.
  erewrite bind_eq by reflexivity.
  match goal with
  | |- context [for_each _ _ ?t0] =>
      destruct (grown_for_each sentences t0) as (_ & [_ H] & _)
  end.
  simpl in H |- *. lia.
Qed.

(** ** The query on lowercase prompts, case by case *)

(** The number of iterations of the [while] loop: the bound [fuel] is
    enough exactly when it is at least the number of characters that the
    completion adds to the prompt. *)
Lemma best_chain_exact h cnt t :
  WF h -> Shape h cnt [] -> Cached h cnt ->
  forall k p n nd tm,
    length t = length p + k -> best_of cnt p t ->
    node_at h p = Some n -> h !! n = Some nd ->
    terminal_at h t = Some tm ->
    forall fuel r ntu,
      best_loop fuel (best_child nd) (mkTrie h r ntu)
      = (if k <=? fuel then Ok (Some tm) else OutOfFuel, mkTrie h r ntu).
Proof.
  intros W HS HC. induction k as [|k IH]; intros p n nd tm Hlen Hbest Hat Hnd Htm.
  - intros fuel r ntu.
    destruct (best_chain h cnt t W HS HC 0 p n nd Hlen Hbest Hat Hnd)
      as (tm' & Htm' & _ & Hrun).
    assert (tm' = tm) as -> by congruence.
    rewrite Hrun by lia. done.
  - pose proof Hbest as (Hpos & Hpt & _).
    pose proof (sh_lower _ _ _ HS _ Hpos) as Ht.
    pose proof (lowercase_prefix _ _ Hpt Ht) as Hp.
    destruct (HC p n nd Hp Hat Hnd) as [(Hnone & _)|(t' & m & Hb' & Hw & Hbc & Hl)].
    { rewrite Hnone in Hpos by done. lia. }
    rewrite <- (best_of_unique _ _ _ _ Hbest Hb') in Hl.
    assert (child h n (next_slot p t) = Some m) as Hch by (apply child_Some; eauto).
    pose proof (wf_up _ W _ _ _ Hch) as [_ Hmlt].
    destruct (lookup_lt_is_Some_2 h m Hmlt) as [bnd Hbnd].
    destruct (child_towards h cnt p t n m bnd W HS Ht Hpt Hat Hch Hbnd)
      as (Hchar & [[-> _]|(ch & Hpch & Hatm)]); [lia|].
    assert (lowercase (p ++ [ch])) as Hlow by (by eapply lowercase_prefix).
    apply lowercase_app in Hlow as [_ [Hch' _]%lowercase_cons].
    assert (char bnd = ch) as Hcb.
    { rewrite Hchar. destruct Hpch as [x ->]. rewrite <- app_assoc.
      by rewrite next_char_app. }
    intros fuel r ntu. rewrite best_loop_eq.
    rewrite Hbc. erewrite bind_eq by (by apply deref_eq).
    rewrite Hcb, lower_not_dollar by done.
    destruct fuel as [|fuel]; [done|].
    rewrite (IH (p ++ [ch]) m bnd tm); [done| |
      by eapply best_of_deeper; [|apply prefix_app_r|]|done..].
    rewrite length_app. simpl. lia.
Qed.

(** The three cases of a query with a lowercase prompt on a trie that
    represents [L]. *)
Lemma query_cases L t p :
  Represents t L -> lowercase p ->
  (L = [] /\ p = [] /\
   forall fuel, autoComplete fuel p t = (Raise AttributeError, t))
  \/
  (p <> [] /\ (forall s, s ∈ L -> ~ p `prefix_of` s) /\
   forall fuel, autoComplete fuel p t = (Ok None, t))
  \/
  (exists s, best_of (occ L) p s /\
     forall fuel, autoComplete fuel p t
       = (if length s - length p <=? fuel then Ok (Some s) else OutOfFuel, t)).
Proof.
  intros HR Hp. pose proof HR as (Hroot & W & HS & HC).
  destruct (node_at (heap t) p) as [n|] eqn:Hn.
  - assert (is_Some (node_at (heap t) p)) as Hex by (by rewrite Hn).
    apply (sh_exists _ _ _ HS p Hp) in Hex.
    assert ((exists s, s ∈ L /\ p `prefix_of` s) \/ (L = [] /\ p = [])) as [Hc|[-> ->]].
    { destruct Hex as [->|[(s & Hs & Hps)|Hnil]].
      - destruct L as [|s L]; [by right|]. left. exists s.
        split; [by left | apply prefix_nil].
      - left. exists s. split; [by apply occ_pos | done].
      - apply prefix_nil_inv in Hnil as ->.
        destruct L as [|s L]; [by right|]. left. exists s.
        split; [by left | apply prefix_nil]. }
    + right. right.
      destruct (query_best L t p HR Hc) as (s & n' & tm & k & Hbest & Hn' & Htm & _ & _).
      exists s. split; [done|]. intros fuel.
      destruct t as [h r ntu]. simpl in *. subst r.
      assert (n' = n) as -> by congruence.
      pose proof (node_lt _ _ _ W Hn) as Hnlt.
      destruct (lookup_lt_is_Some_2 h n Hnlt) as [nd Hnd].
      pose proof Hbest as (Hpos & Hps & _).
      pose proof (node_lt _ _ _ W Htm) as Htmlt.
      destruct (lookup_lt_is_Some_2 h tm Htmlt) as [tnd Htnd].
      pose proof (sh_lower _ _ _ HS _ Hpos) as Hsl.
      pose proof (sh_terminal _ _ _ HS s tm tnd Hsl Htm Htnd) as Hrec.
      unfold autoComplete.
      erewrite bind_eq by reflexivity.
      erewrite bind_eq.
      2:{ apply prompt_loop_lower; [done..|]. by apply wf_root. }
      unfold node_at in Hn. cbn [root]. rewrite Hn.
      erewrite bind_eq by (by apply deref_eq).
      unfold bind at 1.
      rewrite (best_chain_exact h (occ L) s W HS HC (length s - length p) p n nd tm);
        [|apply prefix_length in Hps; lia|done..].
      destruct (length s - length p <=? fuel); [|done].
      erewrite bind_eq by (by apply deref_eq).
      by rewrite Hrec.
    + left. split; [done|]. split; [done|]. intros fuel.
      destruct t as [h r ntu]. simpl in *. subst r.
      simplify_eq.
      pose proof (wf_root _ W) as Hlt.
      destruct (lookup_lt_is_Some_2 h 0 Hlt) as [nd Hnd].
      destruct (HC [] 0 nd Hp eq_refl Hnd) as [(_ & Hbc & _)|(s & m & (Hpos & _) & _)].
      2:{ rewrite occ_nil in Hpos. lia. }
      unfold autoComplete.
      erewrite bind_eq by reflexivity.
      erewrite bind_eq by reflexivity.
      cbn [root]. cbv beta iota.
      erewrite bind_eq by (by apply deref_eq).
      rewrite Hbc. by destruct fuel.
  - right. left.
    assert (~ (p = [] \/ (exists s, 0 < occ L s /\ p `prefix_of` s) \/ p `prefix_of` []))
      as Hno.
    { intros H. apply (sh_exists _ _ _ HS p Hp) in H as [? H]. congruence. }
    split; [intros ->; apply Hno; by left|]. split.
    + intros s Hs Hps. apply Hno. right. left. exists s.
      split; [by apply occ_pos | done].
    + intros fuel. by apply (query_absent L).
Qed.

Lemma lowercase_Represents L t :
  Forall lowercase L -> CatsTrie_new L = (Ok tt, t) -> Represents t L.
Proof.
  intros HL Ht. destruct (build_spec L HL) as (t' & Ht' & HR). congruence.
Qed.

Lemma query_result L t p fuel s :
  Represents t L -> lowercase p ->
  fst (autoComplete fuel p t) = Ok (Some s) ->
  best_of (occ L) p s /\
  forall fuel', fst (autoComplete fuel' p t)
                = if length s - length p <=? fuel' then Ok (Some s) else OutOfFuel.
Proof.
  intros HR Hp Hrun.
  destruct (query_cases L t p HR Hp)
    as [(_ & _ & H)|[(_ & _ & H)|(s0 & Hbest & H)]];
    rewrite H in Hrun; simpl in Hrun; try done.
  destruct (length s0 - length p <=? fuel); [|done]. simplify_eq.
  split; [done|]. intros fuel'. by rewrite H.
Qed.

Lemma best_of_bump_inv cnt s p t :
  best_of (bump cnt s) p t -> t <> s -> best_of cnt p t.
Proof.
  intros (Hpos & Hp & Hall) Hne.
  rewrite bump_other in Hpos by done.
  split; [done|]. split; [done|]. intros x Hx Hpx.
  assert (0 < bump cnt s x) as Hbx by (apply (proj2 (bump_pos cnt s x)); by left).
  destruct (Hall x Hbx Hpx) as [Hlt|[Heq Hs]].
  - left. rewrite (bump_other cnt s t) in Hlt by done.
    pose proof (bump_ge cnt s x). lia.
  - rewrite (bump_other cnt s t) in Heq by done.
    destruct (decide (x = s)) as [->|Hxs].
    + left. rewrite bump_same in Heq. lia.
    + right. rewrite bump_other in Heq by done. done.
Qed.

Lemma best_of_occ_snoc L s p t :
  best_of (occ (L ++ [s])) p t <-> best_of (bump (occ L) s) p t.
Proof.
  split; apply best_of_ext; intros x; by rewrite occ_snoc.
Qed.

(** X4: on a trie built from lowercase sentences (the empty sentence
    included), a query with a lowercase prompt never returns a string
    that was not inserted, nor one that does not start with the prompt:
    a returned string is an inserted sentence that starts with the prompt
    and is at least as good as every other one, whatever the loop bound. *)
Theorem autoComplete_returns_only_inserted L t p fuel s :
  Forall lowercase L -> CatsTrie_new L = (Ok tt, t) -> lowercase p ->
  fst (autoComplete fuel p t) = Ok (Some s) ->
  s ∈ L /\ p `prefix_of` s /\
  forall x, x ∈ L -> p `prefix_of` x -> beats (occ L) s x.
Proof.
  intros HL Ht Hp Hrun. pose proof (lowercase_Represents L t HL Ht) as HR.
  destruct (query_result L t p fuel s HR Hp Hrun) as [(Hpos & Hps & Hall) _].
  split; [by apply occ_pos|]. split; [done|].
  intros x Hx Hpx. apply Hall; [by apply occ_pos | done].
Qed.

Lemma autoComplete_returns_only_inserted_witness :
  lit "abc" ∈ [lit "abd"; lit ""; lit "abc"] /\
  lit "ab" `prefix_of` lit "abc" /\
  forall x, x ∈ [lit "abd"; lit ""; lit "abc"] -> lit "ab" `prefix_of` x ->
            beats (occ [lit "abd"; lit ""; lit "abc"]) (lit "abc") x.
Proof.
  apply (autoComplete_returns_only_inserted [lit "abd"; lit ""; lit "abc"]
           (trie_of [lit "abd"; lit ""; lit "abc"]) (lit "ab") 3 (lit "abc")).
  - repeat constructor; done.
  - reflexivity.
  - repeat constructor.
  - reflexivity.
Defined.

(** X5: on a trie built from lowercase sentences, a query with a
    lowercase prompt returns [None] exactly when the prompt is not empty
    and no inserted sentence starts with it. *)
Theorem autoComplete_None_iff L t p fuel :
  Forall lowercase L -> CatsTrie_new L = (Ok tt, t) -> lowercase p ->
  fst (autoComplete fuel p t) = Ok None
  <-> p <> [] /\ forall s, s ∈ L -> ~ p `prefix_of` s.
Proof.
  intros HL Ht Hp. pose proof (lowercase_Represents L t HL Ht) as HR.
  destruct (query_cases L t p HR Hp)
    as [(-> & -> & H)|[(Hne & Hno & H)|(s0 & (Hpos & Hps & _) & H)]];
    rewrite H; simpl.
  - split; [done | by intros [? _]].
  - done.
  - split.
    + by destruct (_ <=? _).
    + intros [_ Hno]. exfalso. apply (Hno s0); [by apply occ_pos | done].
Qed.

Lemma autoComplete_None_iff_witness :
  fst (autoComplete 0 (lit "b") (trie_of [lit "abc"; lit ""])) = Ok None
  <-> lit "b" <> [] /\
      forall s, s ∈ [lit "abc"; lit ""] -> ~ lit "b" `prefix_of` s.
Proof.
  apply (autoComplete_None_iff [lit "abc"; lit ""]).
  - repeat constructor; done.
  - reflexivity.
  - repeat constructor.
Defined.

(** X6: the [while] loop of [autoComplete] runs exactly
    [len(result) - len(prompt)] times: a query that returns a sentence
    returns it with every loop bound of at least that many iterations,
    and runs out of iterations with every smaller one. *)
Theorem autoComplete_loop_iterations L t p fuel0 s :
  Forall lowercase L -> CatsTrie_new L = (Ok tt, t) -> lowercase p ->
  fst (autoComplete fuel0 p t) = Ok (Some s) ->
  forall fuel,
    fst (autoComplete fuel p t)
    = if length s - length p <=? fuel then Ok (Some s) else OutOfFuel.
Proof.
  intros HL Ht Hp Hrun. pose proof (lowercase_Represents L t HL Ht) as HR.
  by destruct (query_result L t p fuel0 s HR Hp Hrun) as [_ H].
Qed.

Lemma autoComplete_loop_iterations_witness :
  fst (autoComplete 2 (lit "a") (trie_of [lit "abcd"; lit "b"])) = OutOfFuel /\
  fst (autoComplete 3 (lit "a") (trie_of [lit "abcd"; lit "b"]))
  = Ok (Some (lit "abcd")).
Proof.
  split.
  - apply (autoComplete_loop_iterations [lit "abcd"; lit "b"]
             (trie_of [lit "abcd"; lit "b"]) (lit "a") 5 (lit "abcd")
             ltac:(repeat constructor; done) eq_refl
             ltac:(repeat constructor) eq_refl 2).
  - apply (autoComplete_loop_iterations [lit "abcd"; lit "b"]
             (trie_of [lit "abcd"; lit "b"]) (lit "a") 5 (lit "abcd")
             ltac:(repeat constructor; done) eq_refl
             ltac:(repeat constructor) eq_refl 3).
Defined.

(** X7: typing on along a suggestion keeps the suggestion: when the
    query on a lowercase prompt [p] returns [s], the query on every
    prompt between [p] and [s] returns [s] as well, with the same loop
    bound. *)
Theorem autoComplete_stable_along_result L t p q fuel s :
  Forall lowercase L -> CatsTrie_new L = (Ok tt, t) -> lowercase p ->
  fst (autoComplete fuel p t) = Ok (Some s) ->
  p `prefix_of` q -> q `prefix_of` s ->
  fst (autoComplete fuel q t) = Ok (Some s).
Proof.
  intros HL Ht Hp Hrun Hpq Hqs. pose proof (lowercase_Represents L t HL Ht) as HR.
  destruct (query_result L t p fuel s HR Hp Hrun) as [Hbest Hall].
  pose proof (best_of_deeper _ _ _ _ Hbest Hpq Hqs) as Hbq.
  pose proof HR as (_ & _ & HS & _).
  assert (lowercase q) as Hq.
  { eapply lowercase_prefix; [exact Hqs|].
    apply (sh_lower _ _ _ HS). by destruct Hbest. }
  rewrite Hall in Hrun.
  destruct (length s - length p <=? fuel) eqn:E; [|done].
  apply Nat.leb_le in E. apply prefix_length in Hpq.
  destruct (query_cases L t q HR Hq)
    as [(-> & _ & _)|[(_ & Hno & _)|(s0 & Hb0 & H)]].
  - destruct Hbest as (Hpos & _). rewrite occ_nil in Hpos. lia.
  - exfalso. destruct Hbq as (Hpos & ? & _). apply (Hno s); [by apply occ_pos|done].
  - rewrite (best_of_unique _ _ _ _ Hb0 Hbq) in H. rewrite H. simpl.
    destruct (Nat.leb_spec (length s - length q) fuel); [done|lia].
Qed.

Lemma autoComplete_stable_along_result_witness :
  fst (autoComplete 3 (lit "abc") (trie_of [lit "abcd"; lit "abd"; lit "abcd"]))
  = Ok (Some (lit "abcd")).
Proof.
  apply (autoComplete_stable_along_result [lit "abcd"; lit "abd"; lit "abcd"]
           (trie_of [lit "abcd"; lit "abd"; lit "abcd"]) (lit "a") (lit "abc")).
  - repeat constructor; done.
  - reflexivity.
  - repeat constructor.
  - reflexivity.
  - by exists (lit "bc").
  - by exists (lit "d").
Defined.

(** X8: looking up an inserted sentence: the query on a sentence [s] of
    the corpus returns [s] itself exactly when no inserted sentence that
    starts with [s] was inserted more often than [s]. *)
Theorem autoComplete_sentence_itself L t s fuel :
  Forall lowercase L -> CatsTrie_new L = (Ok tt, t) -> s ∈ L ->
  fst (autoComplete fuel s t) = Ok (Some s)
  <-> forall x, x ∈ L -> s `prefix_of` x -> occ L x <= occ L s.
Proof.
  intros HL Ht Hs. pose proof (lowercase_Represents L t HL Ht) as HR.
  assert (lowercase s) as Hlow.
  { rewrite Forall_forall in HL. by apply HL. }
  split.
  - intros Hrun x Hx Hsx.
    destruct (query_result L t s fuel s HR Hlow Hrun) as [(_ & _ & Hall) _].
    destruct (Hall x) as [?|[? _]]; [by apply occ_pos | done | lia..].
  - intros Hall.
    assert (best_of (occ L) s s) as Hbest.
    { split; [by apply occ_pos|]. split; [done|]. intros x Hx Hsx.
      apply occ_pos in Hx. specialize (Hall x Hx Hsx).
      destruct (decide (occ L x = occ L s)) as [Heq|Hne]; [|left; lia].
      right. split; [done|]. by apply str_ltb_prefix. }
    destruct (query_cases L t s HR Hlow)
      as [(-> & _ & _)|[(_ & Hno & _)|(s0 & Hb0 & H)]].
    + by apply elem_of_nil in Hs.
    + exfalso. by apply (Hno s).
    + rewrite (best_of_unique _ _ _ _ Hb0 Hbest) in H. rewrite H. simpl.
      by rewrite Nat.sub_diag.
Qed.

Lemma autoComplete_sentence_itself_witness :
  fst (autoComplete 0 (lit "ab") (trie_of [lit "abc"; lit "ab"; lit "abc"]))
  = Ok (Some (lit "ab"))
  <-> forall x, x ∈ [lit "abc"; lit "ab"; lit "abc"] -> lit "ab" `prefix_of` x ->
                occ [lit "abc"; lit "ab"; lit "abc"] x
                <= occ [lit "abc"; lit "ab"; lit "abc"] (lit "ab").
Proof.
  apply (autoComplete_sentence_itself [lit "abc"; lit "ab"; lit "abc"]).
  - repeat constructor; done.
  - reflexivity.
  - right. by left.
Defined.

(** X9: what one more insertion does to the answers: after inserting a
    lowercase sentence [s] into a built trie, the query on a lowercase
    prompt that is not a prefix of [s] answers as before, and the query
    on any lowercase prompt answers as before or returns [s]. *)
Theorem insert_changes_answers_to_inserted_only L t s p :
  Forall lowercase L -> CatsTrie_new L = (Ok tt, t) ->
  lowercase s -> lowercase p ->
  exists t',
    insert_iterative s t = (Ok tt, t') /\
    (~ p `prefix_of` s ->
     forall fuel, fst (autoComplete fuel p t') = fst (autoComplete fuel p t)) /\
    (forall fuel, length s - length p <= fuel ->
       fst (autoComplete fuel p t') = fst (autoComplete fuel p t) \/
       fst (autoComplete fuel p t') = Ok (Some s)).
Proof.
  intros HL Ht Hs Hp. pose proof (lowercase_Represents L t HL Ht) as HR.
  assert (Forall lowercase (L ++ [s])) as HL'.
  { apply Forall_app. split; [done|]. by constructor. }
  destruct (build_spec (L ++ [s]) HL') as (t' & Ht' & HR').
  rewrite (CatsTrie_new_snoc L s t Ht) in Ht'.
  exists t'. split; [done|].
  assert (forall x, best_of (occ (L ++ [s])) p x -> x <> s ->
            forall fuel, fst (autoComplete fuel p t') = fst (autoComplete fuel p t))
    as Hsame.
  { intros x Hbx Hne fuel.
    apply best_of_occ_snoc in Hbx. pose proof (best_of_bump_inv _ _ _ _ Hbx Hne) as Hb.
    apply best_of_occ_snoc in Hbx.
    destruct (query_cases L t p HR Hp)
      as [(-> & _ & _)|[(_ & Hno & _)|(s0 & Hb0 & H)]].
    - destruct Hb as (Hpos & _). rewrite occ_nil in Hpos. lia.
    - exfalso. destruct Hb as (Hpos & ? & _). apply (Hno x); [by apply occ_pos|done].
    - rewrite (best_of_unique _ _ _ _ Hb0 Hb) in H.
      destruct (query_cases (L ++ [s]) t' p HR' Hp)
        as [(Hnil & _ & _)|[(_ & Hno & _)|(s1 & Hb1 & H')]].
      + by destruct L.
      + exfalso. destruct Hbx as (Hpos & ? & _). apply (Hno x); [by apply occ_pos|done].
      + rewrite (best_of_unique _ _ _ _ Hb1 Hbx) in H'. by rewrite H, H'. }
  split.
  - intros Hps fuel.
    destruct (query_cases (L ++ [s]) t' p HR' Hp)
      as [(Hnil & _ & _)|[(Hne & Hno & H')|(s1 & Hb1 & H')]].
    + by destruct L.
    + destruct (query_cases L t p HR Hp)
        as [(_ & -> & _)|[(_ & _ & H)|(s0 & (Hpos & Hps0 & _) & _)]].
      * done.
      * by rewrite H, H'.
      * exfalso. apply (Hno s0); [|done].
        apply elem_of_app. left. by apply occ_pos.
    + apply (Hsame s1 Hb1). intros ->. by destruct Hb1 as (_ & ? & _).
  - intros fuel Hfuel.
    destruct (query_cases (L ++ [s]) t' p HR' Hp)
      as [(Hnil & _ & _)|[(Hne & Hno & H')|(s1 & Hb1 & H')]].
    + by destruct L.
    + left. destruct (query_cases L t p HR Hp)
        as [(_ & -> & _)|[(_ & _ & H)|(s0 & (Hpos & Hps0 & _) & _)]].
      * done.
      * by rewrite H, H'.
      * exfalso. apply (Hno s0); [|done].
        apply elem_of_app. left. by apply occ_pos.
    + destruct (decide (s1 = s)) as [->|Hne].
      * right. rewrite H'. simpl.
        destruct (Nat.leb_spec (length s - length p) fuel); [done|lia].
      * left. by apply (Hsame s1).
Qed.

Lemma insert_changes_answers_to_inserted_only_witness :
  exists t',
    insert_iterative (lit "ab") (trie_of [lit "abc"; lit "b"]) = (Ok tt, t') /\
    (~ lit "a" `prefix_of` lit "ab" ->
     forall fuel, fst (autoComplete fuel (lit "a") t')
                  = fst (autoComplete fuel (lit "a") (trie_of [lit "abc"; lit "b"]))) /\
    (forall fuel, length (lit "ab") - length (lit "a") <= fuel ->
       fst (autoComplete fuel (lit "a") t')
       = fst (autoComplete fuel (lit "a") (trie_of [lit "abc"; lit "b"])) \/
       fst (autoComplete fuel (lit "a") t') = Ok (Some (lit "ab"))).
Proof.
  apply (insert_changes_answers_to_inserted_only [lit "abc"; lit "b"]).
  - repeat constructor; done.
  - reflexivity.
  - repeat constructor.
  - repeat constructor.
Defined.

(** ** Characters outside the alphabet *)

Lemma py_pos_out_of_range c :
  nat_of_ascii c < 69 \/ 122 < nat_of_ascii c -> py_pos 27 (index_of c) = None.
Proof.
  intros H. unfold py_pos, index_of.
  destruct (Z.leb_spec 0 (Z.of_nat (nat_of_ascii c) - 97 + 1)).
  - destruct (Z.ltb_spec (Z.of_nat (nat_of_ascii c) - 97 + 1) (Z.of_nat 27)); [lia|done].
  - destruct (Z.leb_spec (- Z.of_nat 27) (Z.of_nat (nat_of_ascii c) - 97 + 1)); [lia|done].
Qed.

Lemma py_pos_terminal_slot c :
  nat_of_ascii c = 96 \/ nat_of_ascii c = 69 -> py_pos 27 (index_of c) = Some 0.
Proof. unfold py_pos, index_of. by intros [-> | ->]. Qed.

Lemma py_pos_wrapped c : py_pos 27 (index_of (wrapped c)) = py_pos 27 (index_of c).
Proof.
  unfold wrapped.
  destruct (Nat.leb_spec 70 (nat_of_ascii c)); [|done].
  destruct (Nat.leb_spec (nat_of_ascii c) 95); [|done]. simpl.
  unfold index_of. rewrite nat_ascii_embedding by lia.
  unfold py_pos.
  destruct (Z.leb_spec 0 (Z.of_nat (nat_of_ascii c + 27) - 97 + 1)); [|lia].
  destruct (Z.ltb_spec (Z.of_nat (nat_of_ascii c + 27) - 97 + 1) (Z.of_nat 27)); [|lia].
  destruct (Z.leb_spec 0 (Z.of_nat (nat_of_ascii c) - 97 + 1)); [lia|].
  destruct (Z.leb_spec (- Z.of_nat 27) (Z.of_nat (nat_of_ascii c) - 97 + 1)); [|lia].
  f_equal. lia.
Qed.

Lemma get_link_wrapped r c t :
  Forall (fun nd => length (links nd) = 27) (heap t) ->
  get_link r (index_of (wrapped c)) t = get_link r (index_of c) t.
Proof.
  intros H. unfold get_link, bind, deref.
  destruct r as [n|]; [|done]. destruct (heap t !! n) as [nd|] eqn:E; [|done].
  rewrite Forall_lookup in H. rewrite (H n nd E). by rewrite py_pos_wrapped.
Qed.

Lemma prompt_loop_wrapped t p :
  Forall (fun nd => length (links nd) = 27) (heap t) ->
  forall r, prompt_loop (wrapped <$> p) r t = prompt_loop p r t.
Proof.
  intros H. induction p as [|c p IH]; intros r; [done|].
  cbn [fmap list_fmap prompt_loop]. unfold bind.
  rewrite get_link_wrapped by done.
  pose proof (get_link_state r (index_of c) t) as Hst.
  destruct (get_link r (index_of c) t) as [[v| | |] t1]; try done.
  simpl in Hst. subst t1. destruct v; [apply IH | done].
Qed.

(** X10: a negative index counts from the end of [links], so a prompt
    character from ['F'] to ['_'] reads the slot of the letter 27 code
    points above it: in every state whose nodes have their 27 links, the
    query on a prompt and the query on the prompt with these characters
    replaced by the letters have the same outcome. *)
Theorem autoComplete_negative_index_wraps t p fuel :
  Forall (fun nd => length (links nd) = 27) (heap t) ->
  autoComplete fuel p t = autoComplete fuel (wrapped <$> p) t.
Proof.
  intros H. unfold autoComplete, bind. simpl.
  by rewrite prompt_loop_wrapped.
Qed.

Lemma autoComplete_negative_index_wraps_witness :
  autoComplete 3 (lit "aGc") (trie_of [lit "abc"; lit "b"])
  = autoComplete 3 (wrapped <$> lit "aGc") (trie_of [lit "abc"; lit "b"])
  /\ wrapped <$> lit "aGc" = lit "abc".
Proof.
  split; [|reflexivity].
  apply (autoComplete_negative_index_wraps (trie_of [lit "abc"; lit "b"])).
  vm_compute. repeat constructor.
Defined.

(** The loop over the prompt, for a prompt that starts with lowercase
    letters. *)
Lemma prompt_loop_lower_app h r ntu p q :
  WF h -> lowercase p -> forall n, n < length h ->
  prompt_loop (p ++ q) (Some n) (mkTrie h r ntu)
  = match walk h n (addr p) with
    | Some m => prompt_loop q (Some m) (mkTrie h r ntu)
    | None => (Ok None, mkTrie h r ntu)
    end.
Proof.
  intros W. induction p as [|c p IH]; intros Hp n Hn; [done|].
  apply lowercase_cons in Hp as [Hc Hp].
  destruct (lookup_lt_is_Some_2 h n Hn) as [nd Hnd].
  pose proof (wf_links _ W _ _ Hnd) as Hlen.
  pose proof (slot_lower _ Hc) as Hslot.
  destruct (lookup_lt_is_Some_2 (links nd) (slot c)) as [v Hv]; [lia|].
  cbn [app prompt_loop addr map walk].
  erewrite bind_eq.
  2:{ eapply get_link_eq; [done| |done]. rewrite Hlen. by apply index_of_lower. }
  unfold child. rewrite Hnd, Hv. destruct v as [m|]; [|done].
  apply IH; [done|].
  assert (child h n (slot c) = Some m) as Hch by (apply child_Some; eauto).
  by apply (wf_up _ W) in Hch as [_ ?].
Qed.

Lemma get_link_out_of_range h r ntu n nd c :
  WF h -> h !! n = Some nd ->
  nat_of_ascii c < 69 \/ 122 < nat_of_ascii c ->
  get_link (Some n) (index_of c) (mkTrie h r ntu)
  = (Raise IndexError, mkTrie h r ntu).
Proof.
  intros W Hn Hc. unfold get_link.
  erewrite bind_eq by (by apply deref_eq).
  rewrite (wf_links _ W _ _ Hn). by rewrite py_pos_out_of_range.
Qed.

(** X11: a prompt character below ['E'] or above ['z'] indexes [links]
    out of range: on a trie built from lowercase sentences, the query on
    a prompt whose lowercase part before such a character starts an
    inserted sentence (or is empty) raises IndexError, and the query on
    a prompt whose lowercase part before it starts no inserted sentence
    returns [None]. *)
Theorem autoComplete_out_of_range_char L t p c rest fuel :
  Forall lowercase L -> CatsTrie_new L = (Ok tt, t) -> lowercase p ->
  nat_of_ascii c < 69 \/ 122 < nat_of_ascii c ->
  (p = [] \/ (exists s, s ∈ L /\ p `prefix_of` s) ->
   autoComplete fuel (p ++ c :: rest) t = (Raise IndexError, t)) /\
  (p <> [] -> (forall s, s ∈ L -> ~ p `prefix_of` s) ->
   autoComplete fuel (p ++ c :: rest) t = (Ok None, t)).
Proof.
  intros HL Ht Hp Hc. pose proof (lowercase_Represents L t HL Ht) as HR.
  pose proof HR as (Hroot & W & HS & HC).
  destruct t as [h r ntu]. simpl in *. subst r.
  assert (autoComplete fuel (p ++ c :: rest) (mkTrie h 0 ntu)
          = match walk h 0 (addr p) with
            | Some m => (Raise IndexError, mkTrie h 0 ntu)
            | None => (Ok None, mkTrie h 0 ntu)
            end) as Hrun.
  { unfold autoComplete. erewrite bind_eq by reflexivity. cbn [root].
    unfold bind at 1.
    rewrite prompt_loop_lower_app; [|done..|by apply wf_root].
    destruct (walk h 0 (addr p)) as [m|] eqn:Hm; [|done].
    pose proof (node_lt _ _ _ W Hm) as Hmlt.
    destruct (lookup_lt_is_Some_2 h m Hmlt) as [nd Hnd].
    cbn [prompt_loop]. unfold bind at 1.
    by erewrite get_link_out_of_range. }
  rewrite Hrun. fold (node_at h p). split.
  - intros Hex.
    destruct (proj2 (sh_exists _ _ _ HS p Hp)) as [m ->]; [|done].
    destruct Hex as [->|(s & Hs & Hps)]; [by left|].
    right. left. exists s. split; [by apply occ_pos | done].
  - intros Hne Hno.
    destruct (node_at h p) as [m|] eqn:Hm; [|done]. exfalso.
    assert (is_Some (node_at h p)) as Hex by (by rewrite Hm).
    apply (sh_exists _ _ _ HS p Hp) in Hex as [->|[(s & Hs & Hps)|Hnil]].
    + done.
    + apply (Hno s); [by apply occ_pos | done].
    + by apply prefix_nil_inv in Hnil.
Qed.

Lemma autoComplete_out_of_range_char_witness :
  (lit "ab" = [] \/ (exists s, s ∈ [lit "abc"] /\ lit "ab" `prefix_of` s) ->
   autoComplete 3 (lit "ab" ++ " "%char :: lit "c") (trie_of [lit "abc"])
   = (Raise IndexError, trie_of [lit "abc"])) /\
  (lit "ab" <> [] -> (forall s, s ∈ [lit "abc"] -> ~ lit "ab" `prefix_of` s) ->
   autoComplete 3 (lit "ab" ++ " "%char :: lit "c") (trie_of [lit "abc"])
   = (Ok None, trie_of [lit "abc"])).
Proof.
  apply (autoComplete_out_of_range_char [lit "abc"]).
  - repeat constructor; done.
  - reflexivity.
  - repeat constructor.
  - left. vm_compute. lia.
Defined.

(** X12: the characters with index 0 and -27 (code points 96 and 69)
    read slot 0, the slot of the terminal: on a trie built from lowercase
    sentences, the query on a lowercase prompt followed by one of them
    raises AttributeError when the lowercase part is an inserted
    sentence (the query stands on the terminal, which has no best child),
    and returns [None] otherwise. *)
Theorem autoComplete_terminal_slot_char L t p c fuel :
  Forall lowercase L -> CatsTrie_new L = (Ok tt, t) -> lowercase p ->
  nat_of_ascii c = 96 \/ nat_of_ascii c = 69 ->
  autoComplete fuel (p ++ [c]) t
  = (if decide (p ∈ L) then Raise AttributeError else Ok None, t).
Proof.
  intros HL Ht Hp Hc. pose proof (lowercase_Represents L t HL Ht) as HR.
  pose proof HR as (Hroot & W & HS & HC).
  destruct t as [h r ntu]. simpl in *. subst r.
  unfold autoComplete. erewrite bind_eq by reflexivity. cbn [root].
  unfold bind at 1.
  rewrite prompt_loop_lower_app; [|done..|by apply wf_root].
  fold (node_at h p).
  destruct (node_at h p) as [m|] eqn:Hm.
  - pose proof (node_lt _ _ _ W Hm) as Hmlt.
    destruct (lookup_lt_is_Some_2 h m Hmlt) as [nd Hnd].
    pose proof (wf_links _ W _ _ Hnd) as Hlen.
    destruct (lookup_lt_is_Some_2 (links nd) 0) as [v Hv]; [lia|].
    destruct (sh_inner _ _ _ HS p m nd Hp Hm Hnd) as (_ & _ & Hterm).
    cbn [prompt_loop]. unfold bind at 1.
    erewrite get_link_eq; [|done| |done].
    2:{ rewrite Hlen. by apply py_pos_terminal_slot. }
    destruct v as [tm|].
    + assert (child h m 0 = Some tm) as Hch by (apply child_Some; eauto).
      assert (terminal_at h p = Some tm) as Htm by (apply walk_snoc; eauto).
      pose proof (node_lt _ _ _ W Htm) as Htmlt.
      destruct (lookup_lt_is_Some_2 h tm Htmlt) as [tnd Htnd].
      pose proof (sh_terminal _ _ _ HS p tm tnd Hp Htm Htnd) as Hrec.
      rewrite decide_True.
      2:{ apply occ_pos, Hterm. by rewrite Hch. }
      cbn [prompt_loop ret].
      erewrite bind_eq by (by apply deref_eq).
      rewrite Hrec. cbn [best_child]. by destruct fuel.
    + rewrite decide_False; [done|].
      intros Hin%occ_pos%Hterm. destruct Hin as [x Hx].
      apply child_Some in Hx as (nd' & Hnd' & Hx). congruence.
  - rewrite decide_False; [done|].
    intros Hin. assert (is_Some (node_at h p)) as [? ?]; [|congruence].
    apply (sh_exists _ _ _ HS p Hp). right. left. exists p.
    split; [by apply occ_pos | done].
Qed.

Lemma autoComplete_terminal_slot_char_witness :
  autoComplete 3 (lit "ab" ++ ["`"%char]) (trie_of [lit "ab"; lit "abc"])
  = (if decide (lit "ab" ∈ [lit "ab"; lit "abc"])
     then Raise AttributeError else Ok None, trie_of [lit "ab"; lit "abc"]).
Proof.
  apply (autoComplete_terminal_slot_char [lit "ab"; lit "abc"]).
  - repeat constructor; done.
  - reflexivity.
  - repeat constructor.
  - left. reflexivity.
Defined.

(** ** Sentences with a character out of range *)

Lemma bind_assoc {A B C} (m : M A) (f : A -> M B) (g : B -> M C) t :
  bind (bind m f) g t = bind m (fun x => bind (f x) g) t.
Proof. unfold bind. by destruct (m t) as [[a| | |] t']. Qed.

Lemma bind_ext {A B} (m : M A) (k k' : A -> M B) t :
  (forall a t', k a t' = k' a t') -> bind m k t = bind m k' t.
Proof. intros H. unfold bind. by destruct (m t) as [[a| | |] t']. Qed.

Lemma insert_loop_app p q :
  forall cur t,
    insert_loop (p ++ q) cur t = bind (insert_loop p cur) (insert_loop q) t.
Proof.
  induction p as [|c p IH]; intros cur t; [done|].
  cbn [app insert_loop].
  rewrite bind_assoc. apply bind_ext. intros child t1.
  rewrite bind_assoc. apply bind_ext. intros [] t2.
  rewrite bind_assoc. apply bind_ext. intros [] t3.
  rewrite bind_assoc. apply bind_ext. intros next t4.
  apply IH.
Qed.

(** The insertion of a sentence stops at the first character out of
    range, with the nodes of the characters before it in place. *)
Lemma insert_out_of_range L t p c rest :
  Represents t L -> lowercase p ->
  nat_of_ascii c < 69 \/ 122 < nat_of_ascii c ->
  exists h' ntu' last,
    insert_iterative (p ++ c :: rest) t = (Raise IndexError, mkTrie h' 0 ntu')
    /\ WF h' /\ Shape h' (occ L) p /\ Cached h' (occ L)
    /\ node_at h' p = Some last.
Proof.
  intros (Hroot & W & HS & HC) Hp Hc.
  destruct t as [h r ntu]. simpl in *. subst r.
  destruct (insert_loop_spec (occ L) p [] 0 h [] W HS HC) as
    (h1 & mid & last & Hrun & W1 & HS1 & HC1 & Htr & _);
    [constructor|done|done|].
  simpl in Hrun, HS1.
  pose proof (trace_last _ _ _ _ Htr) as Hat. rewrite last_snoc in Hat.
  symmetry in Hat. fold (node_at h1 p) in Hat.
  pose proof (node_lt _ _ _ W1 Hat) as Hlt.
  destruct (lookup_lt_is_Some_2 h1 last Hlt) as [ndl Hndl].
  exists h1, (Some (Some <$> mid)), last.
  split; [|done].
  assert (insert_path (p ++ c :: rest) (mkTrie h 0 ntu)
          = (Raise IndexError, mkTrie h1 0 (Some (Some <$> mid)))) as Hpath.
  { unfold insert_path.
    erewrite bind_eq by reflexivity.
    erewrite bind_eq by reflexivity.
    unfold bind at 1. rewrite insert_loop_app.
    cbn [with_ntu heap root nodes_to_update].
    change (@nil pyref) with (Some <$> @nil nat).
    erewrite bind_eq by exact Hrun.
    cbn [insert_loop]. unfold bind at 1.
    by erewrite get_link_out_of_range. }
  unfold insert_iterative, bind. by rewrite Hpath.
Qed.

(** X13: the constructor rejects a sentence with a character below
    ['E'] or above ['z'] (a space, a digit, a capital from ['A'] to
    ['D'], ...): when the sentences before it are lowercase and its
    characters before the offending one are, [CatsTrie(sentences)]
    raises IndexError. *)
Theorem CatsTrie_init_rejects_out_of_range L1 p c rest L2 :
  Forall lowercase L1 -> lowercase p ->
  nat_of_ascii c < 69 \/ 122 < nat_of_ascii c ->
  fst (CatsTrie_new (L1 ++ (p ++ c :: rest) :: L2)) = Raise IndexError.
Proof.
  intros HL Hp Hc.
  destruct (build_spec L1 HL) as (t & Ht & HR).
  destruct (insert_out_of_range L1 t p c rest HR Hp Hc)
    as (h' & ntu' & last & Hrun & _).
  unfold CatsTrie_new, CatsTrie_init in Ht |- *.
  erewrite bind_eq in Ht |- * by reflexivity.
  erewrite bind_eq in Ht |- * by reflexivity.
  erewrite bind_eq in Ht |- * by reflexivity.
  rewrite for_each_app. erewrite bind_eq by exact Ht.
  cbn [for_each]. unfold bind. by rewrite Hrun.
Qed.

Lemma CatsTrie_init_rejects_out_of_range_witness :
  fst (CatsTrie_new ([lit "abc"] ++ (lit "ab" ++ " "%char :: lit "c") :: [lit "b"]))
  = Raise IndexError.
Proof.
  apply (CatsTrie_init_rejects_out_of_range [lit "abc"] (lit "ab")).
  - repeat constructor; done.
  - repeat constructor.
  - left. vm_compute. lia.
Defined.

(** X14: an insertion that fails is not undone.  When [insert_iterative]
    is called on a built trie with a sentence whose lowercase part [p]
    before a character out of range starts no inserted sentence, it
    raises IndexError and leaves the nodes of [p] behind: the query on
    [p], which returned [None] before, now raises AttributeError. *)
Theorem failed_insert_leaves_dead_end L t p c rest :
  Forall lowercase L -> CatsTrie_new L = (Ok tt, t) ->
  lowercase p -> p <> [] -> (forall s, s ∈ L -> ~ p `prefix_of` s) ->
  nat_of_ascii c < 69 \/ 122 < nat_of_ascii c ->
  exists t',
    insert_iterative (p ++ c :: rest) t = (Raise IndexError, t') /\
    (forall fuel, autoComplete fuel p t = (Ok None, t)) /\
    (forall fuel, autoComplete fuel p t' = (Raise AttributeError, t')).
Proof.
  intros HL Ht Hp Hne Hno Hc. pose proof (lowercase_Represents L t HL Ht) as HR.
  destruct (insert_out_of_range L t p c rest HR Hp Hc)
    as (h' & ntu' & last & Hrun & W' & HS' & HC' & Hat).
  exists (mkTrie h' 0 ntu'). split; [done|]. split.
  - destruct (query_cases L t p HR Hp)
      as [(_ & -> & _)|[(_ & _ & H)|(s0 & (Hpos & Hps & _) & _)]]; [done..|].
    exfalso. apply (Hno s0); [by apply occ_pos | done].
  - intros fuel.
    pose proof (node_lt _ _ _ W' Hat) as Hlt.
    destruct (lookup_lt_is_Some_2 h' last Hlt) as [nd Hnd].
    destruct (HC' p last nd Hp Hat Hnd)
      as [(_ & Hbc & _)|(s0 & m & (Hpos & Hps & _) & _)].
    2:{ exfalso. apply (Hno s0); [by apply occ_pos | done]. }
    unfold autoComplete. erewrite bind_eq by reflexivity. cbn [root].
    erewrite bind_eq.
    2:{ apply prompt_loop_lower; [done..|]. by apply wf_root. }
    unfold node_at in Hat. rewrite Hat.
    erewrite bind_eq by (by apply deref_eq).
    rewrite Hbc. by destruct fuel.
Qed.

Lemma failed_insert_leaves_dead_end_witness :
  exists t',
    insert_iterative (lit "xy" ++ " "%char :: lit "z") (trie_of [lit "abc"])
    = (Raise IndexError, t') /\
    (forall fuel, autoComplete fuel (lit "xy") (trie_of [lit "abc"])
                  = (Ok None, trie_of [lit "abc"])) /\
    (forall fuel, autoComplete fuel (lit "xy") t' = (Raise AttributeError, t')).
Proof.
  apply (failed_insert_leaves_dead_end [lit "abc"]).
  - repeat constructor; done.
  - reflexivity.
  - repeat constructor.
  - done.
  - intros s Hs [k Hk]. apply list_elem_of_singleton in Hs. by subst s.
  - left. vm_compute. lia.
Defined.

(** ** The nodes of a built trie *)

Lemma grown_child t t' k n j m :
  grown k t t' -> child (heap t) n j = Some m -> child (heap t') n j = Some m.
Proof.
  intros (_ & _ & H) (nd & Hnd & Hl)%child_Some.
  destruct (H n nd Hnd) as (nd' & Hnd' & _ & _ & Hk).
  apply child_Some. exists nd'. split; [done|]. by apply Hk.
Qed.

Lemma insert_Reachable cnt s h ntu0 h' ntu' :
  WF h -> Shape h cnt [] -> Cached h cnt -> lowercase s -> Reachable h ->
  insert_iterative s (mkTrie h 0 ntu0) = (Ok tt, mkTrie h' 0 ntu') ->
  Reachable h'.
Proof.
  intros W HS HC Hs HReach Hrun.
  destruct (insert_spec cnt s h ntu0 W HS HC Hs)
    as (h2 & P & Hrun2 & W2 & _ & _ & Htr & Hfr & _).
  rewrite Hrun2 in Hrun. simplify_eq.
  pose proof (grown_insert_iterative s (mkTrie h 0 ntu0)) as G.
  rewrite Hrun2 in G. simpl in G.
  intros n Hn. destruct (decide (n ∈ P)) as [Hin|Hout].
  - destruct (path_elem h' s P Htr n Hin) as [(p & _ & Hp)|Ht]; eauto.
  - destruct (lookup_lt_is_Some_2 h' n Hn) as [nd Hnd].
    rewrite (Hfr n Hout) in Hnd. apply lookup_lt_Some in Hnd.
    destruct (HReach n Hnd) as [path Hpath]. exists path.
    eapply walk_mono; [|exact Hpath].
    intros a i m. apply (grown_child _ _ _ _ _ _ G).
Qed.

Lemma insert_all_Reachable L :
  forall L0 h ntu h' ntu',
    WF h -> Shape h (occ L0) [] -> Cached h (occ L0) -> Reachable h ->
    Forall lowercase L ->
    for_each L insert_iterative (mkTrie h 0 ntu) = (Ok tt, mkTrie h' 0 ntu') ->
    Reachable h'.
Proof.
  induction L as [|s L IH]; intros L0 h ntu h' ntu' W HS HC HR HL Hrun.
  { simpl in Hrun. unfold ret in Hrun. by simplify_eq. }
  apply Forall_cons in HL as [Hs HL].
  destruct (insert_spec (occ L0) s h ntu W HS HC Hs)
    as (h1 & P & Hrun1 & W1 & HS1 & HC1 & _).
  simpl in Hrun. erewrite bind_eq in Hrun by exact Hrun1.
  eapply (IH (L0 ++ [s]) h1); [done| | | |done|exact Hrun].
  - eapply Shape_ext; [|exact HS1]. intros x. by rewrite occ_snoc.
  - eapply Cached_ext; [|exact HC1]. intros x. by rewrite occ_snoc.
  - exact (insert_Reachable (occ L0) s h ntu h1 _ W HS HC Hs HR Hrun1).
Qed.

Lemma built_Reachable L t :
  Forall lowercase L -> CatsTrie_new L = (Ok tt, t) -> Reachable (heap t).
Proof.
  intros HL Ht.
  destruct (insert_all_spec L [] [Node_init "R"] None)
    as (h' & ntu' & Hrun & _);
    [apply root_only_WF | apply root_only_Shape | apply root_only_Cached | done |].
  unfold CatsTrie_new, CatsTrie_init in Ht.
  erewrite bind_eq in Ht by reflexivity.
  erewrite bind_eq in Ht by reflexivity.
  erewrite bind_eq in Ht by reflexivity.
  change (with_ntu None (with_root (length (heap no_objects))
            (with_heap (heap no_objects ++ [Node_init "R"]) no_objects)))
    with (mkTrie [Node_init "R"] 0 None) in Ht.
  rewrite Hrun in Ht. simplify_eq. simpl.
  eapply (insert_all_Reachable L []); [apply root_only_WF | apply root_only_Shape
    | apply root_only_Cached | | done | exact Hrun].
  intros n Hn. exists []. simpl in *. f_equal. lia.
Qed.

Lemma remove_dups_elem (l : list str) x : x ∈ remove_dups l -> x ∈ l.
Proof. apply elem_of_remove_dups. Qed.

Lemma elem_remove_dups (l : list str) x : x ∈ l -> x ∈ remove_dups l.
Proof. apply elem_of_remove_dups. Qed.

Lemma elem_of_prefixes_of p s : p ∈ prefixes_of s <-> p `prefix_of` s.
Proof.
  unfold prefixes_of. rewrite list_elem_of_fmap. split.
  - intros (i & -> & _). apply prefix_take.
  - intros Hp. exists (length p). split; [by apply prefix_is_take|].
    apply elem_of_seq. apply prefix_length in Hp. lia.
Qed.

Lemma elem_of_inner_keys L p :
  p ∈ remove_dups ([] :: (L ≫= prefixes_of))
  <-> p = [] \/ exists s, s ∈ L /\ p `prefix_of` s.
Proof.
  rewrite elem_of_remove_dups, elem_of_cons, list_elem_of_bind.
  split; (intros [?|(s & H1 & H2)]; [by left|right; exists s]).
  - by apply elem_of_prefixes_of in H1.
  - split; [by apply elem_of_prefixes_of | done].
Qed.

Lemma node_paths_NoDup L : Forall lowercase L -> NoDup (node_paths L).
Proof.
  intros HL. rewrite Forall_forall in HL.
  assert (forall p, p ∈ remove_dups ([] :: (L ≫= prefixes_of)) -> lowercase p) as Hin.
  { intros p [->|(s & Hs & Hp)]%elem_of_inner_keys; [constructor|].
    eapply lowercase_prefix; [done|]. by apply HL. }
  apply NoDup_app. split; [|split].
  - apply NoDup_fmap_2_strong; [|apply NoDup_remove_dups].
    intros x y Hx Hy. apply addr_inj; by apply Hin.
  - intros path (p & -> & Hp)%list_elem_of_fmap (s & Heq & Hs)%list_elem_of_fmap.
    apply (addr_terminal_neq p s); [by apply Hin | done].
  - apply NoDup_fmap_2_strong; [|apply NoDup_remove_dups].
    intros x y Hx Hy Heq.
    apply remove_dups_elem in Hx, Hy.
    apply addr_terminal_inj; [by apply HL | by apply HL | done].
Qed.

Lemma node_paths_exist L t path :
  Represents t L -> path ∈ node_paths L -> is_Some (walk (heap t) 0 path).
Proof.
  intros (_ & W & HS & _) Hin.
  apply elem_of_app in Hin as [(p & -> & Hp)%list_elem_of_fmap
                              |(s & -> & Hs%remove_dups_elem)%list_elem_of_fmap].
  - apply elem_of_inner_keys in Hp.
    assert (lowercase p) as Hlow.
    { destruct Hp as [->|(s & Hs & Hp)]; [constructor|].
      eapply lowercase_prefix; [done|]. apply (sh_lower _ _ _ HS). by apply occ_pos. }
    apply (sh_exists _ _ _ HS p Hlow).
    destruct Hp as [->|(s & Hs & Hp)]; [by left|].
    right. left. exists s. split; [by apply occ_pos | done].
  - apply occ_pos in Hs. pose proof (sh_lower _ _ _ HS _ Hs) as Hlow.
    destruct (proj2 (sh_exists _ _ _ HS s Hlow)) as [n Hn].
    { right. left. by exists s. }
    pose proof (node_lt _ _ _ W Hn) as Hlt.
    destruct (lookup_lt_is_Some_2 _ n Hlt) as [nd Hnd].
    destruct (sh_inner _ _ _ HS s n nd Hlow Hn Hnd) as (_ & _ & Ht).
    destruct (proj2 Ht Hs) as [m Hm]. exists m.
    apply walk_snoc. eauto.
Qed.

Lemma node_paths_cover L t path n :
  Represents t L -> walk (heap t) 0 path = Some n -> path ∈ node_paths L.
Proof.
  intros (_ & W & HS & _) Hn.
  destruct (reach_cases _ _ _ _ W HS Hn) as [(p & Hp & ->)|(q & Hq & ->)];
    apply elem_of_app.
  - left. apply list_elem_of_fmap. exists p. split; [done|].
    apply elem_of_inner_keys.
    assert (is_Some (node_at (heap t) p)) as Hex by (by exists n).
    apply (sh_exists _ _ _ HS p Hp) in Hex as [->|[(s & Hs & Hps)|Hnil]].
    + by left.
    + right. exists s. split; [by apply occ_pos | done].
    + left. by apply prefix_nil_inv in Hnil.
  - right. apply list_elem_of_fmap. exists q. split; [done|].
    apply elem_remove_dups, occ_pos.
    apply walk_snoc in Hn as (b & Hb & Hc).
    pose proof (node_lt _ _ _ W Hb) as Hlt.
    destruct (lookup_lt_is_Some_2 _ b Hlt) as [nd Hnd].
    destruct (sh_inner _ _ _ HS q b nd Hq Hb Hnd) as (_ & _ & Ht).
    apply Ht. by exists n.
Qed.

(** X15: the trie built from lowercase sentences has exactly one node
    for each distinct prefix of a sentence (the empty prefix is the
    root) and one terminal for each distinct sentence: no path has two
    nodes, and no node is left unreachable. *)
Theorem CatsTrie_node_count L t :
  Forall lowercase L -> CatsTrie_new L = (Ok tt, t) ->
  length (heap t)
  = length (remove_dups ([] :: (L ≫= prefixes_of))) + length (remove_dups L)
  /\ forall n, n < length (heap t) ->
       exists path, path ∈ node_paths L /\ walk (heap t) (root t) path = Some n /\
         forall path', walk (heap t) (root t) path' = Some n -> path' = path.
Proof.
  intros HL Ht. pose proof (lowercase_Represents L t HL Ht) as HR.
  pose proof (built_Reachable L t HL Ht) as HReach.
  pose proof HR as (Hroot & W & HS & _). rewrite Hroot.
  set (f := fun path => default 0 (walk (heap t) 0 path)).
  assert (length (node_paths L)
          = length (remove_dups ([] :: (L ≫= prefixes_of))) + length (remove_dups L))
    as Hlen.
  { unfold node_paths. by rewrite length_app, !length_fmap. }
  rewrite <- Hlen. split.
  - apply Nat.le_antisymm.
    + (* every node is at the end of one of the paths *)
      rewrite <- (length_seq (length (heap t)) 0), <- (length_fmap f (node_paths L)).
      apply submseteq_length, NoDup_submseteq; [apply NoDup_seq|].
      intros n [_ Hn]%elem_of_seq. simpl in Hn.
      destruct (HReach n Hn) as [path Hpath].
      apply list_elem_of_fmap. exists path. split.
      * unfold f. by rewrite Hpath.
      * by eapply node_paths_cover.
    + (* the paths end at different nodes *)
      rewrite <- (length_seq (length (heap t)) 0), <- (length_fmap f (node_paths L)).
      apply submseteq_length, NoDup_submseteq.
      * apply NoDup_fmap_2_strong; [|by apply node_paths_NoDup].
        intros x y Hx Hy Hxy.
        destruct (node_paths_exist L t x HR Hx) as [a Ha].
        destruct (node_paths_exist L t y HR Hy) as [b Hb].
        unfold f in Hxy. rewrite Ha, Hb in Hxy. simpl in Hxy. subst b.
        by eapply walk_inj.
      * intros n (path & -> & Hin)%list_elem_of_fmap.
        destruct (node_paths_exist L t path HR Hin) as [a Ha].
        unfold f. rewrite Ha. simpl. apply elem_of_seq.
        pose proof (node_lt _ _ _ W Ha). lia.
  - intros n Hn. destruct (HReach n Hn) as [path Hpath].
    exists path. split; [by eapply node_paths_cover|]. split; [done|].
    intros path' Hpath'. by eapply walk_inj.
Qed.

Lemma CatsTrie_node_count_witness :
  length (heap (trie_of [lit "ab"; lit "ac"; lit "ab"; lit ""]))
  = length (remove_dups ([] :: ([lit "ab"; lit "ac"; lit "ab"; lit ""] ≫= prefixes_of)))
    + length (remove_dups [lit "ab"; lit "ac"; lit "ab"; lit ""])
  /\ forall n, n < length (heap (trie_of [lit "ab"; lit "ac"; lit "ab"; lit ""])) ->
       exists path, path ∈ node_paths [lit "ab"; lit "ac"; lit "ab"; lit ""] /\
         walk (heap (trie_of [lit "ab"; lit "ac"; lit "ab"; lit ""]))
              (root (trie_of [lit "ab"; lit "ac"; lit "ab"; lit ""])) path = Some n /\
         forall path',
           walk (heap (trie_of [lit "ab"; lit "ac"; lit "ab"; lit ""]))
                (root (trie_of [lit "ab"; lit "ac"; lit "ab"; lit ""])) path' = Some n ->
           path' = path.
Proof.
  apply (CatsTrie_node_count [lit "ab"; lit "ac"; lit "ab"; lit ""]).
  - repeat constructor; done.
  - reflexivity.
Defined.

(** X16: the terminal of a sentence records how often the sentence was
    inserted: in the trie built from lowercase sentences, a lowercase
    string has a terminal exactly when it is one of the sentences, and
    that terminal is a ['$'] node without links or best child that holds
    the sentence as its word and the number of its insertions as its
    [word_freq]. *)
Theorem terminal_records_count L t s :
  Forall lowercase L -> CatsTrie_new L = (Ok tt, t) -> lowercase s ->
  (is_Some (walk (heap t) (root t) (addr s ++ [0])) <-> s ∈ L) /\
  forall tm nd,
    walk (heap t) (root t) (addr s ++ [0]) = Some tm -> heap t !! tm = Some nd ->
    nd = {| links := replicate 27 None; char := "$"; word := Some s;
            word_freq := occ L s; best_child := None |}.
Proof.
  intros HL Ht Hs. pose proof (lowercase_Represents L t HL Ht) as HR.
  pose proof HR as (Hroot & W & HS & _). rewrite Hroot. split.
  - split.
    + intros [tm Htm]. apply remove_dups_elem.
      pose proof (node_paths_cover L t _ tm HR Htm) as Hin.
      apply elem_of_app in Hin as [(p & Heq & Hp)%list_elem_of_fmap
                                  |(q & Heq & Hq)%list_elem_of_fmap].
      * exfalso. symmetry in Heq. revert Heq. apply addr_terminal_neq.
        apply elem_of_inner_keys in Hp as [->|(x & Hx & Hp)]; [constructor|].
        eapply lowercase_prefix; [done|]. apply (sh_lower _ _ _ HS). by apply occ_pos.
      * apply addr_terminal_inj in Heq; [by subst q|done|].
        apply (sh_lower _ _ _ HS). apply occ_pos. by apply remove_dups_elem.
    + intros Hin. apply (node_paths_exist L t); [done|].
      apply elem_of_app. right. apply list_elem_of_fmap. exists s.
      split; [done | by apply elem_remove_dups].
  - intros tm nd Htm Hnd. by apply (sh_terminal _ _ _ HS s tm nd).
Qed.

Lemma terminal_records_count_witness :
  (is_Some (walk (heap (trie_of [lit "ab"; lit "a"; lit "ab"]))
                 (root (trie_of [lit "ab"; lit "a"; lit "ab"]))
                 (addr (lit "ab") ++ [0]))
   <-> lit "ab" ∈ [lit "ab"; lit "a"; lit "ab"]) /\
  forall tm nd,
    walk (heap (trie_of [lit "ab"; lit "a"; lit "ab"]))
         (root (trie_of [lit "ab"; lit "a"; lit "ab"]))
         (addr (lit "ab") ++ [0]) = Some tm ->
    heap (trie_of [lit "ab"; lit "a"; lit "ab"]) !! tm = Some nd ->
    nd = {| links := replicate 27 None; char := "$"; word := Some (lit "ab");
            word_freq := occ [lit "ab"; lit "a"; lit "ab"] (lit "ab");
            best_child := None |}.
Proof.
  apply (terminal_records_count [lit "ab"; lit "a"; lit "ab"]).
  - repeat constructor; done.
  - reflexivity.
  - repeat constructor.
Defined.

(** X17: the two kinds of nodes.  In the trie built from lowercase
    sentences every node has 27 links and is either an inner node, which
    carries the last character of the prefix that leads to it (['R'] at
    the root) and no word, or a terminal, which carries ['$'], an
    inserted sentence as its word, no link and no best child: no word is
    stored in an inner node and nothing is linked below a terminal. *)
Theorem node_kinds L t n nd :
  Forall lowercase L -> CatsTrie_new L = (Ok tt, t) ->
  heap t !! n = Some nd ->
  length (links nd) = 27 /\
  ((exists p, lowercase p /\ walk (heap t) (root t) (addr p) = Some n /\
              (p = [] \/ exists s, s ∈ L /\ p `prefix_of` s) /\
              char nd = node_char p /\ char nd <> "$"%char /\ word nd = None)
   \/
   (exists s, s ∈ L /\ walk (heap t) (root t) (addr s ++ [0]) = Some n /\
              char nd = "$"%char /\ word nd = Some s /\
              links nd = replicate 27 None /\ best_child nd = None)).
Proof.
  intros HL Ht Hnd. pose proof (lowercase_Represents L t HL Ht) as HR.
  pose proof (built_Reachable L t HL Ht) as HReach.
  pose proof HR as (Hroot & W & HS & _). rewrite Hroot.
  split; [by eapply wf_links|].
  destruct (HReach n) as [path Hpath]; [by eapply lookup_lt_Some|].
  pose proof (node_paths_cover L t path n HR Hpath) as Hin.
  apply elem_of_app in Hin as [(p & -> & Hp)%list_elem_of_fmap
                              |(s & -> & Hs%remove_dups_elem)%list_elem_of_fmap].
  - left. apply elem_of_inner_keys in Hp.
    assert (lowercase p) as Hlow.
    { destruct Hp as [->|(s & Hs & Hp)]; [constructor|].
      eapply lowercase_prefix; [done|]. apply (sh_lower _ _ _ HS). by apply occ_pos. }
    destruct (sh_inner _ _ _ HS p n nd Hlow Hpath Hnd) as (Hc & Hw & _).
    exists p. split; [done|]. split; [done|]. split; [done|]. split; [done|].
    split; [|done]. rewrite Hc. by apply node_char_not_dollar.
  - right. pose proof Hs as Hpos%occ_pos.
    pose proof (sh_lower _ _ _ HS _ Hpos) as Hlow.
    rewrite (sh_terminal _ _ _ HS s n nd Hlow Hpath Hnd).
    exists s. done.
Qed.

Lemma node_kinds_witness :
  exists nd, heap (trie_of [lit "ab"]) !! 3 = Some nd /\
    length (links nd) = 27 /\
    ((exists p, lowercase p /\
        walk (heap (trie_of [lit "ab"])) (root (trie_of [lit "ab"])) (addr p) = Some 3 /\
        (p = [] \/ exists s, s ∈ [lit "ab"] /\ p `prefix_of` s) /\
        char nd = node_char p /\ char nd <> "$"%char /\ word nd = None)
     \/
     (exists s, s ∈ [lit "ab"] /\
        walk (heap (trie_of [lit "ab"])) (root (trie_of [lit "ab"])) (addr s ++ [0])
        = Some 3 /\
        char nd = "$"%char /\ word nd = Some s /\
        links nd = replicate 27 None /\ best_child nd = None)).
Proof.
  eexists. split; [reflexivity|].
  apply (node_kinds [lit "ab"] (trie_of [lit "ab"]) 3).
  - repeat constructor; done.
  - reflexivity.
  - reflexivity.
Defined.

(** ** Repairing a cache that is right already *)

Lemma run_pairs_id step prs h :
  (forall pr, pr ∈ prs -> step h pr = Some h) -> run_pairs step prs h = Some h.
Proof.
  induction prs as [|pr prs IH]; intros H; [done|].
  simpl. rewrite (H pr) by (by left). apply IH. intros pr' Hin. apply H. by right.
Qed.

(** What the comparison reads at a node on the path of a sentence [s]
    of the corpus, when the cache is right. *)
Lemma cached_reading cnt s h p a nd :
  WF h -> Shape h cnt [] -> Cached h cnt -> lowercase s -> 0 < cnt s ->
  p `prefix_of` s -> node_at h p = Some a -> h !! a = Some nd ->
  exists t m bnd,
    best_of cnt p t /\ word_freq nd = cnt t /\ best_child nd = Some m /\
    h !! m = Some bnd /\ word_freq bnd = cnt t /\ char bnd = next_char p t.
Proof.
  intros W HS HC Hs Hpos Hps Ha Hnd.
  pose proof (lowercase_prefix _ _ Hps Hs) as Hp.
  destruct (HC p a nd Hp Ha Hnd) as [(Hnone & _)|(t & m & Hbest & Hw & Hbc & Hl)].
  { rewrite Hnone in Hpos by done. lia. }
  pose proof Hbest as (Htpos & Hpt & _).
  pose proof (sh_lower _ _ _ HS _ Htpos) as Ht.
  assert (child h a (next_slot p t) = Some m) as Hch by (apply child_Some; eauto).
  pose proof (wf_up _ W _ _ _ Hch) as [_ Hmlt].
  destruct (lookup_lt_is_Some_2 h m Hmlt) as [bnd Hbnd].
  exists t, m, bnd.
  destruct (child_towards h cnt p t a m bnd W HS Ht Hpt Ha Hch Hbnd)
    as (Hchar & [[-> Hf]|(ch & Hpch & Hatm)]).
  - done.
  - split; [done|]. split; [done|]. split; [done|]. split; [done|]. split; [|done].
    assert (lowercase (p ++ [ch])) as Hlow by (by eapply lowercase_prefix).
    destruct (HC (p ++ [ch]) m bnd Hlow Hatm Hbnd)
      as [(Hnone & _)|(t' & m' & Hbest' & Hw' & _)].
    { rewrite Hnone in Htpos by done. lia. }
    assert (best_of cnt (p ++ [ch]) t) as Hdeep.
    { eapply best_of_deeper; [done|apply prefix_app_r; done|done]. }
    by rewrite (best_of_unique _ _ _ _ Hbest' Hdeep) in Hw'.
Qed.

Lemma repair_noop cnt s h P :
  WF h -> Shape h cnt [] -> Cached h cnt -> lowercase s -> 0 < cnt s ->
  trace h 0 (addr s ++ [0]) = Some P ->
  repair_all h P = Some h.
Proof.
  intros W HS HC Hs Hpos Htr.
  pose proof (path_length h s P Htr) as Hlen.
  pose proof (path_last h s P Htr) as Hlast.
  pose proof (path_last2 h s P Htr) as Hlast2.
  destruct (last P) as [tm|] eqn:Hl.
  2:{ apply last_None in Hl. subst P. simpl in Hlen. lia. }
  destruct (last (removelast P)) as [pk|] eqn:Hl2.
  2:{ apply last_None in Hl2. apply (f_equal length) in Hl2.
      rewrite removelast_firstn_len, length_take in Hl2. simpl in Hl2. lia. }
  symmetry in Hlast, Hlast2.
  pose proof (node_lt _ _ _ W Hlast) as Htmlt.
  destruct (lookup_lt_is_Some_2 h tm Htmlt) as [tnd Htnd].
  pose proof (sh_terminal _ _ _ HS s tm tnd Hs Hlast Htnd) as Hrec.
  assert (word_freq tnd = cnt s) as Hf by (by rewrite Hrec).
  unfold repair_all, repair. rewrite Hl, Hl2.
  rewrite run_pairs_id.
  2:{ intros [a b] Hin.
      destruct (path_pair h s P Htr a b Hin) as (p & Hps & Hat & Hc).
      pose proof (node_lt _ _ _ W Hat) as Halt.
      destruct (lookup_lt_is_Some_2 h a Halt) as [nd Hnd].
      destruct (cached_reading cnt s h p a nd W HS HC Hs Hpos Hps Hat Hnd)
        as (t & m & bnd & _ & _ & Hbc & _).
      unfold seed_pair. simpl. by rewrite Hnd, Hbc. }
  rewrite Htnd, Hf.
  rewrite run_pairs_id.
  2:{ intros [a b] Hin.
      destruct (path_pair h s P Htr a b Hin) as (p & Hps & Hat & Hc).
      pose proof (node_lt _ _ _ W Hat) as Halt.
      destruct (lookup_lt_is_Some_2 h a Halt) as [nd Hnd].
      destruct (cached_reading cnt s h p a nd W HS HC Hs Hpos Hps Hat Hnd)
        as (t & m & bnd & Hbest & _ & Hbc & Hbnd & Hbf & Hbchar).
      pose proof (wf_up _ W _ _ _ Hc) as [_ Hblt].
      destruct (lookup_lt_is_Some_2 h b Hblt) as [cnd Hcnd].
      destruct (child_towards h cnt p s a b cnd W HS Hs Hps Hat Hc Hcnd)
        as (Hcchar & _).
      pose proof Hbest as (Htpos & Hpt & Hall).
      pose proof (sh_lower _ _ _ HS _ Htpos) as Ht.
      unfold compare_pair. simpl. rewrite Hnd, Hbc, Hbnd, Hcnd, Hbf.
      destruct (Hall s Hpos Hps) as [Hlt|[Heq Hstr]].
      - destruct (Nat.ltb_spec (cnt t) (cnt s)); [lia|].
        destruct (Nat.eqb_spec (cnt s) (cnt t)); [lia|done].
      - destruct (Nat.ltb_spec (cnt t) (cnt s)); [lia|].
        destruct (Nat.eqb_spec (cnt s) (cnt t)); [|done].
        rewrite Hcchar, Hbchar.
        destruct (char_ltb (next_char p s) (next_char p t)) eqn:E; [|done].
        apply next_char_lt in E; [congruence|done..]. }
  pose proof (node_lt _ _ _ W Hlast2) as Hpklt.
  destruct (lookup_lt_is_Some_2 h pk Hpklt) as [nd Hnd].
  destruct (cached_reading cnt s h s pk nd W HS HC Hs Hpos (reflexivity s) Hlast2 Hnd)
    as (t & m & bnd & (Htpos & Hpt & Hall) & Hw & _).
  unfold fixup. rewrite Hnd, Hw.
  destruct (Hall s Hpos (reflexivity s)) as [Hlt|[Heq _]];
    destruct (Nat.ltb_spec (cnt t) (cnt s)); done || lia.
Qed.

(** X18: [update_nodes] is idempotent: called once more on a trie built
    from at least one lowercase sentence, with [nodes_to_update] as the
    last insertion left it, it returns normally and changes nothing. *)
Theorem update_nodes_idempotent L t :
  Forall lowercase L -> L <> [] -> CatsTrie_new L = (Ok tt, t) ->
  update_nodes t = (Ok tt, t).
Proof.
  intros HL Hne Ht.
  destruct L as [|s L _] using rev_ind; [done|].
  apply Forall_app in HL as [HL [Hs _]%Forall_cons].
  destruct (build_spec L HL) as (t0 & Ht0 & Hroot & W & HS & HC).
  rewrite (CatsTrie_new_snoc L s t0 Ht0) in Ht.
  destruct t0 as [h r ntu]. simpl in *. subst r.
  destruct (insert_spec (occ L) s h ntu W HS HC Hs)
    as (h' & P & Hrun & W' & HS' & HC' & Htr & _).
  rewrite Hrun in Ht. simplify_eq.
  apply update_nodes_repair.
  apply (repair_noop (bump (occ L) s) s); [done|done|done|done| |done].
  rewrite bump_same. lia.
Qed.

Lemma update_nodes_idempotent_witness :
  update_nodes (trie_of [lit "abc"; lit "ab"; lit "abd"])
  = (Ok tt, trie_of [lit "abc"; lit "ab"; lit "abd"]).
Proof.
  apply (update_nodes_idempotent [lit "abc"; lit "ab"; lit "abd"]).
  - repeat constructor; done.
  - done.
  - reflexivity.
Defined.

(** *** The path that [update_nodes] needs *)

Lemma for_range_zero body t : for_range 0 body t = (Ok tt, t).
Proof. done. Qed.

(** X19: [update_nodes] indexes [nodes_to_update] with -1 and -2: it
    returns normally only in a state where [nodes_to_update] is a list
    of at least two entries.  With [None], as the constructor leaves it
    before the first insertion, or with a shorter list, the call does
    not return normally. *)
Theorem update_nodes_needs_two_nodes t t' :
  update_nodes t = (Ok tt, t') ->
  exists l, nodes_to_update t = Some l /\ 2 <= length l.
Proof.
  intros Hrun. destruct t as [h r [l|]].
  2:{ by vm_compute in Hrun. }
  exists l. split; [done|].
  destruct l as [|x [|y l]]; [| |simpl; lia]; exfalso.
  - by vm_compute in Hrun.
  - unfold update_nodes in Hrun.
    erewrite bind_eq in Hrun by reflexivity.
    erewrite bind_eq in Hrun by reflexivity.
    erewrite bind_eq in Hrun by reflexivity.
    apply bind_inv in Hrun as (lnd & t1 & Hd & Hrun).
    pose proof (deref_state x (mkTrie h r (Some [x]))) as Hst.
    rewrite Hd in Hst. simpl in Hst. subst t1.
    erewrite bind_eq in Hrun by reflexivity.
    erewrite bind_eq in Hrun by reflexivity.
    by vm_compute in Hrun.
Qed.

Lemma update_nodes_needs_two_nodes_witness :
  exists l, nodes_to_update (trie_of [lit "a"]) = Some l /\ 2 <= length l.
Proof.
  apply (update_nodes_needs_two_nodes (trie_of [lit "a"]) (trie_of [lit "a"])).
  reflexivity.
Defined.

(** ** The constructor on lowercase sentences *)

(** X20: the constructor returns normally on every list of lowercase
    sentences, the empty sentence and repeated sentences included; the
    root is the first node allocated, it carries ['R'] and no word, and
    its links are the 27 slots. *)
Theorem CatsTrie_init_succeeds L :
  Forall lowercase L ->
  fst (CatsTrie_new L) = Ok tt /\ root (trie_of L) = 0 /\
  exists nd, heap (trie_of L) !! 0 = Some nd /\ char nd = "R"%char /\
             word nd = None /\ length (links nd) = 27.
Proof.
  intros HL. destruct (build_spec L HL) as (t & Ht & Hroot & W & HS & HC).
  unfold trie_of. rewrite Ht. simpl.
  split; [done|]. split; [done|].
  destruct (lookup_lt_is_Some_2 (heap t) 0 (wf_root _ W)) as [nd Hnd].
  destruct (sh_inner _ _ _ HS [] 0 nd) as (Hc & Hw & _); [constructor|done..|].
  exists nd. split; [done|]. split; [done|]. split; [done|]. by eapply wf_links.
Qed.

Lemma CatsTrie_init_succeeds_witness :
  fst (CatsTrie_new [lit "ab"; lit ""; lit "ab"]) = Ok tt /\
  root (trie_of [lit "ab"; lit ""; lit "ab"]) = 0 /\
  exists nd, heap (trie_of [lit "ab"; lit ""; lit "ab"]) !! 0 = Some nd /\
             char nd = "R"%char /\ word nd = None /\ length (links nd) = 27.
Proof.
  apply (CatsTrie_init_succeeds [lit "ab"; lit ""; lit "ab"]).
  repeat constructor; done.
Defined.

(** ** The terminal in ties *)

(** The best child of the parent of a terminal, against the terminal. *)
Lemma terminal_parent_best h cnt a n nd tm tnd :
  WF h -> Shape h cnt [] -> Cached h cnt -> lowercase a -> 0 < cnt a ->
  node_at h a = Some n -> h !! n = Some nd ->
  child h n 0 = Some tm -> h !! tm = Some tnd ->
  word_freq tnd = cnt a /\
  exists m bnd, best_child nd = Some m /\ h !! m = Some bnd /\
    (m = tm \/ word_freq tnd < word_freq bnd).
Proof.
  intros W HS HC Ha Hpos Hn Hnd Htm Htnd.
  assert (terminal_at h a = Some tm) as Hterm by (apply walk_snoc; eauto).
  pose proof (sh_terminal _ _ _ HS a tm tnd Ha Hterm Htnd) as Hrec.
  assert (word_freq tnd = cnt a) as Hf by (by rewrite Hrec).
  split; [done|].
  destruct (cached_reading cnt a h a n nd W HS HC Ha Hpos (reflexivity a) Hn Hnd)
    as (t & m & bnd & Hbest & _ & Hbc & Hbnd & Hbf & _).
  exists m, bnd. split; [done|]. split; [done|].
  destruct (decide (t = a)) as [->|Hne].
  - left. destruct (HC a n nd Ha Hn Hnd) as [(Hnone & _)|(t' & m' & Hb' & _ & Hbc' & Hl)].
    { rewrite Hnone in Hpos by done. lia. }
    rewrite <- (best_of_unique _ _ _ _ Hbest Hb') in Hl.
    unfold next_slot in Hl. rewrite drop_all in Hl.
    assert (child h n 0 = Some m') as Hch by (apply child_Some; eauto).
    congruence.
  - right. destruct Hbest as (_ & Hat & Hall).
    rewrite Hf, Hbf.
    destruct (Hall a Hpos (reflexivity a)) as [Hlt|[_ Hstr]]; [done|].
    rewrite str_ltb_proper_prefix in Hstr; [done|done|congruence].
Qed.

(** C10, as stated, fails: among equally frequent completions of a prompt
    of which one is a proper prefix of another, a third one can be the
    lexicographically smallest, and it is the one returned. *)
Lemma shorter_tied_sentence_not_returned :
  Forall sentence_ok [lit "car"; lit "care"; lit "cab"] /\
  fst (CatsTrie_new [lit "car"; lit "care"; lit "cab"]) = Ok tt /\
  lit "ca" `prefix_of` lit "car" /\ lit "car" `prefix_of` lit "care" /\
  lit "car" <> lit "care" /\
  occ [lit "car"; lit "care"; lit "cab"] (lit "car")
  = occ [lit "car"; lit "care"; lit "cab"] (lit "care") /\
  (forall s, s ∈ [lit "car"; lit "care"; lit "cab"] ->
     occ [lit "car"; lit "care"; lit "cab"] s = 1) /\
  forall fuel,
    fst (autoComplete fuel (lit "ca") (trie_of [lit "car"; lit "care"; lit "cab"]))
    = if 1 <=? fuel then Ok (Some (lit "cab")) else OutOfFuel.
Proof.
  split; [repeat constructor; done|]. split; [reflexivity|].
  split; [by exists (lit "r")|]. split; [by exists (lit "e")|].
  split; [done|]. split; [reflexivity|]. split.
  { intros s Hs.
    repeat (apply elem_of_cons in Hs as [->|Hs]; [reflexivity|]).
    by apply elem_of_nil in Hs. }
  intros fuel.
  assert (Represents (trie_of [lit "car"; lit "care"; lit "cab"])
            [lit "car"; lit "care"; lit "cab"]) as HR.
  { apply lowercase_Represents; [repeat constructor | reflexivity]. }
  assert (fst (autoComplete 1 (lit "ca") (trie_of [lit "car"; lit "care"; lit "cab"]))
          = Ok (Some (lit "cab"))) as Hrun by reflexivity.
  assert (lowercase (lit "ca")) as Hp by (repeat constructor).
  destruct (query_result _ _ (lit "ca") 1 (lit "cab") HR Hp Hrun) as [_ H].
  apply H.
Qed.

(** C10 (amended): on a trie built from non-empty lowercase sentences,
    the terminal marker is smaller than every lowercase letter; at the
    parent of a terminal a letter child whose [word_freq] equals that of
    the terminal is never the best child, and the terminal is the best
    child whenever no letter child has a higher [word_freq]; among
    equally frequent completions of a prompt of which one is a proper
    prefix of the other the longer one is never returned, the query
    returning another sentence; and the shorter one is returned whenever
    no completion of the prompt is more frequent than it, or equally
    frequent and lexicographically smaller. *)
Theorem terminal_wins_ties L :
  Forall sentence_ok L ->
  (forall c, is_lower c = true -> char_ltb "$" c = true) /\
  exists t,
    CatsTrie_new L = (Ok tt, t) /\
    (forall a n nd tm tnd,
        a ∈ L -> node_at (heap t) a = Some n -> heap t !! n = Some nd ->
        child (heap t) n 0 = Some tm -> heap t !! tm = Some tnd ->
        (forall j c cnd,
            j <> 0 -> child (heap t) n j = Some c -> heap t !! c = Some cnd ->
            word_freq cnd = word_freq tnd -> best_child nd <> Some c) /\
        ((forall j c cnd,
             j <> 0 -> child (heap t) n j = Some c -> heap t !! c = Some cnd ->
             word_freq cnd <= word_freq tnd) ->
         best_child nd = Some tm)) /\
    (forall p a b,
        a ∈ L -> b ∈ L -> p `prefix_of` a -> a `prefix_of` b -> a <> b ->
        occ L b = occ L a ->
        (forall fuel, fst (autoComplete fuel p t) <> Ok (Some b)) /\
        exists s, s <> b /\
          forall fuel, length s - length p <= fuel ->
            autoComplete fuel p t = (Ok (Some s), t)) /\
    (forall p a,
        a ∈ L -> p `prefix_of` a ->
        (forall s', s' ∈ L -> p `prefix_of` s' ->
           occ L s' < occ L a \/ (occ L s' = occ L a /\ str_ltb s' a = false)) ->
        forall fuel, length a - length p <= fuel ->
          autoComplete fuel p t = (Ok (Some a), t)).
Proof.
  intros HL. split; [apply dollar_ltb_lower|].
  destruct (build_spec L (sentences_lowercase L HL)) as (t & Ht & HR).
  exists t. split; [done|].
  pose proof HR as (Hr & W & HS & HC).
  assert (forall a, a ∈ L -> lowercase a) as Hlow.
  { intros a Ha. apply (sh_lower _ _ _ HS). by apply occ_pos. }
  assert (forall p a, a ∈ L -> p `prefix_of` a ->
            exists s, best_of (occ L) p s /\
              forall fuel, autoComplete fuel p t
                = (if length s - length p <=? fuel then Ok (Some s) else OutOfFuel, t))
    as Hquery.
  { intros p a Ha Hpa.
    assert (lowercase p) as Hp by (eapply lowercase_prefix; eauto).
    destruct (query_cases L t p HR Hp)
      as [(-> & _ & _)|[(_ & Hno & _)|(s & Hbest & H)]].
    - by apply elem_of_nil in Ha.
    - exfalso. by apply (Hno a).
    - by exists s. }
  split; [|split].
  - intros a n nd tm tnd Ha Hn Hnd Htm Htnd.
    assert (0 < occ L a) as Hpos by (by apply occ_pos).
    destruct (terminal_parent_best (heap t) (occ L) a n nd tm tnd W HS HC
                (Hlow a Ha) Hpos Hn Hnd Htm Htnd)
      as (Hf & m & bnd & Hbc & Hbnd & Hcase).
    split.
    + intros j c cnd Hj Hc Hcnd Htie Hbest. rewrite Hbc in Hbest. simplify_eq.
      destruct Hcase as [->|Hlt]; [|lia].
      destruct (wf_inj _ W _ _ _ _ _ Hc Htm) as [_ ?]. done.
    + intros Hle. rewrite Hbc. f_equal.
      destruct Hcase as [->|Hlt]; [done|].
      pose proof (wf_links _ W _ _ Hnd) as Hlen.
      assert (forall j, child (heap t) n j = Some m -> False) as Hnot.
      { intros j Hj. destruct (decide (j = 0)) as [->|Hj0].
        - rewrite Htm in Hj. simplify_eq. lia.
        - specialize (Hle j m bnd Hj0 Hj Hbnd). lia. }
      exfalso.
      destruct (HC a n nd (Hlow a Ha) Hn Hnd)
        as [(Hnone & _)|(t' & m' & _ & _ & Hbc' & Hl)].
      { rewrite Hnone in Hpos by done. lia. }
      apply (Hnot (next_slot a t')). apply child_Some.
      exists nd. split; [done|]. congruence.
  - intros p a b Ha Hb Hpa Hab Hne Hocc.
    destruct (Hquery p a Ha Hpa) as (s & (Hspos & Hps & Hall) & Hrun).
    assert (s <> b) as Hsb.
    { intros ->. assert (0 < occ L a) as Hpos by (by apply occ_pos).
      destruct (Hall a Hpos Hpa) as [?|[_ Hstr]]; [lia|].
      by rewrite str_ltb_proper_prefix in Hstr. }
    split.
    + intros fuel. rewrite Hrun. simpl.
      destruct (_ <=? _); [|done]. intros ?. by simplify_eq.
    + exists s. split; [done|]. intros fuel Hfuel. rewrite Hrun.
      by destruct (Nat.leb_spec (length s - length p) fuel); [|lia].
  - intros p a Ha Hpa Htop fuel Hfuel.
    destruct (Hquery p a Ha Hpa) as (s & Hbest & Hrun).
    assert (best_of (occ L) p a) as Hbest'.
    { split; [by apply occ_pos|]. split; [done|]. intros s' Hs' Hp'.
      apply occ_pos in Hs'. destruct (Htop s' Hs' Hp') as [?|[Heq Hstr]]; [by left|].
      right. done. }
    rewrite (best_of_unique _ _ _ _ Hbest Hbest') in Hrun. rewrite Hrun.
    by destruct (Nat.leb_spec (length a - length p) fuel); [|lia].
Qed.

Lemma terminal_wins_ties_witness :
  (forall c, is_lower c = true -> char_ltb "$" c = true) /\
  exists t,
    CatsTrie_new [lit "cat"; lit "car"; lit "care"] = (Ok tt, t) /\
    (forall a n nd tm tnd,
        a ∈ [lit "cat"; lit "car"; lit "care"] ->
        node_at (heap t) a = Some n -> heap t !! n = Some nd ->
        child (heap t) n 0 = Some tm -> heap t !! tm = Some tnd ->
        (forall j c cnd,
            j <> 0 -> child (heap t) n j = Some c -> heap t !! c = Some cnd ->
            word_freq cnd = word_freq tnd -> best_child nd <> Some c) /\
        ((forall j c cnd,
             j <> 0 -> child (heap t) n j = Some c -> heap t !! c = Some cnd ->
             word_freq cnd <= word_freq tnd) ->
         best_child nd = Some tm)) /\
    (forall p a b,
        a ∈ [lit "cat"; lit "car"; lit "care"] ->
        b ∈ [lit "cat"; lit "car"; lit "care"] ->
        p `prefix_of` a -> a `prefix_of` b -> a <> b ->
        occ [lit "cat"; lit "car"; lit "care"] b
        = occ [lit "cat"; lit "car"; lit "care"] a ->
        (forall fuel, fst (autoComplete fuel p t) <> Ok (Some b)) /\
        exists s, s <> b /\
          forall fuel, length s - length p <= fuel ->
            autoComplete fuel p t = (Ok (Some s), t)) /\
    (forall p a,
        a ∈ [lit "cat"; lit "car"; lit "care"] -> p `prefix_of` a ->
        (forall s', s' ∈ [lit "cat"; lit "car"; lit "care"] -> p `prefix_of` s' ->
           occ [lit "cat"; lit "car"; lit "care"] s'
           < occ [lit "cat"; lit "car"; lit "care"] a \/
           (occ [lit "cat"; lit "car"; lit "care"] s'
            = occ [lit "cat"; lit "car"; lit "care"] a /\
            str_ltb s' a = false)) ->
        forall fuel, length a - length p <= fuel ->
          autoComplete fuel p t = (Ok (Some a), t)).
Proof.
  apply (terminal_wins_ties [lit "cat"; lit "car"; lit "care"]).
  repeat constructor; done.
Defined.
